(** * pam2qoi: a shallow embedding of the multi-threaded QOI encoder

    The development follows [pam2qoi.cpp]: the [Image] class with its
    bounds-checked accessor, the chunk encoder [encodeQoi], and the part of
    [main] that picks the worker count, plans the row ranges and joins the
    encoded chunks in submission order.

    Conventions.
    - [std::size_t] is a 64-bit unsigned integer, [unsigned int] a 32-bit
      one; both are modelled as [Z] with the wrap-around written out.
    - A [char] pushed on the result string is modelled as its unsigned
      value, a [Z] in [0, 256).
    - [std::string::max_size()] and [std::thread::hardware_concurrency()]
      belong to the platform and are parameters of the functions using them.
    - The functions give the run in which every allocation succeeds. A
      failed allocation ([std::bad_alloc]) and a string that would outgrow
      [max_size()] are added by the relations [encodeQoi_run],
      [read_body_run] and [readPam_run], which hold of every outcome a
      call can have. Exhaustion of threads is not modelled. *)

From Stdlib Require Import ZArith List Bool Lia String Ascii.
Import ListNotations.
Open Scope Z_scope.

(** ** Machine integers *)

Definition size_t (z : Z) : Z := z mod 2 ^ 64.
Definition uint32_t (z : Z) : Z := z mod 2 ^ 32.
Definition uint8_t (z : Z) : Z := z mod 2 ^ 8.
Definition int8_t (z : Z) : Z := (z + 128) mod 2 ^ 8 - 128.

Definition is_size_t (z : Z) : Prop := 0 <= z < 2 ^ 64.
Definition is_uint8_t (z : Z) : Prop := 0 <= z < 2 ^ 8.

(** ** Outcomes of a call

    A call returns, throws a C++ exception, or leaves the defined behaviour
    of the language (here: an index outside a vector's storage). [OutOfFuel]
    is the model running out of loop fuel; it is shown not to happen. *)

Inductive exception : Type :=
| bad_alloc
| length_error
| invalid_argument
| out_of_range
| runtime_error (what : string).

Inductive outcome (A : Type) : Type :=
| Returns (a : A)
| Throws (e : exception)
| Undefined
| OutOfFuel.

Arguments Returns {A} a.
Arguments Throws {A} e.
Arguments Undefined {A}.
Arguments OutOfFuel {A}.

Definition bind {A B : Type} (m : outcome A) (k : A -> outcome B) : outcome B :=
  match m with
  | Returns a => k a
  | Throws e => Throws e
  | Undefined => Undefined
  | OutOfFuel => OutOfFuel
  end.

Notation "x <- m ;; k" := (bind m (fun x => k))
  (at level 61, m at next level, right associativity).

(** ** Image *)

Module Image.

Record Pixel : Type := mkPixel { r : Z; g : Z; b : Z; a : Z }.

(** [Pixel{}]: the default member initialisers of the struct. *)
Definition Pixel_default : Pixel := mkPixel 0 0 0 255.

(** [Pixel::operator ==]. *)
Definition Pixel_eqb (p other : Pixel) : bool :=
  (r p =? r other) && (g p =? g other) && (b p =? b other) && (a p =? a other).

Definition Pixel_ok (p : Pixel) : Prop :=
  is_uint8_t (r p) /\ is_uint8_t (g p) /\ is_uint8_t (b p) /\ is_uint8_t (a p).

Record t : Type := mk { width_ : Z; height_ : Z; pixels_ : list Pixel }.

Definition getWidth (image : t) : Z := width_ image.
Definition getHeight (image : t) : Z := height_ image.

(** [explicit operator bool]. *)
Definition to_bool (image : t) : bool :=
  negb (width_ image =? 0) && negb (height_ image =? 0).

(** [getPixel]: the guarded read of [pixels_[width_ * y + x]]; a
    coordinate outside the image yields [Pixel{}]. *)
Definition getPixel (image : t) (x y : Z) : outcome Pixel :=
  if (x <? width_ image) && (y <? height_ image) then
    match nth_error (pixels_ image) (Z.to_nat (size_t (width_ image * y + x))) with
    | Some p => Returns p
    | None => Undefined
    end
  else Returns Pixel_default.

(** The class invariant: as many pixels as [width_ * height_] (a size
    that a vector can have), every channel a byte. *)
Definition valid (image : t) : Prop :=
  is_size_t (width_ image) /\ is_size_t (height_ image) /\
  Z.of_nat (List.length (pixels_ image)) = width_ image * height_ image /\
  is_size_t (width_ image * height_ image) /\
  Forall Pixel_ok (pixels_ image).

(** [Image()]: no pixels. *)
Definition empty : t := mk 0 0 [].

(** [pixels_[i] = value], for an index inside the storage. *)
Fixpoint store (pixels : list Pixel) (i : nat) (value : Pixel) : list Pixel :=
  match pixels, i with
  | [], _ => []
  | _ :: rest, O => value :: rest
  | p :: rest, S i' => p :: store rest i' value
  end.

(** [setPixel]: the guarded write of [pixels_[width_ * y + x]]; a
    coordinate outside the image changes nothing. *)
Definition setPixel (image : t) (x y : Z) (value : Pixel) : outcome t :=
  if (x <? width_ image) && (y <? height_ image) then
    let i := Z.to_nat (size_t (width_ image * y + x)) in
    if (i <? List.length (pixels_ image))%nat then
      Returns (mk (width_ image) (height_ image) (store (pixels_ image) i value))
    else Undefined
  else Returns image.

(** The image that [clearAndInitialize] leaves: [width * height] default
    pixels, the product taken in [std::size_t]. *)
Definition initialized (width height : Z) : t :=
  mk width height (repeat Pixel_default (Z.to_nat (size_t (width * height)))).

(** [clearAndInitialize]: [pixels_.assign] throws [length_error] for more
    elements than [max_pixels], the [max_size()] of the vector of pixels;
    the image is a local of [readPam] and is lost with the exception. The
    allocation itself is taken to succeed here; [read_body_run] adds its
    failure. *)
Definition clearAndInitialize (max_pixels width height : Z) : outcome t :=
  if max_pixels <? size_t (width * height) then Throws length_error
  else Returns (initialized width height).

End Image.

Import Image.

(** ** The chunk encoder *)

Module Tag.
Definition INDEX : Z := 0x00.
Definition DIFF : Z := 0x40.
Definition LUMA : Z := 0x80.
Definition RUN : Z := 0xC0.
Definition LONG_RUN : Z := 0xFD.
Definition RGB : Z := 0xFE.
Definition RGBA : Z := 0xFF.
End Tag.

(** [res.push_back(v)]: the value is converted to [char]. The string is
    taken to have room; [encodeQoi_run] adds the [length_error] of a string
    that would outgrow [max_size()] and the failure of an allocation. *)
Definition push_back (res : list Z) (v : Z) : list Z := res ++ [uint8_t v].

(** The header's [encode_be] lambda. *)
Definition encode_be (res : list Z) (value : Z) : list Z :=
  let res := push_back res (Z.shiftr value 24) in
  let res := push_back res (Z.shiftr value 16) in
  let res := push_back res (Z.shiftr value 8) in
  push_back res value.

(** The bytes of the string literal ["qoif"]. *)
Definition magic : list Z := [0x71; 0x6F; 0x69; 0x66].

Definition write_header (res : list Z) (image : Image.t) : list Z :=
  let res := res ++ magic in
  let res := encode_be res (uint32_t (getWidth image)) in
  let res := encode_be res (uint32_t (getHeight image)) in
  let res := push_back res 4 in
  push_back res 0.

(** The end marker loop: seven times [0], then [1]. *)
Definition write_end_marker (res : list Z) : list Z :=
  push_back (fold_left (fun res _ => push_back res 0) (seq 0 7) res) 1.

(** The locals of [encodeQoi] that the pixel loop updates. *)
Record State : Type := mkState {
  index : list (option Pixel);
  previous_pixel : Pixel;
  run : Z;
  res : list Z
}.

Definition index_at (index : list (option Pixel)) (hash : Z) : option Pixel :=
  nth (Z.to_nat hash) index None.

Fixpoint index_assign (index : list (option Pixel)) (hash : nat) (pixel : Pixel)
  : list (option Pixel) :=
  match index, hash with
  | [], _ => []
  | _ :: rest, O => Some pixel :: rest
  | slot :: rest, S hash' => slot :: index_assign rest hash' pixel
  end.

(** [index[hash] && index[hash] == pixel]. *)
Definition holds (slot : option Pixel) (pixel : Pixel) : bool :=
  match slot with
  | Some p => Pixel_eqb p pixel
  | None => false
  end.

(** The [is_within] lambda, on [std::int8_t] values. *)
Definition is_within (value low high : Z) : bool :=
  (low <=? value) && (value <=? high).

Definition pixel_hash (pixel : Pixel) : Z :=
  uint8_t ((r pixel * 3 + g pixel * 5 + b pixel * 7 + a pixel * 11) mod 64).

(** [if (run) { res.push_back(RUN | (run - 1)); run = 0; }] *)
Definition flush_run (st : State) : State :=
  if run st =? 0 then st
  else mkState (index st) (previous_pixel st) 0
         (push_back (res st) (Z.lor Tag.RUN (run st - 1))).

(** One iteration of the inner loop, after [getPixel]. Every [continue] of
    the source is a branch that returns the state reached there. *)
Definition encode_pixel (st : State) (pixel : Pixel) : State :=
  if Pixel_eqb pixel (previous_pixel st) then
    let run1 := uint8_t (run st + 1) in
    if run1 =? 62 then
      mkState (index st) (previous_pixel st) 0 (push_back (res st) Tag.LONG_RUN)
    else
      mkState (index st) (previous_pixel st) run1 (res st)
  else
    let st := flush_run st in
    let hash := pixel_hash pixel in
    if holds (index_at (index st) hash) pixel then
      mkState (index st) pixel (run st) (push_back (res st) (Z.lor Tag.INDEX hash))
    else
      let index1 := index_assign (index st) (Z.to_nat hash) pixel in
      if negb (a pixel =? a (previous_pixel st)) then
        let res := push_back (res st) Tag.RGBA in
        let res := push_back res (r pixel) in
        let res := push_back res (g pixel) in
        let res := push_back res (b pixel) in
        let res := push_back res (a pixel) in
        mkState index1 pixel (run st) res
      else
        let vr := int8_t (r pixel - r (previous_pixel st)) in
        let vg := int8_t (g pixel - g (previous_pixel st)) in
        let vb := int8_t (b pixel - b (previous_pixel st)) in
        if is_within vr (-2) 1 && is_within vg (-2) 1 && is_within vb (-2) 1 then
          mkState index1 pixel (run st)
            (push_back (res st)
               (Z.lor (Z.lor (Z.lor Tag.DIFF (Z.shiftl (vr + 2) 4)) (Z.shiftl (vg + 2) 2))
                  (vb + 2)))
        else
          let vg_r := int8_t (vr - vg) in
          let vg_b := int8_t (vb - vg) in
          if is_within vg_r (-8) 7 && is_within vg (-32) 31 && is_within vg_b (-8) 7 then
            let res := push_back (res st) (Z.lor Tag.LUMA (vg + 32)) in
            let res := push_back res (Z.lor (Z.shiftl (vg_r + 8) 4) (vg_b + 8)) in
            mkState index1 pixel (run st) res
          else
            let res := push_back (res st) Tag.RGB in
            let res := push_back res (r pixel) in
            let res := push_back res (g pixel) in
            let res := push_back res (b pixel) in
            mkState index1 pixel (run st) res.

(** The values [from], [from + 1], ... taken by a counting loop that runs
    [count] times. *)
Definition counting (from : Z) (count : nat) : list Z :=
  map (fun i => from + Z.of_nat i) (seq 0 count).

(** [for (x = 0; x < image.getWidth(); ++x)] *)
Definition columns (image : Image.t) : list Z :=
  counting 0 (Z.to_nat (getWidth image)).

(** [for (y = start_y; y < end_y && y < image.getHeight(); ++y)] *)
Definition rows (image : Image.t) (start_y end_y : Z) : list Z :=
  counting start_y (Z.to_nat (Z.min end_y (getHeight image) - start_y)).

Fixpoint encode_row (image : Image.t) (y : Z) (xs : list Z) (st : State)
  : outcome State :=
  match xs with
  | [] => Returns st
  | x :: xs' =>
      pixel <- getPixel image x y ;;
      encode_row image y xs' (encode_pixel st pixel)
  end.

Fixpoint encode_rows (image : Image.t) (ys : list Z) (st : State) : outcome State :=
  match ys with
  | [] => Returns st
  | y :: ys' =>
      st1 <- encode_row image y (columns image) st ;;
      encode_rows image ys' st1
  end.

(** The argument of [res.reserve], in [std::size_t] arithmetic. *)
Definition reserve_request (image : Image.t) (start_y end_y : Z) : Z :=
  size_t (size_t (size_t (size_t (end_y - start_y) * getWidth image) * 4) * 2) / 3.

(** [std::string::reserve]: throws [length_error] above [max_size()], and
    has no effect on the contents. The allocation it makes is taken to
    succeed here; [encodeQoi_run] adds its failure. *)
Definition reserve (max_size : Z) (n : Z) : outcome unit :=
  if max_size <? n then Throws length_error else Returns tt.

(** The state in front of the pixel loop. *)
Definition initial_state (image : Image.t) (start_y : Z) : State :=
  let res := if start_y =? 0 then write_header [] image else [] in
  let index :=
    if start_y =? 0 then repeat (Some (mkPixel 0 0 0 0)) 64 else repeat None 64 in
  mkState index Pixel_default 0 res.

(** The pixel loop of the chunk. *)
Definition encode_body (image : Image.t) (start_y end_y : Z) : outcome State :=
  encode_rows image (rows image start_y end_y) (initial_state image start_y).

(** The tail of [encodeQoi]: the last run, then the end marker. *)
Definition final_run (st : State) : list Z :=
  if run st =? 0 then res st
  else push_back (res st) (Z.lor Tag.RUN (run st - 1)).

Definition footer_due (image : Image.t) (end_y : Z) : bool :=
  size_t (end_y + 1) >=? getHeight image.

Definition encodeQoi (max_size : Z) (image : Image.t) (start_y end_y : Z)
  : outcome (list Z) :=
  _ <- reserve max_size (reserve_request image start_y end_y) ;;
  st <- encode_body image start_y end_y ;;
  let res := final_run st in
  Returns (if footer_due image end_y then write_end_marker res else res).

(** ** The opcodes behind the bytes

    Each constructor stands for one place of [encodeQoi] that pushes an
    opcode, and carries the values that place pushes; [op_bytes] gives the
    bytes. [emitted] follows the branches of [encode_pixel] and names what
    an iteration pushes; [encode_pixel_res] shows that these are the bytes
    that reach [res]. *)

Inductive Op : Type :=
| OpLongRun
| OpRun (run : Z)
| OpIndex (hash : Z)
| OpRGBA (pixel : Pixel)
| OpDiff (vr vg vb : Z)
| OpLuma (vg vg_r vg_b : Z)
| OpRGB (pixel : Pixel).

Definition op_bytes (op : Op) : list Z :=
  match op with
  | OpLongRun => [uint8_t Tag.LONG_RUN]
  | OpRun run => [uint8_t (Z.lor Tag.RUN (run - 1))]
  | OpIndex hash => [uint8_t (Z.lor Tag.INDEX hash)]
  | OpRGBA pixel =>
      [uint8_t Tag.RGBA; uint8_t (r pixel); uint8_t (g pixel); uint8_t (b pixel);
       uint8_t (a pixel)]
  | OpDiff vr vg vb =>
      [uint8_t (Z.lor (Z.lor (Z.lor Tag.DIFF (Z.shiftl (vr + 2) 4)) (Z.shiftl (vg + 2) 2))
                  (vb + 2))]
  | OpLuma vg vg_r vg_b =>
      [uint8_t (Z.lor Tag.LUMA (vg + 32)); uint8_t (Z.lor (Z.shiftl (vg_r + 8) 4) (vg_b + 8))]
  | OpRGB pixel => [uint8_t Tag.RGB; uint8_t (r pixel); uint8_t (g pixel); uint8_t (b pixel)]
  end.

Definition ops_bytes (ops : list Op) : list Z := flat_map op_bytes ops.

(** The first byte of an opcode. *)
Definition op_tag (op : Op) : Z := hd 0 (op_bytes op).

Definition is_run_op (op : Op) : bool :=
  match op with
  | OpLongRun | OpRun _ => true
  | _ => false
  end.

(** The number of pixels a run opcode stands for. *)
Definition run_length (op : Op) : Z :=
  match op with
  | OpLongRun => 62
  | OpRun run => run
  | _ => 0
  end.

Definition run_total (ops : list Op) : Z :=
  fold_right (fun op n => run_length op + n) 0 ops.

Definition flushed (st : State) : list Op :=
  if run st =? 0 then [] else [OpRun (run st)].

(** The opcode chosen for a pixel that differs from the previous one. *)
Definition pixel_op (st : State) (pixel : Pixel) : Op :=
  let hash := pixel_hash pixel in
  if holds (index_at (index st) hash) pixel then OpIndex hash
  else if negb (a pixel =? a (previous_pixel st)) then OpRGBA pixel
  else
    let vr := int8_t (r pixel - r (previous_pixel st)) in
    let vg := int8_t (g pixel - g (previous_pixel st)) in
    let vb := int8_t (b pixel - b (previous_pixel st)) in
    if is_within vr (-2) 1 && is_within vg (-2) 1 && is_within vb (-2) 1 then
      OpDiff vr vg vb
    else
      let vg_r := int8_t (vr - vg) in
      let vg_b := int8_t (vb - vg) in
      if is_within vg_r (-8) 7 && is_within vg (-32) 31 && is_within vg_b (-8) 7 then
        OpLuma vg vg_r vg_b
      else OpRGB pixel.

Definition emitted (st : State) (pixel : Pixel) : list Op :=
  if Pixel_eqb pixel (previous_pixel st) then
    if uint8_t (run st + 1) =? 62 then [OpLongRun] else []
  else flushed st ++ [pixel_op st pixel].

(** The opcodes pushed while a list of pixels goes through the loop. *)
Fixpoint trace (st : State) (pixels : list Pixel) : list Op :=
  match pixels with
  | [] => []
  | pixel :: rest => emitted st pixel ++ trace (encode_pixel st pixel) rest
  end.

(** The pixels a chunk reads, in the order of the two loops. *)
Definition pixel_at (image : Image.t) (y x : Z) : Pixel :=
  nth (Z.to_nat (width_ image * y + x)) (pixels_ image) Pixel_default.

Definition chunk_pixels (image : Image.t) (start_y end_y : Z) : list Pixel :=
  flat_map (fun y => map (pixel_at image y) (columns image)) (rows image start_y end_y).

(** All opcodes of a chunk: those of the loop, then the last run. *)
Definition chunk_ops (image : Image.t) (start_y end_y : Z) : list Op :=
  let st0 := initial_state image start_y in
  let pixels := chunk_pixels image start_y end_y in
  trace st0 pixels ++ flushed (fold_left encode_pixel pixels st0).

(** ** Runs of [encodeQoi] with the failures of the string

    [encodeQoi] is the run in which the string gets the memory it asks for
    and stays within [max_size()]. The string allocates in [reserve] and
    whenever [push_back] or [+=] outgrows its capacity, and a failed
    allocation throws [std::bad_alloc]; [push_back] and [+=] throw
    [std::length_error] rather than grow beyond [max_size()]. Either
    exception leaves [encodeQoi]. [encodeQoi_run] holds of every outcome a
    call can have. *)

(** The string of a row range never holds more: the header, five bytes for
    every pixel, the end marker. *)
Definition chunk_bound (image : Image.t) (start_y end_y : Z) : Z :=
  14 + 5 * (getWidth image * Z.max 0 (Z.min end_y (getHeight image) - start_y)) + 8.

Inductive encodeQoi_run (max_size : Z) (image : Image.t) (start_y end_y : Z)
  : outcome (list Z) -> Prop :=
| run_with_memory :
    (forall chunk, encodeQoi max_size image start_y end_y = Returns chunk ->
                   Z.of_nat (List.length chunk) <= max_size) ->
    encodeQoi_run max_size image start_y end_y (encodeQoi max_size image start_y end_y)
| run_bad_alloc :
    reserve_request image start_y end_y <= max_size ->
    encodeQoi_run max_size image start_y end_y (Throws bad_alloc)
| run_outgrows :
    reserve_request image start_y end_y <= max_size ->
    max_size < chunk_bound image start_y end_y ->
    encodeQoi_run max_size image start_y end_y (Throws length_error).

(** ** [main]: worker count, row ranges, joining the chunks *)

(** [std::stoul] on a decimal argument, as the C++ standard defines it
    through [strtoul]: white space is skipped, one sign is accepted, the
    longest run of digits is converted; no digit at all throws
    [invalid_argument], a value that does not fit [unsigned long] throws
    [out_of_range], and a minus sign negates in [unsigned long]. *)

Definition isspace (c : ascii) : bool :=
  let n := Z.of_N (N_of_ascii c) in
  ((9 <=? n) && (n <=? 13)) || (n =? 32).

Definition digit_of (c : ascii) : option Z :=
  let n := Z.of_N (N_of_ascii c) in
  if (48 <=? n) && (n <=? 57) then Some (n - 48) else None.

Fixpoint skip_space (s : string) : string :=
  match s with
  | String c s' => if isspace c then skip_space s' else s
  | EmptyString => s
  end.

Fixpoint digits (s : string) (acc : option Z) : option Z :=
  match s with
  | String c s' =>
      match digit_of c with
      | Some d => digits s' (Some (10 * match acc with Some v => v | None => 0 end + d))
      | None => acc
      end
  | EmptyString => acc
  end.

Definition strip_sign (s : string) : bool * string :=
  match s with
  | String c s' =>
      if (c =? "-")%char then (true, s')
      else if (c =? "+")%char then (false, s')
      else (false, s)
  | EmptyString => (false, s)
  end.

Definition stoul (str : string) : outcome Z :=
  let '(negative, s) := strip_sign (skip_space str) in
  match digits s None with
  | None => Throws invalid_argument
  | Some v =>
      if v >? 2 ^ 64 - 1 then Throws out_of_range
      else Returns (if negative then size_t (- v) else v)
  end.

(** [argc > 1 ? std::stoul(argv[1]) : std::thread::hardware_concurrency()],
    stored in an [unsigned int]. [args] is [argv] without the program name. *)
Definition threads_of (hardware_concurrency : Z) (args : list string) : outcome Z :=
  match args with
  | arg :: _ => v <- stoul arg ;; Returns (uint32_t v)
  | [] => Returns (uint32_t hardware_concurrency)
  end.

Definition lines_per_pack (height threads : Z) : Z :=
  Z.max 1 (height / threads).

Definition lines_first_pack (height threads : Z) : Z :=
  size_t (height - size_t (uint32_t (threads - 1) * lines_per_pack height threads)).

(** The loop that starts one task per row range:
    [for (start_y = 0, end_y = lines_first_pack; start_y < height;
          start_y = end_y, end_y += lines_per_pack)]. *)
Fixpoint plan_loop (fuel : nat) (height per_pack start_y end_y : Z)
  : outcome (list (Z * Z)) :=
  if start_y <? height then
    match fuel with
    | O => OutOfFuel
    | S fuel' =>
        rest <- plan_loop fuel' height per_pack end_y (size_t (end_y + per_pack)) ;;
        Returns ((start_y, end_y) :: rest)
    end
  else Returns [].

(** The row ranges of the branch [threads >= 2]. *)
Definition plan (height threads : Z) : outcome (list (Z * Z)) :=
  plan_loop (Z.to_nat height + 1) height (lines_per_pack height threads)
    0 (lines_first_pack height threads).

(** [for (auto&& result : results) std::cout << result.get();]: the first
    task that threw ends the loop, what was written stays written. *)
Fixpoint write_results (results : list (outcome (list Z))) (cout : list Z)
  : list Z * outcome unit :=
  match results with
  | [] => (cout, Returns tt)
  | Returns chunk :: rest => write_results rest (cout ++ chunk)
  | Throws e :: _ => (cout, Throws e)
  | Undefined :: _ => (cout, Undefined)
  | OutOfFuel :: _ => (cout, OutOfFuel)
  end.

(** The body of [main] once the image is read: what reaches [std::cout],
    and how the body ends. *)
Definition encode_image (max_size threads : Z) (image : Image.t)
  : list Z * outcome unit :=
  if threads <? 2 then
    match encodeQoi max_size image 0 (getHeight image) with
    | Returns chunk => (chunk, Returns tt)
    | Throws e => ([], Throws e)
    | Undefined => ([], Undefined)
    | OutOfFuel => ([], OutOfFuel)
    end
  else
    match plan (getHeight image) threads with
    | Returns ranges =>
        write_results
          (map (fun range => encodeQoi max_size image (fst range) (snd range)) ranges) []
    | Throws e => ([], Throws e)
    | Undefined => ([], Undefined)
    | OutOfFuel => ([], OutOfFuel)
    end.

(** [main], for the image that [readPam] returned: the bytes written to
    [std::cout] and the exit status. The handler of the function try block
    turns every exception into status [1]. *)
Definition exit_status (end_of_body : outcome unit) : outcome Z :=
  match end_of_body with
  | Returns _ => Returns 0
  | Throws _ => Returns 1
  | Undefined => Undefined
  | OutOfFuel => OutOfFuel
  end.

Definition main (max_size hardware_concurrency : Z) (args : list string)
  (image : Image.t) : list Z * outcome Z :=
  match threads_of hardware_concurrency args with
  | Returns threads =>
      if to_bool image then
        let '(cout, end_of_body) := encode_image max_size threads image in
        (cout, exit_status end_of_body)
      else ([], exit_status (Throws (runtime_error "Empty input image.")))
  | end_of_body => ([], exit_status (bind end_of_body (fun _ => Returns tt)))
  end.

(** ** Vocabulary of the properties *)

(** The bytes of the end marker. *)
Definition end_marker : list Z := [0; 0; 0; 0; 0; 0; 0; 1].

(** The shape of a chunk: the header when the chunk starts at row 0, the
    bytes of its opcodes, the end marker when the footer test holds. *)
Definition chunk_header (image : Image.t) (start_y : Z) : list Z :=
  if start_y =? 0 then write_header [] image else [].

Definition chunk_footer (image : Image.t) (end_y : Z) : list Z :=
  if footer_due image end_y then end_marker else [].

(** The run counter is below its cap. *)
Definition run_ok (st : State) : Prop := 0 <= run st < 62.

(** What the branches guarantee about the values an opcode packs. *)
Definition op_wf (op : Op) : Prop :=
  match op with
  | OpRun n => 1 <= n <= 61
  | OpIndex hash => 0 <= hash < 64
  | OpDiff vr vg vb => (-2 <= vr <= 1) /\ (-2 <= vg <= 1) /\ (-2 <= vb <= 1)
  | OpLuma vg vg_r vg_b => (-32 <= vg <= 31) /\ (-8 <= vg_r <= 7) /\ (-8 <= vg_b <= 7)
  | OpLongRun | OpRGBA _ | OpRGB _ => True
  end.

(** The ranges the two branches of [main] hand to [encodeQoi]. *)
Definition row_ranges (height threads : Z) : outcome (list (Z * Z)) :=
  if threads <? 2 then Returns [(0, height)] else plan height threads.

(** [chained from ranges to]: the ranges follow one another from [from] to
    [to] without gap or overlap, and none is empty. *)
Fixpoint chained (from : Z) (ranges : list (Z * Z)) (to : Z) : Prop :=
  match ranges with
  | [] => from = to
  | (start_y, end_y) :: rest =>
      start_y = from /\ start_y < end_y /\ chained end_y rest to
  end.

(** The opcodes that stand for [k] repeats of the previous pixel when no
    run is pending before them: a LONG_RUN for every 62, and a RUN for what
    is left. *)
Definition runs_of (k : Z) : list Op :=
  repeat OpLongRun (Z.to_nat (k / 62))
  ++ (if k mod 62 =? 0 then [] else [OpRun (k mod 62)]).

(** ** Images and platform of the examples *)

Definition opaque_red : Pixel := mkPixel 255 0 0 255.
Definition transparent_black : Pixel := mkPixel 0 0 0 0.

(** [n] times the same pixel, in one row and in one column. *)
Definition row_of (pixel : Pixel) (n : nat) : Image.t :=
  Image.mk (Z.of_nat n) 1 (repeat pixel n).

Definition column_of (pixel : Pixel) (n : nat) : Image.t :=
  Image.mk 1 (Z.of_nat n) (repeat pixel n).

(** [std::string::max_size()] of libstdc++ on a 64-bit platform. *)
Definition libstdcxx_max_size : Z := 2 ^ 62 - 1.

(** ** Vocabulary of the further properties *)

(** The bytes that a pending run will take when it is flushed. *)
Definition pending (st : State) : Z := if run st =? 0 then 0 else 1.

(** *** Opcodes replayed

    The program has no decoder. [replay] reads a list of opcodes back into
    pixels, from an index table and a previous pixel; it serves in the
    proofs that the encoder loses nothing, whose statements are about the
    encoder alone. *)

Definition replay_op (index : list (option Pixel)) (previous : Pixel) (op : Op)
  : list Pixel * (list (option Pixel) * Pixel) :=
  let fresh pixel :=
    ([pixel], (index_assign index (Z.to_nat (pixel_hash pixel)) pixel, pixel)) in
  match op with
  | OpLongRun => (repeat previous 62, (index, previous))
  | OpRun n => (repeat previous (Z.to_nat n), (index, previous))
  | OpIndex hash =>
      let pixel := match index_at index hash with Some p => p | None => previous end in
      ([pixel], (index, pixel))
  | OpRGBA pixel => fresh pixel
  | OpDiff vr vg vb =>
      fresh (mkPixel (uint8_t (r previous + vr)) (uint8_t (g previous + vg))
               (uint8_t (b previous + vb)) (a previous))
  | OpLuma vg vg_r vg_b =>
      fresh (mkPixel (uint8_t (r previous + vg + vg_r)) (uint8_t (g previous + vg))
               (uint8_t (b previous + vg + vg_b)) (a previous))
  | OpRGB pixel => fresh (mkPixel (r pixel) (g pixel) (b pixel) (a previous))
  end.

Fixpoint replay (index : list (option Pixel)) (previous : Pixel) (ops : list Op)
  : list Pixel * (list (option Pixel) * Pixel) :=
  match ops with
  | [] => ([], (index, previous))
  | op :: rest =>
      let '(pixels1, (index1, previous1)) := replay_op index previous op in
      let '(pixels2, final) := replay index1 previous1 rest in
      (pixels1 ++ pixels2, final)
  end.

(** What of an opcode reaches the bytes: RGB does not carry the alpha. *)
Definition canonical (op : Op) : Op :=
  match op with
  | OpRGB pixel => OpRGB (mkPixel (r pixel) (g pixel) (b pixel) 0)
  | _ => op
  end.

(** The values an opcode packs fit their fields. *)
Definition op_ok (op : Op) : Prop :=
  op_wf op /\
  match op with
  | OpRGB pixel | OpRGBA pixel => Pixel_ok pixel
  | _ => True
  end.

(** ** [readPam]

    [std::istream] is modelled as far as [readPam] uses it: the characters
    not yet read (as unsigned values) and the state flags [eofbit] and
    [failbit]. An extraction that fails sets [failbit]; the source throws
    at once on such a failure, so the failed extractions below have no
    stream to return. The operations follow the C++ standard's description
    of [get], [unget], [read] and the extractors of [std::string] and
    [std::size_t] in the classic locale. *)

Notation "' pat <- m ;; k" := (bind m (fun x => match x with pat => k end))
  (at level 61, pat pattern, m at next level, right associativity).

Record istream : Type := mkStream { chars : list Z; eofbit : bool; failbit : bool }.

Definition good (s : istream) : bool := negb (eofbit s) && negb (failbit s).

Definition setstate_failbit (s : istream) : istream :=
  mkStream (chars s) (eofbit s) true.

(** [std::cin] at the start of the program. *)
Definition cin_of (input : list Z) : istream := mkStream input false false.

(** [stream.get(c)]: the next character, or [eofbit] and [failbit] at the
    end of the input; on a stream that is not good, [failbit]. *)
Definition get (s : istream) : option Z * istream :=
  if good s then
    match chars s with
    | c :: rest => (Some c, mkStream rest false false)
    | [] => (None, mkStream [] true true)
    end
  else (None, setstate_failbit s).

(** [stream.unget()] after a [get] that gave [c]: [eofbit] is cleared, and
    on a good stream [c] is the next character again. *)
Definition unget (c : Z) (s : istream) : istream :=
  if failbit s then mkStream (chars s) false true
  else mkStream (c :: chars s) false false.

(** The [skip_to_eol] lambda: [get] until a newline was read or [get]
    fails. *)
Fixpoint skip_to_eol_from (cs : list Z) : istream :=
  match cs with
  | [] => mkStream [] true true
  | c :: rest => if c =? 10 then mkStream rest false false else skip_to_eol_from rest
  end.

Definition skip_to_eol (s : istream) : istream :=
  if good s then skip_to_eol_from (chars s) else setstate_failbit s.

(** The [skip_ws] lambda: [get] while the character is a tab, a carriage
    return or a space; the first other character is given back. *)
Definition is_blank (c : Z) : bool := (c =? 9) || (c =? 13) || (c =? 32).

Fixpoint skip_ws_from (cs : list Z) : istream :=
  match cs with
  | [] => mkStream [] true true
  | c :: rest => if is_blank c then skip_ws_from rest else mkStream (c :: rest) false false
  end.

Definition skip_ws (s : istream) : istream :=
  if good s then skip_ws_from (chars s) else setstate_failbit s.

(** White space of the classic locale, skipped by the extractors. *)
Definition is_space (c : Z) : bool := ((9 <=? c) && (c <=? 13)) || (c =? 32).

Fixpoint skip_spaces (cs : list Z) : list Z :=
  match cs with
  | c :: rest => if is_space c then skip_spaces rest else cs
  | [] => []
  end.

Fixpoint take_word (cs : list Z) : list Z * list Z :=
  match cs with
  | c :: rest =>
      if is_space c then ([], cs)
      else let '(word, rest') := take_word rest in (c :: word, rest')
  | [] => ([], [])
  end.

Definition at_end (cs : list Z) : bool :=
  match cs with [] => true | _ => false end.

(** [stream >> token] for a [std::string]: white space is skipped, then
    the characters up to the next white space or the end of the input are
    taken; reaching the end sets [eofbit]. [None] stands for [failbit]. *)
Definition extract_string (s : istream) : option (list Z * istream) :=
  if good s then
    match skip_spaces (chars s) with
    | [] => None
    | cs => let '(word, rest) := take_word cs in
            Some (word, mkStream rest (at_end rest) false)
    end
  else None.

Fixpoint take_digits (cs : list Z) (acc : option Z) : option Z * list Z :=
  match cs with
  | c :: rest =>
      if (48 <=? c) && (c <=? 57) then
        take_digits rest (Some (10 * match acc with Some v => v | None => 0 end + (c - 48)))
      else (acc, cs)
  | [] => (acc, [])
  end.

(** [stream >> out] for a [std::size_t]: white space is skipped, one sign
    is accepted, the digits that follow are converted; no digit or a value
    above [2^64 - 1] sets [failbit], a minus sign negates in
    [std::size_t]. *)
Definition extract_size_t (s : istream) : option (Z * istream) :=
  if good s then
    match skip_spaces (chars s) with
    | [] => None
    | c :: rest =>
        let '(negative, cs) :=
          if c =? 45 then (true, rest)
          else if c =? 43 then (false, rest)
          else (false, c :: rest) in
        match take_digits cs None with
        | (None, _) => None
        | (Some v, rest') =>
            if v >? 2 ^ 64 - 1 then None
            else Some (if negative then size_t (- v) else v,
                       mkStream rest' (at_end rest') false)
        end
    end
  else None.

(** [stream.read(buffer, n)] for [0 <= n]: all [n] characters, or
    [failbit]. *)
Definition read (s : istream) (n : Z) : option (list Z * istream) :=
  if good s && (n <=? Z.of_nat (List.length (chars s))) then
    Some (firstn (Z.to_nat n) (chars s),
          mkStream (skipn (Z.to_nat n) (chars s)) false false)
  else None.

(** The local variables the header fills; [None] is a variable that was
    never assigned. [tuple_type] is a [std::string] and starts empty. *)
Record Header : Type := mkHeader {
  width : option Z;
  height : option Z;
  depth : option Z;
  max_value : option Z;
  tuple_type : list Z
}.

Definition Header_initial : Header := mkHeader None None None None [].

(** The characters of a string literal. *)
Fixpoint literal (s : string) : list Z :=
  match s with
  | String c s' => Z.of_N (N_of_ascii c) :: literal s'
  | EmptyString => []
  end.

(** [std::string::operator ==]. *)
Fixpoint string_eqb (s1 s2 : list Z) : bool :=
  match s1, s2 with
  | [], [] => true
  | c1 :: r1, c2 :: r2 => (c1 =? c2) && string_eqb r1 r2
  | _, _ => false
  end.

Definition not_pam : exception :=
  runtime_error "Image is not a portable arbitrary map.".
Definition malformed : exception := runtime_error "Malformed PAM image header.".
Definition unsupported : exception := runtime_error "Unsupported PAM format.".
Definition corrupt : exception := runtime_error "Corrupt PAM image body.".

(** The [assign] lambda, for a [std::size_t] and for a [std::string]. *)
Definition assign_size_t (s : istream) : outcome (Z * istream) :=
  match extract_size_t (skip_ws s) with
  | Some (out, s1) => Returns (out, skip_to_eol s1)
  | None => Throws malformed
  end.

Definition assign_string (s : istream) : outcome (list Z * istream) :=
  match extract_string (skip_ws s) with
  | Some (out, s1) => Returns (out, skip_to_eol s1)
  | None => Throws malformed
  end.

(** The header loop [while (stream.get(c))]; the result holds [endhdr]. *)
Fixpoint header_loop (fuel : nat) (h : Header) (s : istream)
  : outcome (bool * Header * istream) :=
  match fuel with
  | O => OutOfFuel
  | S fuel' =>
      match get s with
      | (None, s1) => Returns (false, h, s1)
      | (Some c, s1) =>
          if c =? 35 then header_loop fuel' h (skip_to_eol s1)
          else
            match extract_string (skip_ws (unget c s1)) with
            | None => Throws malformed
            | Some (token, s2) =>
                if string_eqb token (literal "WIDTH") then
                  '(out, s3) <- assign_size_t s2 ;;
                  header_loop fuel'
                    (mkHeader (Some out) (height h) (depth h) (max_value h) (tuple_type h)) s3
                else if string_eqb token (literal "HEIGHT") then
                  '(out, s3) <- assign_size_t s2 ;;
                  header_loop fuel'
                    (mkHeader (width h) (Some out) (depth h) (max_value h) (tuple_type h)) s3
                else if string_eqb token (literal "DEPTH") then
                  '(out, s3) <- assign_size_t s2 ;;
                  header_loop fuel'
                    (mkHeader (width h) (height h) (Some out) (max_value h) (tuple_type h)) s3
                else if string_eqb token (literal "MAXVAL") then
                  '(out, s3) <- assign_size_t s2 ;;
                  header_loop fuel'
                    (mkHeader (width h) (height h) (depth h) (Some out) (tuple_type h)) s3
                else if string_eqb token (literal "TUPLTYPE") then
                  '(out, s3) <- assign_string s2 ;;
                  header_loop fuel'
                    (mkHeader (width h) (height h) (depth h) (max_value h) out) s3
                else if string_eqb token (literal "ENDHDR") then
                  Returns (true, h, skip_to_eol s2)
                else header_loop fuel' h (skip_to_eol s2)
            end
      end
  end.

(** Every turn of the loop reads a character, so one turn per character
    and one more are enough. *)
Definition read_header (s : istream) : outcome (bool * Header * istream) :=
  header_loop (S (List.length (chars s))) Header_initial s.

(** The [switch (p)] that stores a channel. *)
Definition set_channel (pixel : Pixel) (p : Z) (value : Z) : Pixel :=
  if p =? 0 then mkPixel value (g pixel) (b pixel) (a pixel)
  else if p =? 1 then mkPixel (r pixel) value (b pixel) (a pixel)
  else if p =? 2 then mkPixel (r pixel) (g pixel) value (a pixel)
  else if p =? 3 then mkPixel (r pixel) (g pixel) (b pixel) value
  else pixel.

(** [for (p = 0; p < depth; ++p, ++index)], reading [line_buffer[index]]
    as a [std::uint8_t]. *)
Fixpoint read_channels (line_buffer : list Z) (ps : list Z) (index : Z) (pixel : Pixel)
  : outcome (Pixel * Z) :=
  match ps with
  | [] => Returns (pixel, index)
  | p :: ps' =>
      match nth_error line_buffer (Z.to_nat index) with
      | Some c => read_channels line_buffer ps' (index + 1) (set_channel pixel p (uint8_t c))
      | None => Undefined
      end
  end.

(** [for (x = 0; x < width; ++x)] of one row. *)
Fixpoint read_row (line_buffer : list Z) (depth : Z) (y : Z) (xs : list Z) (index : Z)
  (res : Image.t) : outcome Image.t :=
  match xs with
  | [] => Returns res
  | x :: xs' =>
      '(pixel, index1) <-
        read_channels line_buffer (counting 0 (Z.to_nat depth)) index Pixel_default ;;
      res1 <- setPixel res x y pixel ;;
      read_row line_buffer depth y xs' index1 res1
  end.

(** [for (y = 0; y < height; ++y)]. *)
Fixpoint read_rows (count depth width : Z) (ys : list Z) (s : istream) (res : Image.t)
  : outcome Image.t :=
  match ys with
  | [] => Returns res
  | y :: ys' =>
      match read s count with
      | None => Throws corrupt
      | Some (line_buffer, s1) =>
          res1 <- read_row line_buffer depth y (counting 0 (Z.to_nat width)) 0 res ;;
          read_rows count depth width ys' s1 res1
      end
  end.

(** What follows the header loop: the format test, then the body.
    [max_chars] is the [max_size()] of a [std::vector<char>], whose
    constructor throws [length_error] for a longer line buffer. The two
    vectors are taken to get their memory here; [read_body_run] adds the
    failure of their allocation. *)
Definition read_body (max_pixels max_chars : Z) (h : Header) (s : istream)
  : outcome Image.t :=
  match max_value h with
  | None => Undefined
  | Some max_value =>
      if negb (max_value =? 255) then Throws unsupported
      else
        match depth h with
        | None => Undefined
        | Some depth =>
            if (negb (depth =? 3) || negb (string_eqb (tuple_type h) (literal "RGB")))
               && (negb (depth =? 4)
                   || negb (string_eqb (tuple_type h) (literal "RGB_ALPHA")))
            then Throws unsupported
            else
              match width h, height h with
              | Some width, Some height =>
                  res <- clearAndInitialize max_pixels width height ;;
                  let count := size_t (depth * width) in
                  if max_chars <? count then Throws length_error
                  else read_rows count depth width (counting 0 (Z.to_nat height)) s res
              | _, _ => Undefined
              end
        end
  end.

Definition readPam (max_pixels max_chars : Z) (stream : istream) : outcome Image.t :=
  match get stream with
  | (Some 80, s1) =>
      match get s1 with
      | (Some 55, s2) =>
          match get s2 with
          | (Some 10, s3) =>
              '(endhdr, h, s4) <- read_header s3 ;;
              if negb endhdr then Throws malformed else read_body max_pixels max_chars h s4
          | _ => Throws not_pam
          end
      | _ => Throws not_pam
      end
  | _ => Throws not_pam
  end.

(** The whole program: the worker count, [readPam(std::cin)], then the
    rest of [main]. *)
Definition pam2qoi (max_size max_pixels max_chars hardware_concurrency : Z)
  (args : list string) (input : list Z) : list Z * outcome Z :=
  match threads_of hardware_concurrency args with
  | Returns _ =>
      match readPam max_pixels max_chars (cin_of input) with
      | Returns image => main max_size hardware_concurrency args image
      | failure => ([], exit_status (bind failure (fun _ => Returns tt)))
      end
  | failure => ([], exit_status (bind failure (fun _ => Returns tt)))
  end.

(** *** Vocabulary of the properties of [readPam] *)

(** The first stream has no more characters left than the second. *)
Definition shorter (s1 s2 : istream) : Prop :=
  (List.length (chars s1) <= List.length (chars s2))%nat.

(** [part] occurs in [whole], as consecutive characters. *)
Definition occurs_in (part whole : list Z) : Prop :=
  exists before after, whole = before ++ part ++ after.

(** [tail] is what is left of [whole] after some characters. *)
Definition rest_of (tail whole : list Z) : Prop :=
  exists before, whole = before ++ tail.

(** The pixel that [depth] characters of a buffer, from [index] on, stand
    for. *)
Definition channels_at (buffer : list Z) (index depth : Z) : Pixel :=
  let channel i := uint8_t (nth (Z.to_nat (index + i)) buffer 0) in
  mkPixel (channel 0) (channel 1) (channel 2)
    (if depth =? 4 then channel 3 else 255).

(** The value of a string of decimal digits. *)
Definition number (digits : list Z) : Z :=
  fold_left (fun acc c => 10 * acc + (c - 48)) digits 0.

Definition is_digit (c : Z) : bool := (48 <=? c) && (c <=? 57).

(** The first three characters of a PAM file: [P7] and a newline. *)
Definition pam_magic : list Z := [80; 55; 10].

(** *** Platform and inputs of the examples *)

(** [max_size()] of the two vectors with libstdc++ on a 64-bit platform. *)
Definition libstdcxx_max_pixels : Z := 2 ^ 61 - 1.
Definition libstdcxx_max_chars : Z := 2 ^ 63 - 1.

(** The variables after a header for RGB pixels. *)
Definition rgb_header (w hh : Z) : Header :=
  mkHeader (Some w) (Some hh) (Some 3) (Some 255) (literal "RGB").

(** What a run of the header loop shows of a number, from its old to its
    new value over the characters [cs]: it was left alone, or its keyword
    occurs in [cs] and the number is a [std::size_t]. *)
Definition number_from (old new : option Z) (keyword : string) (cs : list Z) : Prop :=
  new = old
  \/ occurs_in (literal keyword) cs /\ exists v, new = Some v /\ is_size_t v.

Definition header_from (h h1 : Header) (cs : list Z) : Prop :=
  number_from (width h) (width h1) "WIDTH" cs
  /\ number_from (height h) (height h1) "HEIGHT" cs
  /\ number_from (depth h) (depth h1) "DEPTH" cs
  /\ number_from (max_value h) (max_value h1) "MAXVAL" cs
  /\ (tuple_type h1 = tuple_type h \/ occurs_in (literal "TUPLTYPE") cs).

(** The exceptions that [readPam] throws when every allocation succeeds. *)
Definition readPam_throws (e : exception) : Prop :=
  e = not_pam \/ e = malformed \/ e = unsupported \/ e = corrupt \/ e = length_error.


(** A file as Netpbm writes it, the width and the height given by their
    decimal digits. *)
Definition pam_file (alpha : bool) (width_digits height_digits body : list Z) : list Z :=
  pam_magic
  ++ literal "WIDTH " ++ width_digits ++ [10]
  ++ literal "HEIGHT " ++ height_digits ++ [10]
  ++ literal (if alpha then "DEPTH 4" else "DEPTH 3") ++ [10]
  ++ literal "MAXVAL 255" ++ [10]
  ++ literal (if alpha then "TUPLTYPE RGB_ALPHA" else "TUPLTYPE RGB") ++ [10]
  ++ literal "ENDHDR" ++ [10]
  ++ body.

(** Two pixels in a row, red and green. *)
Definition sample_pam : list Z :=
  pam_file false (literal "2") (literal "1") [255; 0; 0; 0; 255; 0].

Definition sample_image : Image.t :=
  Image.mk 2 1 [mkPixel 255 0 0 255; mkPixel 0 255 0 255].

(** *** Runs of [readPam] with failed allocations

    [read_body] and [readPam] are the runs in which every allocation
    succeeds. Behind the magic number [readPam] allocates: the strings of
    the tokens and, once the format test is passed, the pixels in
    [clearAndInitialize] and the line buffer, with sizes taken from the
    header. A failed allocation throws [std::bad_alloc], which leaves
    [readPam]. The relations hold of every outcome a call can have. *)

Inductive read_body_run (max_pixels max_chars : Z) (h : Header) (s : istream)
  : outcome Image.t -> Prop :=
| body_with_memory :
    read_body_run max_pixels max_chars h s (read_body max_pixels max_chars h s)
| body_bad_alloc :
    read_body max_pixels max_chars h s <> Throws unsupported ->
    read_body_run max_pixels max_chars h s (Throws bad_alloc).

Inductive readPam_run (max_pixels max_chars : Z) (input : list Z)
  : outcome Image.t -> Prop :=
| read_with_memory :
    readPam_run max_pixels max_chars input (readPam max_pixels max_chars (cin_of input))
| read_bad_alloc :
    firstn 3 input = pam_magic ->
    readPam_run max_pixels max_chars input (Throws bad_alloc).

(** * Properties *)

(** ** Pixels *)

Lemma Pixel_eqb_eq : forall p q, Pixel_eqb p q = true <-> p = q.
Proof.
  intros [r1 g1 b1 a1] [r2 g2 b2 a2]; unfold Pixel_eqb; simpl.
  rewrite !andb_true_iff, !Z.eqb_eq. split.
  - intros [[[-> ->] ->] ->]. reflexivity.
  - intros E. injection E as -> -> -> ->. auto.
Qed.

Lemma Pixel_eqb_refl : forall p, Pixel_eqb p p = true.
Proof. intros p. apply Pixel_eqb_eq. reflexivity. Qed.

Lemma Pixel_eqb_neq : forall p q, Pixel_eqb p q = false <-> p <> q.
Proof.
  intros p q. rewrite <- Pixel_eqb_eq. destruct (Pixel_eqb p q); split; congruence.
Qed.

(** ** Bytes and opcodes *)

Lemma write_end_marker_app : forall res, write_end_marker res = res ++ end_marker.
Proof.
  intros res0. unfold write_end_marker, push_back, end_marker. simpl.
  repeat rewrite <- app_assoc. reflexivity.
Qed.

Ltac split_ifs :=
  repeat match goal with
         | |- context [if ?c then _ else _] => destruct c eqn:?
         end.

Lemma encode_pixel_res : forall st pixel,
  res (encode_pixel st pixel) = res st ++ ops_bytes (emitted st pixel).
Proof.
  intros st pixel.
  unfold encode_pixel, emitted, pixel_op, flush_run, flushed, ops_bytes, push_back.
  destruct (Pixel_eqb pixel (previous_pixel st)).
  - destruct (uint8_t (run st + 1) =? 62); cbn [res flat_map op_bytes app];
      now rewrite ?app_nil_r.
  - destruct (run st =? 0); cbn [res index previous_pixel run];
      split_ifs; cbn [res flat_map op_bytes app];
      repeat rewrite <- app_assoc; reflexivity.
Qed.

Lemma fold_encode_pixel_res : forall pixels st,
  res (fold_left encode_pixel pixels st) = res st ++ ops_bytes (trace st pixels).
Proof.
  induction pixels as [|pixel rest IH]; intros st; simpl.
  - now rewrite app_nil_r.
  - rewrite IH, encode_pixel_res. unfold ops_bytes.
    rewrite flat_map_app, app_assoc. reflexivity.
Qed.

Lemma final_run_flushed : forall st,
  final_run st = res st ++ ops_bytes (flushed st).
Proof.
  intros st. unfold final_run, flushed, push_back.
  destruct (run st =? 0); simpl; now rewrite ?app_nil_r.
Qed.

(** ** Reading a valid image never leaves its storage *)

Lemma counting_In : forall from count i,
  In i (counting from count) <-> from <= i < from + Z.of_nat count.
Proof.
  intros from count i. unfold counting. rewrite in_map_iff. split.
  - intros [k [<- Hk]]. apply in_seq in Hk. lia.
  - intros Hi. exists (Z.to_nat (i - from)). split; [lia|].
    apply in_seq. lia.
Qed.

Lemma getPixel_valid : forall image x y,
  valid image -> 0 <= x < getWidth image -> 0 <= y < getHeight image ->
  getPixel image x y = Returns (pixel_at image y x).
Proof.
  intros image x y (Hw & Hh & Hlen & Hsz & _) Hx Hy.
  unfold getPixel, pixel_at, getWidth, getHeight in *.
  assert (Hlt : 0 <= width_ image * y + x < width_ image * height_ image) by nia.
  replace (x <? width_ image) with true by (symmetry; apply Z.ltb_lt; lia).
  replace (y <? height_ image) with true by (symmetry; apply Z.ltb_lt; lia).
  cbn [andb]. unfold size_t, is_size_t in *.
  rewrite Z.mod_small by lia.
  destruct (nth_error (pixels_ image) (Z.to_nat (width_ image * y + x))) eqn:E.
  - now rewrite (nth_error_nth _ _ _ E).
  - apply nth_error_None in E. lia.
Qed.

Lemma getPixel_outside : forall image x y,
  ~ (x < getWidth image /\ y < getHeight image) ->
  getPixel image x y = Returns (mkPixel 0 0 0 255).
Proof.
  intros image x y Hout. unfold getPixel, getWidth, getHeight in *.
  destruct (x <? width_ image) eqn:Ex; destruct (y <? height_ image) eqn:Ey;
    cbn [andb]; try reflexivity.
  apply Z.ltb_lt in Ex, Ey. tauto.
Qed.

Lemma encode_row_valid : forall image y xs st,
  valid image -> 0 <= y < getHeight image ->
  (forall x, In x xs -> 0 <= x < getWidth image) ->
  encode_row image y xs st
  = Returns (fold_left encode_pixel (map (pixel_at image y) xs) st).
Proof.
  intros image y xs st Hv Hy. revert st.
  induction xs as [|x xs IH]; intros st Hxs; simpl; [reflexivity|].
  rewrite (getPixel_valid image x y Hv) by (auto using in_eq).
  simpl. apply IH. intros x' Hx'. apply Hxs. now right.
Qed.

Lemma columns_In : forall image x,
  In x (columns image) -> 0 <= x < getWidth image.
Proof.
  intros image x Hx. unfold columns in Hx. apply counting_In in Hx. lia.
Qed.

Lemma encode_rows_valid : forall image ys st,
  valid image -> (forall y, In y ys -> 0 <= y < getHeight image) ->
  encode_rows image ys st
  = Returns (fold_left encode_pixel
               (flat_map (fun y => map (pixel_at image y) (columns image)) ys) st).
Proof.
  intros image ys st Hv. revert st.
  induction ys as [|y ys IH]; intros st Hys; simpl; [reflexivity|].
  rewrite (encode_row_valid image y (columns image) st Hv)
    by (auto using in_eq, columns_In).
  simpl. rewrite fold_left_app. apply IH. intros y' Hy'. apply Hys. now right.
Qed.

Lemma rows_In : forall image start_y end_y y,
  0 <= start_y -> In y (rows image start_y end_y) -> 0 <= y < getHeight image.
Proof.
  intros image start_y end_y y Hs Hy. unfold rows in Hy.
  apply counting_In in Hy. lia.
Qed.

Lemma encode_body_valid : forall image start_y end_y,
  valid image -> 0 <= start_y ->
  encode_body image start_y end_y
  = Returns (fold_left encode_pixel (chunk_pixels image start_y end_y)
               (initial_state image start_y)).
Proof.
  intros image start_y end_y Hv Hs. unfold encode_body, chunk_pixels.
  apply encode_rows_valid; [assumption|].
  intros y Hy. eapply rows_In; eassumption.
Qed.

Lemma encodeQoi_shape : forall max_size image start_y end_y,
  valid image -> 0 <= start_y ->
  reserve_request image start_y end_y <= max_size ->
  encodeQoi max_size image start_y end_y
  = Returns (chunk_header image start_y
             ++ ops_bytes (chunk_ops image start_y end_y)
             ++ chunk_footer image end_y).
Proof.
  intros max_size image start_y end_y Hv Hs Hfit.
  unfold encodeQoi, reserve.
  replace (max_size <? reserve_request image start_y end_y) with false
    by (symmetry; apply Z.ltb_ge; lia).
  cbn [bind]. rewrite encode_body_valid by assumption. cbn [bind].
  rewrite final_run_flushed, fold_encode_pixel_res.
  unfold chunk_ops, chunk_footer, chunk_header, ops_bytes.
  rewrite flat_map_app.
  assert (Hres : res (initial_state image start_y)
                 = if start_y =? 0 then write_header [] image else [])
    by reflexivity.
  rewrite Hres.
  destruct (footer_due image end_y).
  - rewrite write_end_marker_app. now rewrite <- !app_assoc.
  - now rewrite app_nil_r, <- !app_assoc.
Qed.

(** ** The run counter stays below 62 *)

Lemma initial_state_run_ok : forall image start_y,
  run_ok (initial_state image start_y).
Proof. intros. unfold run_ok, initial_state. simpl. lia. Qed.

Lemma flush_run_fields : forall st,
  index (flush_run st) = index st /\
  previous_pixel (flush_run st) = previous_pixel st /\
  run (flush_run st) = 0.
Proof.
  intros st. unfold flush_run. destruct (run st =? 0) eqn:E; simpl; auto.
  apply Z.eqb_eq in E. auto.
Qed.

Lemma encode_pixel_run_ok : forall st pixel,
  run_ok st -> run_ok (encode_pixel st pixel).
Proof.
  intros st pixel Hrun. unfold run_ok in *. unfold encode_pixel.
  destruct (Pixel_eqb pixel (previous_pixel st)).
  - unfold uint8_t. rewrite Z.mod_small by lia.
    destruct (run st + 1 =? 62) eqn:E; simpl; [lia|].
    apply Z.eqb_neq in E. lia.
  - destruct (flush_run_fields st) as (_ & _ & Hr).
    split_ifs; cbn [run]; rewrite Hr; lia.
Qed.

Lemma fold_encode_pixel_run_ok : forall pixels st,
  run_ok st -> run_ok (fold_left encode_pixel pixels st).
Proof.
  induction pixels as [|pixel rest IH]; intros st Hrun; simpl; auto.
  apply IH. now apply encode_pixel_run_ok.
Qed.

Lemma is_within_spec : forall value low high,
  is_within value low high = true <-> low <= value <= high.
Proof.
  intros. unfold is_within. rewrite andb_true_iff, !Z.leb_le. tauto.
Qed.

Lemma pixel_hash_range : forall pixel, 0 <= pixel_hash pixel < 64.
Proof.
  intros pixel. unfold pixel_hash, uint8_t.
  set (s := r pixel * 3 + g pixel * 5 + b pixel * 7 + a pixel * 11).
  pose proof (Z.mod_pos_bound s 64 ltac:(lia)).
  rewrite Z.mod_small; lia.
Qed.

Lemma pixel_op_wf : forall st pixel, op_wf (pixel_op st pixel).
Proof.
  intros st pixel. unfold pixel_op.
  destruct (holds _ _); [apply pixel_hash_range|].
  destruct (negb _); [exact I|].
  destruct (is_within _ (-2) 1 && is_within _ (-2) 1 && is_within _ (-2) 1) eqn:Ed.
  - rewrite !andb_true_iff, !is_within_spec in Ed. simpl. tauto.
  - destruct (is_within _ (-8) 7 && is_within _ (-32) 31 && is_within _ (-8) 7) eqn:El;
      [|exact I].
    rewrite !andb_true_iff, !is_within_spec in El. simpl. tauto.
Qed.

Lemma pixel_op_not_run : forall st pixel, is_run_op (pixel_op st pixel) = false.
Proof.
  intros st pixel. unfold pixel_op. split_ifs; reflexivity.
Qed.

Lemma flushed_wf : forall st, run_ok st -> Forall op_wf (flushed st).
Proof.
  intros st Hrun. unfold flushed, run_ok in *.
  destruct (run st =? 0) eqn:E; constructor; [|constructor].
  apply Z.eqb_neq in E. simpl. lia.
Qed.

Lemma emitted_wf : forall st pixel, run_ok st -> Forall op_wf (emitted st pixel).
Proof.
  intros st pixel Hrun. unfold emitted.
  destruct (Pixel_eqb _ _).
  - destruct (_ =? 62); repeat constructor.
  - apply Forall_app. split; [now apply flushed_wf|].
    constructor; [apply pixel_op_wf | constructor].
Qed.

Lemma trace_wf : forall pixels st, run_ok st -> Forall op_wf (trace st pixels).
Proof.
  induction pixels as [|pixel rest IH]; intros st Hrun; simpl; [constructor|].
  apply Forall_app. split; [now apply emitted_wf|].
  apply IH. now apply encode_pixel_run_ok.
Qed.

Lemma chunk_ops_wf : forall image start_y end_y,
  Forall op_wf (chunk_ops image start_y end_y).
Proof.
  intros. unfold chunk_ops. apply Forall_app. split.
  - apply trace_wf, initial_state_run_ok.
  - apply flushed_wf, fold_encode_pixel_run_ok, initial_state_run_ok.
Qed.

(** ** The first byte of every opcode *)

Lemma forallb_counting : forall (f : Z -> bool) from count,
  forallb f (counting from count) = true ->
  forall i, from <= i < from + Z.of_nat count -> f i = true.
Proof.
  intros f from count Hall i Hi.
  rewrite forallb_forall in Hall. apply Hall. now apply counting_In.
Qed.

Lemma run_tag : forall n,
  1 <= n <= 61 -> op_tag (OpRun n) = 0xC0 + (n - 1).
Proof.
  intros n Hn.
  apply Z.eqb_eq.
  apply (forallb_counting (fun n => op_tag (OpRun n) =? 0xC0 + (n - 1)) 1 61);
    [vm_compute; reflexivity | simpl; lia].
Qed.

Lemma index_tag : forall hash,
  0 <= hash < 64 -> op_tag (OpIndex hash) = hash.
Proof.
  intros hash Hh.
  apply Z.eqb_eq.
  apply (forallb_counting (fun h => op_tag (OpIndex h) =? h) 0 64);
    [vm_compute; reflexivity | simpl; lia].
Qed.

Lemma diff_tag : forall vr vg vb,
  -2 <= vr <= 1 -> -2 <= vg <= 1 -> -2 <= vb <= 1 ->
  op_tag (OpDiff vr vg vb) = 0x40 + 16 * (vr + 2) + 4 * (vg + 2) + (vb + 2).
Proof.
  intros vr vg vb Hr Hg Hb.
  pose (ok := fun vr vg vb =>
    op_tag (OpDiff vr vg vb) =? 0x40 + 16 * (vr + 2) + 4 * (vg + 2) + (vb + 2)).
  assert (Hall : forallb (fun vr => forallb (fun vg => forallb (ok vr vg)
                   (counting (-2) 4)) (counting (-2) 4)) (counting (-2) 4) = true)
    by (vm_compute; reflexivity).
  apply Z.eqb_eq. change (ok vr vg vb = true).
  pose proof (forallb_counting _ _ _ Hall vr ltac:(simpl; lia)) as H1.
  pose proof (forallb_counting _ _ _ H1 vg ltac:(simpl; lia)) as H2.
  exact (forallb_counting _ _ _ H2 vb ltac:(simpl; lia)).
Qed.

Lemma luma_tag : forall vg vg_r vg_b,
  -32 <= vg <= 31 -> op_tag (OpLuma vg vg_r vg_b) = 0x80 + (vg + 32).
Proof.
  intros vg vg_r vg_b Hg.
  apply Z.eqb_eq.
  apply (forallb_counting (fun vg => op_tag (OpLuma vg vg_r vg_b) =? 0x80 + (vg + 32))
           (-32) 64); [vm_compute; reflexivity | simpl; lia].
Qed.

(** The class of an opcode can be read off its first byte. *)
Lemma op_tag_class : forall op,
  op_wf op ->
  match op with
  | OpIndex _ => 0x00 <= op_tag op <= 0x3F
  | OpDiff _ _ _ => 0x40 <= op_tag op <= 0x7F
  | OpLuma _ _ _ => 0x80 <= op_tag op <= 0xBF
  | OpRun _ => 0xC0 <= op_tag op <= 0xFC
  | OpLongRun => op_tag op = 0xFD
  | OpRGB _ => op_tag op = 0xFE
  | OpRGBA _ => op_tag op = 0xFF
  end.
Proof.
  intros [ |n|hash|pixel|vr vg vb|vg vg_r vg_b|pixel] Hwf; simpl in Hwf;
    try reflexivity.
  - rewrite run_tag by assumption. lia.
  - rewrite index_tag by assumption. lia.
  - destruct Hwf as (Hr & Hg & Hb). rewrite diff_tag by assumption. lia.
  - destruct Hwf as (Hg & _). rewrite luma_tag by assumption. lia.
Qed.

(** ** A pixel repeated: only the run counter moves *)

Lemma emitted_repeat : forall st,
  run_ok st ->
  emitted st (previous_pixel st) = if run st + 1 =? 62 then [OpLongRun] else [].
Proof.
  intros st Hrun. unfold emitted, run_ok, uint8_t in *.
  rewrite Pixel_eqb_refl, Z.mod_small by lia. reflexivity.
Qed.

Lemma encode_pixel_repeat : forall st,
  run_ok st ->
  previous_pixel (encode_pixel st (previous_pixel st)) = previous_pixel st /\
  index (encode_pixel st (previous_pixel st)) = index st /\
  run (encode_pixel st (previous_pixel st)) = if run st + 1 =? 62 then 0 else run st + 1.
Proof.
  intros st Hrun. unfold encode_pixel, run_ok, uint8_t in *.
  rewrite Pixel_eqb_refl, Z.mod_small by lia.
  destruct (run st + 1 =? 62); simpl; auto.
Qed.

Lemma repeated_pixel : forall n st,
  run_ok st ->
  let pixels := repeat (previous_pixel st) n in
  trace st pixels = repeat OpLongRun (Z.to_nat ((run st + Z.of_nat n) / 62)) /\
  run (fold_left encode_pixel pixels st) = (run st + Z.of_nat n) mod 62 /\
  previous_pixel (fold_left encode_pixel pixels st) = previous_pixel st.
Proof.
  induction n as [|n IH]; intros st Hrun; cbv zeta.
  - unfold run_ok in Hrun. cbn [repeat trace fold_left Z.of_nat].
    rewrite Z.add_0_r, Z.div_small, Z.mod_small by lia. auto.
  - cbn [repeat trace fold_left].
    destruct (encode_pixel_repeat st Hrun) as (Hp & _ & Hr).
    pose proof (encode_pixel_run_ok st (previous_pixel st) Hrun) as Hrun1.
    specialize (IH (encode_pixel st (previous_pixel st)) Hrun1). cbv zeta in IH.
    rewrite Hp in IH. destruct IH as (IHt & IHr & IHp).
    rewrite IHt, IHr, IHp, Hr, (emitted_repeat st Hrun).
    unfold run_ok in Hrun.
    destruct (run st + 1 =? 62) eqn:E.
    + apply Z.eqb_eq in E.
      replace (run st + Z.of_nat (S n)) with (0 + Z.of_nat n + 1 * 62) by lia.
      rewrite Z.div_add, Z.mod_add by lia.
      rewrite Z2Nat.inj_add by (try apply Z.div_pos; lia).
      rewrite Nat.add_comm. auto.
    + replace (run st + Z.of_nat (S n)) with (run st + 1 + Z.of_nat n) by lia.
      auto.
Qed.

(** A pixel that differs from the previous one: the pending run is flushed,
    one opcode is chosen, and the pixel becomes the previous one. *)
Lemma encode_pixel_fresh : forall st pixel,
  pixel <> previous_pixel st ->
  emitted st pixel = flushed st ++ [pixel_op st pixel] /\
  previous_pixel (encode_pixel st pixel) = pixel /\
  run (encode_pixel st pixel) = 0.
Proof.
  intros st pixel Hne. apply Pixel_eqb_neq in Hne.
  unfold emitted, encode_pixel. rewrite Hne.
  destruct (flush_run_fields st) as (_ & _ & Hr).
  split; [reflexivity|].
  split_ifs; cbn [previous_pixel run]; auto.
Qed.

(** ** The row ranges *)

Lemma plan_loop_chained : forall k fuel height per_pack start_y end_y,
  1 <= per_pack -> 0 <= start_y < end_y ->
  end_y + Z.of_nat k * per_pack = height -> height < 2 ^ 64 ->
  (k < fuel)%nat ->
  exists ranges,
    plan_loop fuel height per_pack start_y end_y = Returns ranges /\
    chained start_y ranges height /\ List.length ranges = S k.
Proof.
  induction k as [|k IH]; intros fuel height per_pack start_y end_y Hpp Hse Hsum Hh Hfuel.
  - destruct fuel as [|fuel]; [lia|]. cbn [plan_loop].
    replace (start_y <? height) with true by (symmetry; apply Z.ltb_lt; lia).
    assert (Hstop : plan_loop fuel height per_pack end_y (size_t (end_y + per_pack))
                    = Returns []).
    { destruct fuel; cbn [plan_loop];
        replace (end_y <? height) with false by (symmetry; apply Z.ltb_ge; lia);
        reflexivity. }
    rewrite Hstop. cbn [bind]. eexists. split; [reflexivity|].
    simpl. repeat split; lia.
  - destruct fuel as [|fuel]; [lia|]. cbn [plan_loop].
    replace (start_y <? height) with true by (symmetry; apply Z.ltb_lt; nia).
    assert (Hnext : size_t (end_y + per_pack) = end_y + per_pack)
      by (unfold size_t; apply Z.mod_small; nia).
    rewrite Hnext.
    destruct (IH fuel height per_pack end_y (end_y + per_pack))
      as (ranges & Hplan & Hch & Hlen); try lia.
    rewrite Hplan. cbn [bind]. eexists. split; [reflexivity|].
    simpl. repeat split; try lia. assumption.
Qed.

(** When there are at least as many rows as workers, the ranges are as
    many as the workers and chained from row 0 to the last row. *)
Lemma plan_chained : forall height threads,
  2 <= threads < 2 ^ 32 -> threads <= height < 2 ^ 64 ->
  exists ranges,
    plan height threads = Returns ranges /\ chained 0 ranges height /\
    Z.of_nat (List.length ranges) = threads.
Proof.
  intros height threads Ht Hh. unfold plan, lines_first_pack, lines_per_pack.
  assert (Hq : 1 <= height / threads) by (apply Z.div_le_lower_bound; lia).
  assert (Hmul : threads * (height / threads) <= height)
    by (apply Z.mul_div_le; lia).
  rewrite Z.max_r by lia.
  unfold uint32_t. rewrite (Z.mod_small (threads - 1)) by lia.
  unfold size_t.
  rewrite (Z.mod_small ((threads - 1) * (height / threads))) by nia.
  rewrite Z.mod_small by nia.
  destruct (plan_loop_chained (Z.to_nat (threads - 1)) (Z.to_nat height + 1) height
              (height / threads) 0 (height - (threads - 1) * (height / threads)))
    as (ranges & Hplan & Hch & Hlen); try nia.
  exists ranges. repeat split; try assumption. lia.
Qed.

(** With one worker more than rows, the first range is empty. *)
Lemma plan_first_range_empty : forall height threads,
  1 <= height -> threads = height + 1 -> threads < 2 ^ 32 ->
  exists rest,
    plan height threads = Returns ((0, 0) :: rest) /\ chained 0 rest height.
Proof.
  intros height threads Hh -> Ht.
  unfold plan, lines_first_pack, lines_per_pack.
  rewrite Z.div_small by lia. rewrite Z.max_l by lia.
  unfold uint32_t. rewrite (Z.mod_small (height + 1 - 1)) by lia.
  rewrite Z.mul_1_r. unfold size_t at 2. rewrite (Z.mod_small (height + 1 - 1)) by lia.
  replace (height - (height + 1 - 1)) with 0 by lia.
  replace (Z.to_nat height + 1)%nat with (S (Z.to_nat height)) by lia.
  cbn [plan_loop].
  replace (0 <? height) with true by (symmetry; apply Z.ltb_lt; lia).
  change (size_t 0) with 0. change (size_t (0 + 1)) with 1.
  destruct (plan_loop_chained (Z.to_nat (height - 1)) (Z.to_nat height) height 1 0 1)
    as (ranges & Hplan & Hch & _); try lia.
  rewrite Hplan. exists ranges. split; [reflexivity | exact Hch].
Qed.

(** With at least two workers more than rows, the length of the first
    range wraps around, and the range ends far behind the last row. *)
Lemma plan_first_range_wraps : forall height threads,
  1 <= height -> height + 1 < threads < 2 ^ 32 ->
  plan height threads = Returns [(0, 2 ^ 64 + height - (threads - 1))].
Proof.
  intros height threads Hh Ht.
  unfold plan, lines_first_pack, lines_per_pack.
  rewrite Z.div_small by lia. rewrite Z.max_l by lia.
  unfold uint32_t. rewrite (Z.mod_small (threads - 1)) by lia.
  rewrite Z.mul_1_r. unfold size_t at 2. rewrite (Z.mod_small (threads - 1)) by lia.
  replace (Z.to_nat height + 1)%nat with (S (Z.to_nat height)) by lia.
  cbn [plan_loop].
  replace (0 <? height) with true by (symmetry; apply Z.ltb_lt; lia).
  assert (Hfirst : size_t (height - (threads - 1)) = 2 ^ 64 + height - (threads - 1)).
  { unfold size_t.
    replace (height - (threads - 1))
      with (2 ^ 64 + height - (threads - 1) + (-1) * 2 ^ 64) by lia.
    rewrite Z.mod_add by lia. apply Z.mod_small. lia. }
  rewrite Hfirst.
  assert (Hstop : forall fuel e,
            plan_loop fuel height 1 (2 ^ 64 + height - (threads - 1)) e = Returns []).
  { intros fuel e. destruct fuel; cbn [plan_loop];
      replace (2 ^ 64 + height - (threads - 1) <? height) with false
        by (symmetry; apply Z.ltb_ge; lia); reflexivity. }
  rewrite Hstop. reflexivity.
Qed.

(** The loop always ends: the fuel [plan] gives it is enough. *)
Lemma plan_returns : forall height threads,
  is_size_t height -> 2 <= threads < 2 ^ 32 ->
  exists ranges, plan height threads = Returns ranges.
Proof.
  intros height threads Hh Ht. unfold is_size_t in Hh.
  destruct (Z.eq_dec height 0) as [->|Hnz]; [eexists; reflexivity|].
  destruct (Z_le_gt_dec threads height) as [Hge|Hlt].
  - destruct (plan_chained height threads) as (ranges & Hplan & _); try lia.
    now exists ranges.
  - destruct (Z.eq_dec threads (height + 1)) as [Heq|Hne].
    + destruct (plan_first_range_empty height threads) as (rest & Hplan & _); try lia.
      eexists. exact Hplan.
    + eexists. apply plan_first_range_wraps; lia.
Qed.

(** ** Helpers for the examples *)

Lemma encodeQoi_fits : forall max_size image start_y end_y,
  reserve_request image start_y end_y <= max_size ->
  encodeQoi max_size image start_y end_y
  = encodeQoi (reserve_request image start_y end_y) image start_y end_y.
Proof.
  intros max_size image start_y end_y Hfit. unfold encodeQoi, reserve.
  replace (max_size <? reserve_request image start_y end_y) with false
    by (symmetry; apply Z.ltb_ge; lia).
  now rewrite Z.ltb_irrefl.
Qed.

Lemma valid_row_of : forall pixel n,
  Pixel_ok pixel -> Z.of_nat n < 2 ^ 64 -> valid (row_of pixel n).
Proof.
  intros pixel n Hok Hn. unfold valid, row_of, is_size_t. cbn [width_ height_ pixels_].
  rewrite repeat_length. repeat split; try lia.
  apply Forall_forall. intros q Hq. apply repeat_spec in Hq. now subst.
Qed.

Lemma valid_column_of : forall pixel n,
  Pixel_ok pixel -> Z.of_nat n < 2 ^ 64 -> valid (column_of pixel n).
Proof.
  intros pixel n Hok Hn. unfold valid, column_of, is_size_t. cbn [width_ height_ pixels_].
  rewrite repeat_length. repeat split; try lia.
  apply Forall_forall. intros q Hq. apply repeat_spec in Hq. now subst.
Qed.

Lemma opaque_red_ok : Pixel_ok opaque_red.
Proof. repeat split; simpl; lia. Qed.

Lemma map_constant : forall (A B : Type) (f : A -> B) (c : B) (l : list A),
  (forall x, In x l -> f x = c) -> map f l = repeat c (List.length l).
Proof.
  intros A B f c l. induction l as [|x l IH]; intros Hall; simpl; [reflexivity|].
  rewrite (Hall x (in_eq x l)), IH; [reflexivity|].
  intros y Hy. apply Hall. now right.
Qed.

Lemma counting_length : forall from count, List.length (counting from count) = count.
Proof. intros. unfold counting. now rewrite length_map, length_seq. Qed.

Lemma row_of_pixels : forall pixel n,
  chunk_pixels (row_of pixel n) 0 1 = repeat pixel n.
Proof.
  intros pixel n. unfold chunk_pixels, rows, columns.
  change (getHeight (row_of pixel n)) with 1.
  change (getWidth (row_of pixel n)) with (Z.of_nat n).
  change (counting 0 (Z.to_nat (Z.min 1 1 - 0))) with [0].
  cbn [flat_map]. rewrite app_nil_r, Nat2Z.id.
  rewrite (map_constant _ _ _ pixel).
  - now rewrite counting_length.
  - intros x Hx. apply counting_In in Hx. unfold pixel_at, row_of.
    cbn [width_ pixels_].
    rewrite (nth_indep _ Pixel_default pixel) by (rewrite repeat_length; lia).
    apply nth_repeat.
Qed.

Lemma run_total_runs_of : forall k, 0 <= k -> run_total (runs_of k) = k.
Proof.
  intros k Hk. unfold runs_of.
  assert (Hrep : forall m tail,
            run_total (repeat OpLongRun m ++ tail) = 62 * Z.of_nat m + run_total tail).
  { induction m as [|m IH]; intros tail; [reflexivity|].
    cbn [repeat app run_total fold_right run_length].
    fold (run_total (repeat OpLongRun m ++ tail)).
    rewrite IH. lia. }
  rewrite Hrep. rewrite Z2Nat.id by (apply Z.div_pos; lia).
  pose proof (Z.div_mod k 62 ltac:(lia)) as Hdm.
  destruct (k mod 62 =? 0) eqn:E; cbn [run_total fold_right run_length].
  - apply Z.eqb_eq in E. lia.
  - lia.
Qed.

Lemma runs_of_are_runs : forall k, forallb is_run_op (runs_of k) = true.
Proof.
  intros k. unfold runs_of. rewrite forallb_app. apply andb_true_iff. split.
  - induction (Z.to_nat (k / 62)); simpl; auto.
  - destruct (k mod 62 =? 0); reflexivity.
Qed.

(** The opcodes of a row of [n] times one pixel. *)
Lemma row_of_ops : forall pixel n,
  let image := row_of pixel n in
  chunk_ops image 0 1
  = if Pixel_eqb pixel (mkPixel 0 0 0 255) then runs_of (Z.of_nat n)
    else match n with
         | O => []
         | S m => pixel_op (initial_state image 0) pixel :: runs_of (Z.of_nat m)
         end.
Proof.
  intros pixel n image. unfold chunk_ops. subst image.
  rewrite row_of_pixels.
  set (st0 := initial_state (row_of pixel n) 0).
  assert (Hrun0 : run_ok st0) by apply initial_state_run_ok.
  destruct (Pixel_eqb pixel (mkPixel 0 0 0 255)) eqn:E.
  - apply Pixel_eqb_eq in E.
    assert (Hprev : previous_pixel st0 = pixel) by (now rewrite E).
    destruct (repeated_pixel n st0 Hrun0) as (Ht & Hr & _).
    rewrite Hprev in Ht, Hr. rewrite Ht. unfold flushed. rewrite Hr.
    reflexivity.
  - destruct n as [|m]; [reflexivity|].
    apply Pixel_eqb_neq in E.
    assert (Hne : pixel <> previous_pixel st0) by exact E.
    destruct (encode_pixel_fresh st0 pixel Hne) as (Hem & Hprev & Hr0).
    cbn [repeat trace fold_left].
    set (st1 := encode_pixel st0 pixel) in *.
    assert (Hrun1 : run_ok st1) by (now apply encode_pixel_run_ok).
    destruct (repeated_pixel m st1 Hrun1) as (Ht & Hr & _).
    rewrite Hprev in Ht, Hr. rewrite Ht, Hem. unfold flushed at 2. rewrite Hr, Hr0.
    reflexivity.
Qed.

(** ** [main] ends with status 0 or 1 *)

Lemma size_t_nonneg : forall z, 0 <= size_t z.
Proof. intros z. unfold size_t. apply Z.mod_pos_bound. lia. Qed.

Lemma uint32_t_range : forall z, 0 <= uint32_t z < 2 ^ 32.
Proof. intros z. unfold uint32_t. apply Z.mod_pos_bound. lia. Qed.

Lemma plan_loop_starts : forall fuel height per_pack start_y end_y ranges,
  0 <= start_y -> 0 <= end_y ->
  plan_loop fuel height per_pack start_y end_y = Returns ranges ->
  Forall (fun range => 0 <= fst range) ranges.
Proof.
  induction fuel as [|fuel IH]; intros height per_pack start_y end_y ranges Hs He Hplan;
    cbn [plan_loop] in Hplan; destruct (start_y <? height).
  - discriminate Hplan.
  - injection Hplan as <-. constructor.
  - destruct (plan_loop fuel height per_pack end_y (size_t (end_y + per_pack)))
      as [rest| | |] eqn:Hrest; try discriminate Hplan.
    cbn [bind] in Hplan. injection Hplan as <-.
    constructor; [exact Hs|].
    apply (IH _ _ _ _ _ He (size_t_nonneg _) Hrest).
  - injection Hplan as <-. constructor.
Qed.

Lemma encodeQoi_outcome : forall max_size image start_y end_y,
  valid image -> 0 <= start_y ->
  (exists chunk, encodeQoi max_size image start_y end_y = Returns chunk)
  \/ encodeQoi max_size image start_y end_y = Throws length_error.
Proof.
  intros max_size image start_y end_y Hv Hs.
  destruct (Z_le_gt_dec (reserve_request image start_y end_y) max_size) as [Hfit|Hbig].
  - left. eexists. now apply encodeQoi_shape.
  - right. unfold encodeQoi, reserve.
    replace (max_size <? reserve_request image start_y end_y) with true
      by (symmetry; apply Z.ltb_lt; lia).
    reflexivity.
Qed.

Lemma encodeQoi_returns_shape : forall max_size image start_y end_y chunk,
  valid image -> 0 <= start_y ->
  encodeQoi max_size image start_y end_y = Returns chunk ->
  chunk = chunk_header image start_y
          ++ ops_bytes (chunk_ops image start_y end_y)
          ++ chunk_footer image end_y.
Proof.
  intros max_size image start_y end_y chunk Hv Hs Hret.
  assert (Hfit : reserve_request image start_y end_y <= max_size).
  { unfold encodeQoi, reserve in Hret.
    destruct (max_size <? reserve_request image start_y end_y) eqn:E;
      [discriminate Hret|]. now apply Z.ltb_ge in E. }
  rewrite (encodeQoi_shape max_size image start_y end_y Hv Hs Hfit) in Hret.
  now injection Hret.
Qed.

Lemma write_results_outcome : forall max_size image ranges cout,
  valid image -> Forall (fun range => 0 <= fst range) ranges ->
  exists cout1,
    write_results
      (map (fun range => encodeQoi max_size image (fst range) (snd range)) ranges) cout
    = (cout1, Returns tt)
    \/ write_results
         (map (fun range => encodeQoi max_size image (fst range) (snd range)) ranges) cout
       = (cout1, Throws length_error).
Proof.
  intros max_size image ranges cout Hv Hall. revert cout.
  induction Hall as [|range ranges Hs _ IH]; intros cout; cbn [map write_results].
  - exists cout. now left.
  - destruct (encodeQoi_outcome max_size image (fst range) (snd range) Hv Hs)
      as [[chunk ->] | ->].
    + apply IH.
    + exists cout. now right.
Qed.

Lemma stoul_outcome : forall str,
  (exists v, stoul str = Returns v) \/ (exists e, stoul str = Throws e).
Proof.
  intros str. unfold stoul. destruct (strip_sign (skip_space str)) as [negative s].
  destruct (digits s None) as [v|]; [|right; eexists; reflexivity].
  destruct (v >? 2 ^ 64 - 1); [right | left]; eexists; reflexivity.
Qed.

(** On a valid image [main] ends, with exit status 0 or 1: the model
    neither runs out of fuel nor reads outside the pixel storage. *)
Lemma main_exits : forall max_size hardware_concurrency args image,
  valid image ->
  exists cout status,
    main max_size hardware_concurrency args image = (cout, Returns status)
    /\ (status = 0 \/ status = 1).
Proof.
  intros max_size hw args image Hv. unfold main.
  assert (Hthreads : (exists threads, threads_of hw args = Returns threads
                                      /\ 0 <= threads < 2 ^ 32)
                     \/ (exists e, threads_of hw args = Throws e)).
  { destruct args as [|arg rest]; cbn [threads_of].
    - left. eexists. split; [reflexivity | apply uint32_t_range].
    - destruct (stoul_outcome arg) as [[v ->] | [e ->]]; cbn [bind].
      + left. eexists. split; [reflexivity | apply uint32_t_range].
      + right. eexists. reflexivity. }
  destruct Hthreads as [(threads & -> & Ht) | (e & ->)];
    [|exists [], 1; split; [reflexivity | now right]].
  destruct (to_bool image); [|exists [], 1; split; [reflexivity | now right]].
  unfold encode_image.
  destruct (threads <? 2) eqn:E.
  - destruct (encodeQoi_outcome max_size image 0 (getHeight image) Hv (Z.le_refl 0))
      as [[chunk ->] | ->].
    + exists chunk, 0. split; [reflexivity | now left].
    + exists [], 1. split; [reflexivity | now right].
  - apply Z.ltb_ge in E.
    destruct Hv as (Hw & Hh & Hrest).
    destruct (plan_returns (getHeight image) threads Hh ltac:(lia)) as (ranges & Hplan).
    rewrite Hplan.
    assert (Hstarts : Forall (fun range => 0 <= fst range) ranges).
    { unfold plan in Hplan.
      apply (plan_loop_starts _ _ _ _ _ _ (Z.le_refl 0) (size_t_nonneg _) Hplan). }
    destruct (write_results_outcome max_size image ranges []
                (conj Hw (conj Hh Hrest)) Hstarts) as (cout1 & [-> | ->]).
    + exists cout1, 0. split; [reflexivity | now left].
    + exists cout1, 1. split; [reflexivity | now right].
Qed.

(** * The claims *)

(** ** C1: one header at the start, one end marker at the end *)

(** C1, evaluated where it fails. With two workers, an image of one column
    and two rows is split into the row ranges [0,1) and [1,2); the chunk of
    [0,1) passes the footer test [end_y + 1 >= height] although row 1 is
    not in it, so the end marker is written in the middle of the stream and
    again at its end. With two workers and a single row the ranges are
    [0,0) and [0,1): both start at row 0, and the stream holds two headers
    and two end markers. *)
Theorem C1_marker_and_header_repeated : forall max_size hardware_concurrency,
  2 <= max_size ->
  let two_rows := column_of opaque_red 2 in
  let one_row := column_of opaque_red 1 in
  main max_size hardware_concurrency ["2"%string] two_rows
  = (write_header [] two_rows ++ op_bytes (OpDiff (-1) 0 0) ++ end_marker
       ++ op_bytes (OpDiff (-1) 0 0) ++ end_marker,
     Returns 0)
  /\ main max_size hardware_concurrency ["2"%string] one_row
     = (write_header [] one_row ++ end_marker
          ++ write_header [] one_row ++ op_bytes (OpDiff (-1) 0 0) ++ end_marker,
        Returns 0).
Proof.
  intros max_size hw Hfit two_rows one_row. unfold main.
  replace (threads_of hw ["2"%string]) with (Returns (A := Z) 2) by reflexivity.
  unfold encode_image.
  change (to_bool two_rows) with true. change (to_bool one_row) with true.
  change (2 <? 2) with false. cbv iota.
  replace (plan (getHeight two_rows) 2) with (Returns [(0, 1); (1, 2)])
    by (vm_compute; reflexivity).
  replace (plan (getHeight one_row) 2) with (Returns [(0, 0); (0, 1)])
    by (vm_compute; reflexivity).
  cbn [map fst snd].
  rewrite (encodeQoi_fits max_size two_rows 0 1) by (vm_compute reserve_request; lia).
  rewrite (encodeQoi_fits max_size two_rows 1 2) by (vm_compute reserve_request; lia).
  rewrite (encodeQoi_fits max_size one_row 0 0) by (vm_compute reserve_request; lia).
  rewrite (encodeQoi_fits max_size one_row 0 1) by (vm_compute reserve_request; lia).
  split; vm_compute; reflexivity.
Qed.

(** The two-row image with libstdc++'s [max_size()] and eight cores. *)
Lemma C1_marker_and_header_repeated_witness :
  let two_rows := column_of opaque_red 2 in
  2 <= libstdcxx_max_size /\
  main libstdcxx_max_size 8 ["2"%string] two_rows
  = (write_header [] two_rows ++ op_bytes (OpDiff (-1) 0 0) ++ end_marker
       ++ op_bytes (OpDiff (-1) 0 0) ++ end_marker,
     Returns 0).
Proof.
  assert (Hfit : 2 <= libstdcxx_max_size) by (vm_compute; discriminate).
  split; [exact Hfit|].
  exact (proj1 (C1_marker_and_header_repeated libstdcxx_max_size 8 Hfit)).
Defined.

(** ** C2: the row ranges *)

(** C2, evaluated where it fails. One row and two workers: the first range
    is [0,0), of length zero, and the second starts at row 0 again. One row
    and three workers: [lines_first_pack] is [1 - 2] in [std::size_t], and
    the only range runs from row 0 to [2^64 - 1]. Neither list is a chain of
    non-empty ranges from row 0 to the row count. *)
Theorem C2_ranges_with_more_workers_than_rows :
  row_ranges 1 2 = Returns [(0, 0); (0, 1)]
  /\ ~ chained 0 [(0, 0); (0, 1)] 1
  /\ row_ranges 1 3 = Returns [(0, 2 ^ 64 - 1)]
  /\ ~ chained 0 [(0, 2 ^ 64 - 1)] 1.
Proof.
  repeat split; try (vm_compute; reflexivity); simpl; lia.
Qed.

(** [row_ranges] lists the calls of [encodeQoi] that [main] makes. *)
Lemma encode_image_row_ranges : forall max_size threads image,
  encode_image max_size threads image
  = match row_ranges (getHeight image) threads with
    | Returns ranges =>
        write_results
          (map (fun range => encodeQoi max_size image (fst range) (snd range)) ranges) []
    | Throws e => ([], Throws e)
    | Undefined => ([], Undefined)
    | OutOfFuel => ([], OutOfFuel)
    end.
Proof.
  intros max_size threads image. unfold encode_image, row_ranges.
  destruct (threads <? 2); [|reflexivity].
  cbn [map write_results fst snd app].
  destruct (encodeQoi max_size image 0 (getHeight image)); reflexivity.
Qed.

(** What holds of the row ranges: with no more workers than rows (and with
    fewer than two workers) the ranges are chained from row 0 to the last
    row, and none is empty. *)
Lemma row_ranges_chained : forall height threads,
  0 <= threads < 2 ^ 32 -> 1 <= height < 2 ^ 64 -> threads <= height ->
  exists ranges,
    row_ranges height threads = Returns ranges /\ chained 0 ranges height.
Proof.
  intros height threads Ht Hh Hle. unfold row_ranges.
  destruct (threads <? 2) eqn:E.
  - eexists. split; [reflexivity|]. simpl. lia.
  - apply Z.ltb_ge in E.
    destruct (plan_chained height threads) as (ranges & Hplan & Hch & _); try lia.
    now exists ranges.
Qed.

(** ** C3: the previous pixel at the start of a chunk *)

(** C3 as stated fails: the register does not start at (0,0,0,0). A chunk
    whose first pixel is (0,0,0,0) does not count that pixel as a run: in
    the chunk of row 0 it is found in the index table, and in a later chunk
    its alpha is seen as changed and the pixel is written out with the RGBA
    opcode. *)
Lemma C3_first_pixel_not_compared_with_zero :
  let image := column_of transparent_black 2 in
  previous_pixel (initial_state image 1) <> mkPixel 0 0 0 0
  /\ chunk_ops image 1 2 = [OpRGBA transparent_black]
  /\ chunk_ops image 0 1 = [OpIndex 0]
  /\ encodeQoi libstdcxx_max_size image 1 2
     = Returns ([0xFF; 0; 0; 0; 0] ++ end_marker).
Proof.
  repeat split; try (vm_compute; reflexivity).
  vm_compute. discriminate.
Qed.

(** C3, amended: at the start of every chunk, whatever [start_y], the
    previous pixel is (0,0,0,255) and no run is pending. The first pixel of
    the chunk extends a run exactly when it is (0,0,0,255); otherwise one
    opcode is pushed for it, and when the index table does not hold it, that
    opcode is RGBA exactly when its alpha is not 255, and else is chosen from
    its red, green and blue channels taken as differences from 0. *)
Theorem C3_previous_pixel_starts_opaque_black : forall image start_y pixel,
  let st := initial_state image start_y in
  previous_pixel st = mkPixel 0 0 0 255
  /\ run st = 0
  /\ (pixel = mkPixel 0 0 0 255 <->
      emitted st pixel = [] /\ run (encode_pixel st pixel) = 1)
  /\ (pixel <> mkPixel 0 0 0 255 <->
      emitted st pixel = [pixel_op st pixel] /\ run (encode_pixel st pixel) = 0)
  /\ (holds (index_at (index st) (pixel_hash pixel)) pixel = false ->
      pixel_op st pixel
      = if negb (a pixel =? 255) then OpRGBA pixel
        else
          let vr := int8_t (r pixel - 0) in
          let vg := int8_t (g pixel - 0) in
          let vb := int8_t (b pixel - 0) in
          if is_within vr (-2) 1 && is_within vg (-2) 1 && is_within vb (-2) 1
          then OpDiff vr vg vb
          else
            let vg_r := int8_t (vr - vg) in
            let vg_b := int8_t (vb - vg) in
            if is_within vg_r (-8) 7 && is_within vg (-32) 31 && is_within vg_b (-8) 7
            then OpLuma vg vg_r vg_b
            else OpRGB pixel).
Proof.
  intros image start_y pixel st.
  assert (Hprev : previous_pixel st = mkPixel 0 0 0 255) by reflexivity.
  assert (Hrun : run st = 0) by reflexivity.
  assert (Hok : run_ok st) by apply initial_state_run_ok.
  assert (Hsame : pixel = mkPixel 0 0 0 255 ->
                  emitted st pixel = [] /\ run (encode_pixel st pixel) = 1).
  { intros ->. rewrite <- Hprev.
    rewrite (emitted_repeat st Hok).
    destruct (encode_pixel_repeat st Hok) as (_ & _ & ->).
    rewrite Hrun. split; reflexivity. }
  assert (Hfresh : pixel <> mkPixel 0 0 0 255 ->
                   emitted st pixel = [pixel_op st pixel]
                   /\ run (encode_pixel st pixel) = 0).
  { intros Hne. rewrite <- Hprev in Hne.
    destruct (encode_pixel_fresh st pixel Hne) as (Hem & _ & Hr).
    rewrite Hem. unfold flushed. rewrite Hrun. split; [reflexivity|assumption]. }
  split; [exact Hprev|]. split; [exact Hrun|].
  split; [|split].
  - split; [exact Hsame|]. intros [Hem _].
    destruct (Pixel_eqb pixel (mkPixel 0 0 0 255)) eqn:E.
    + now apply Pixel_eqb_eq.
    + apply Pixel_eqb_neq in E. destruct (Hfresh E) as [Hem' _]. congruence.
  - split; [exact Hfresh|]. intros [_ Hr] ->.
    destruct (Hsame eq_refl) as [_ Hr']. lia.
  - intros Hmiss. unfold pixel_op. rewrite Hmiss, Hprev. reflexivity.
Qed.

(** A later chunk whose first pixel is (0,0,0,0): the index table is empty,
    the alpha differs from 255, the opcode is RGBA. *)
Lemma C3_previous_pixel_starts_opaque_black_witness :
  let image := column_of transparent_black 2 in
  let st := initial_state image 1 in
  holds (index_at (index st) (pixel_hash transparent_black)) transparent_black = false
  /\ pixel_op st transparent_black = OpRGBA transparent_black.
Proof.
  assert (Hmiss : holds (index_at (index (initial_state (column_of transparent_black 2) 1))
                           (pixel_hash transparent_black)) transparent_black = false)
    by reflexivity.
  split; [exact Hmiss|].
  exact (proj2 (proj2 (proj2 (proj2
    (C3_previous_pixel_starts_opaque_black (column_of transparent_black 2) 1
       transparent_black)))) Hmiss).
Defined.

(** ** C4: the runs of the chunk encoder; reads outside the image *)

(** C4 as stated fails. A read outside the image yields [Pixel{}], which is
    (0,0,0,255) and not (0,0,0,0). And the encoder can throw: for the row
    range from 0 to [2^64 - 1] (the range [main] asks for with one row and
    three workers) the size passed to [reserve] is 6148914691236517202,
    above the [max_size()] of libstdc++, and [reserve] throws
    [length_error]. Below [max_size()] the allocation that [reserve] makes
    can still fail, with [std::bad_alloc]. *)
Lemma C4_default_pixel_is_opaque :
  let image := column_of opaque_red 1 in
  valid image
  /\ getPixel image 1 0 = Returns (mkPixel 0 0 0 255)
  /\ getPixel image 1 0 <> Returns (mkPixel 0 0 0 0)
  /\ reserve_request image 0 (2 ^ 64 - 1) = 6148914691236517202
  /\ encodeQoi libstdcxx_max_size image 0 (2 ^ 64 - 1) = Throws length_error.
Proof.
  split.
  - apply valid_column_of; [apply opaque_red_ok | simpl; lia].
  - repeat split; try (vm_compute; reflexivity). vm_compute. discriminate.
Qed.

(** C4, amended: on a valid image no call of the chunk encoder reads
    outside the pixel storage or fails to end. Every run returns the chunk
    (the header when the range starts at row 0, the bytes of the opcodes,
    the end marker when the footer test holds) or throws
    [std::length_error] or [std::bad_alloc]; when the [reserve] request
    and the bound of the chunk's length do not exceed [max_size()], a
    failed allocation is the only way not to return. A read at a
    coordinate outside the image yields the default pixel (0,0,0,255). *)
Theorem C4_encoder_runs : forall max_size image start_y end_y o,
  valid image -> is_size_t start_y ->
  encodeQoi_run max_size image start_y end_y o ->
  ((exists chunk,
      o = Returns chunk
      /\ chunk = chunk_header image start_y
                 ++ ops_bytes (chunk_ops image start_y end_y)
                 ++ chunk_footer image end_y
      /\ Z.of_nat (List.length chunk) <= max_size)
   \/ o = Throws length_error
   \/ o = Throws bad_alloc)
  /\ (reserve_request image start_y end_y <= max_size ->
      chunk_bound image start_y end_y <= max_size ->
      (exists chunk, o = Returns chunk) \/ o = Throws bad_alloc)
  /\ (forall x y, ~ (x < getWidth image /\ y < getHeight image) ->
      getPixel image x y = Returns (mkPixel 0 0 0 255)).
Proof.
  intros max_size image start_y end_y o Hv [Hs _] Hrun.
  split; [|split].
  - destruct Hrun as [Hfits | Hreq | Hreq Hbig].
    + destruct (encodeQoi_outcome max_size image start_y end_y Hv Hs) as [[chunk Hc] | Hc].
      * left. exists chunk. split; [exact Hc|]. split.
        -- exact (encodeQoi_returns_shape _ _ _ _ _ Hv Hs Hc).
        -- exact (Hfits chunk Hc).
      * right. left. exact Hc.
    + right. right. reflexivity.
    + right. left. reflexivity.
  - intros Hreq Hbound.
    destruct Hrun as [Hfits | Hreq' | Hreq' Hbig]; [|now right|lia].
    left. eexists. apply encodeQoi_shape; assumption.
  - intros x y. apply getPixel_outside.
Qed.

(** The run of a one-pixel image in which the memory suffices. *)
Lemma C4_encoder_runs_witness :
  let image := column_of opaque_red 1 in
  (exists chunk, encodeQoi libstdcxx_max_size image 0 1 = Returns chunk)
  \/ encodeQoi libstdcxx_max_size image 0 1 = Throws bad_alloc.
Proof.
  refine (proj1 (proj2 (C4_encoder_runs libstdcxx_max_size (column_of opaque_red 1) 0 1
                          (encodeQoi libstdcxx_max_size (column_of opaque_red 1) 0 1)
                          _ _ _)) _ _).
  - apply valid_column_of; [apply opaque_red_ok | simpl; lia].
  - unfold is_size_t. simpl. lia.
  - apply run_with_memory. intros chunk Hchunk. vm_compute in Hchunk.
    injection Hchunk as <-. vm_compute. discriminate.
  - vm_compute. discriminate.
  - vm_compute. discriminate.
Defined.

(** ** C5: one pixel repeated 200 times in a row *)

(** C5 as stated fails. In a row of 200 times the pixel (255,0,0,255) the
    first of them differs from the previous pixel the chunk starts with and
    takes a DIFF opcode; the runs stand for the other 199. (Read as one
    pixel and 200 repeats of it, the claim fails for the pixel (0,0,0,255):
    all 201 pixels are runs, and the run lengths sum to 201.) *)
Lemma C5_first_pixel_is_not_a_run :
  let image := row_of opaque_red 200 in
  chunk_ops image 0 1 = [OpDiff (-1) 0 0; OpLongRun; OpLongRun; OpLongRun; OpRun 13]
  /\ forallb is_run_op (chunk_ops image 0 1) = false
  /\ run_total (chunk_ops image 0 1) = 199
  /\ run_total (chunk_ops image 0 1) <> 200
  /\ encode_image libstdcxx_max_size 1 image
     = (write_header [] image ++ [0x5A; 0xFD; 0xFD; 0xFD; 0xCC] ++ end_marker,
        Returns tt)
  /\ run_total (chunk_ops (row_of (mkPixel 0 0 0 255) 201) 0 1) = 201.
Proof.
  repeat split; try (vm_compute; reflexivity).
  vm_compute. discriminate.
Qed.

(** C5, amended: for a row of [n] times one pixel, the single-threaded
    encoding is the header, the opcodes below, and the end marker. When the
    pixel is (0,0,0,255), the previous pixel every chunk starts with, the
    opcodes are only LONG_RUN and RUN, with run lengths summing to [n]. For
    any other pixel, the first of the [n] takes one opcode that is not a
    run, and the [n - 1] repeats of it are only LONG_RUN and RUN, with run
    lengths summing to [n - 1]: for [n = 200], three LONG_RUN and a RUN of
    13, which sum to 199. *)
Theorem C5_repeated_pixel_row : forall max_size pixel n,
  Pixel_ok pixel -> Z.of_nat n < 2 ^ 64 ->
  reserve_request (row_of pixel n) 0 1 <= max_size ->
  let image := row_of pixel n in
  let ops := chunk_ops image 0 1 in
  encode_image max_size 1 image
  = (write_header [] image ++ ops_bytes ops ++ end_marker, Returns tt)
  /\ (pixel = mkPixel 0 0 0 255 ->
      ops = runs_of (Z.of_nat n)
      /\ forallb is_run_op ops = true /\ run_total ops = Z.of_nat n)
  /\ (pixel <> mkPixel 0 0 0 255 ->
      forall m, n = S m ->
      exists op,
        is_run_op op = false
        /\ ops = op :: runs_of (Z.of_nat m)
        /\ forallb is_run_op (runs_of (Z.of_nat m)) = true
        /\ run_total ops = Z.of_nat m)
  /\ runs_of 199 = [OpLongRun; OpLongRun; OpLongRun; OpRun 13]
  /\ runs_of 200 = [OpLongRun; OpLongRun; OpLongRun; OpRun 14].
Proof.
  intros max_size pixel n Hok Hn Hfit image ops.
  assert (Hv : valid image) by (apply valid_row_of; assumption).
  split; [|split; [|split; [|split; reflexivity]]].
  - unfold encode_image. change (1 <? 2) with true. cbv iota.
    change (getHeight image) with 1.
    rewrite encodeQoi_shape; [reflexivity | assumption | lia | assumption].
  - intros Hp. unfold ops, image. rewrite (row_of_ops pixel n).
    apply Pixel_eqb_eq in Hp. rewrite Hp.
    split; [reflexivity|]. split; [apply runs_of_are_runs|].
    apply run_total_runs_of. lia.
  - intros Hp m ->. unfold ops, image. rewrite (row_of_ops pixel (S m)).
    apply Pixel_eqb_neq in Hp. rewrite Hp.
    set (op := pixel_op (initial_state (row_of pixel (S m)) 0) pixel).
    pose proof (pixel_op_not_run (initial_state (row_of pixel (S m)) 0) pixel) as Hnr.
    fold op in Hnr.
    exists op. split; [exact Hnr|]. split; [reflexivity|].
    split; [apply runs_of_are_runs|].
    change (run_total (op :: runs_of (Z.of_nat m)))
      with (run_length op + run_total (runs_of (Z.of_nat m))).
    rewrite run_total_runs_of by lia.
    destruct op; try discriminate Hnr; reflexivity.
Qed.

(** The row of 200 times (255,0,0,255). *)
Lemma C5_repeated_pixel_row_witness :
  let image := row_of opaque_red 200 in
  exists op,
    is_run_op op = false
    /\ chunk_ops image 0 1 = op :: runs_of 199
    /\ forallb is_run_op (runs_of 199) = true
    /\ run_total (chunk_ops image 0 1) = 199.
Proof.
  refine (proj1 (proj2 (proj2
            (C5_repeated_pixel_row libstdcxx_max_size opaque_red 200 _ _ _))) _ 199%nat eq_refl).
  - repeat split; simpl; lia.
  - simpl. lia.
  - vm_compute. discriminate.
  - discriminate.
Defined.

(** ** C6: two identical pixels (255,0,0,255) *)

(** C6 as stated fails: the encoding of the 2x1 image has 24 bytes, not 23.
    Between header and end marker stand a DIFF opcode for the first pixel
    and a RUN of length 1 for the second, not one RUN of length 2. *)
Lemma C6_two_red_pixels_take_24_bytes :
  let image := row_of opaque_red 2 in
  encode_image libstdcxx_max_size 1 image
  = (write_header [] image ++ [0x5A; 0xC0] ++ end_marker, Returns tt)
  /\ List.length (fst (encode_image libstdcxx_max_size 1 image)) = 24%nat
  /\ fst (encode_image libstdcxx_max_size 1 image)
     <> write_header [] image ++ op_bytes (OpRun 2) ++ end_marker.
Proof.
  repeat split; try (vm_compute; reflexivity).
  vm_compute. discriminate.
Qed.

(** C6, amended: for the 2x1 image whose two pixels are (255,0,0,255), the
    single-threaded encoding is the 14-byte header, one DIFF opcode byte
    (0x5A) for the first pixel, one RUN opcode byte of run length 1 (0xC0)
    for the second, and the 8-byte end marker: 24 bytes. *)
Theorem C6_two_red_pixels : forall max_size,
  5 <= max_size ->
  let image := row_of opaque_red 2 in
  let encoding :=
    write_header [] image ++ op_bytes (OpDiff (-1) 0 0) ++ op_bytes (OpRun 1)
      ++ end_marker in
  encode_image max_size 1 image = (encoding, Returns tt)
  /\ chunk_ops image 0 1 = [OpDiff (-1) 0 0; OpRun 1]
  /\ List.length (write_header [] image) = 14%nat
  /\ op_bytes (OpDiff (-1) 0 0) = [0x5A]
  /\ op_bytes (OpRun 1) = [0xC0]
  /\ List.length end_marker = 8%nat
  /\ List.length encoding = 24%nat.
Proof.
  intros max_size Hfit image encoding.
  split; [|repeat split; vm_compute; reflexivity].
  unfold encode_image. change (1 <? 2) with true. cbv iota.
  rewrite encodeQoi_fits by (vm_compute reserve_request; lia).
  vm_compute. reflexivity.
Qed.

(** With libstdc++'s [max_size()]. *)
Lemma C6_two_red_pixels_witness :
  let image := row_of opaque_red 2 in
  encode_image libstdcxx_max_size 1 image
  = (write_header [] image ++ op_bytes (OpDiff (-1) 0 0) ++ op_bytes (OpRun 1)
       ++ end_marker,
     Returns tt).
Proof.
  refine (proj1 (C6_two_red_pixels libstdcxx_max_size _)).
  vm_compute. discriminate.
Defined.

(** ** C7: channel differences (1,-1,0) *)

(** C7 as stated fails, in two ways. In the 2x1 image below the second
    pixel differs from the first by (1,-1,0) in signed 8-bit arithmetic and
    has the same alpha, yet it is found in the index table and takes an
    INDEX opcode. And in the image of two rows of one pixel, encoded by
    two workers, the second pixel opens the chunk of row 1: it is compared
    with the pixel (0,0,0,255) every chunk starts from, not with the pixel
    before it in the image, and takes a LUMA opcode (the bytes 0xA9,
    0xA9). *)
Lemma C7_index_hit_and_chunk_start :
  let first := mkPixel 255 1 0 0 in
  let second := mkPixel 0 0 0 0 in
  let image := Image.mk 2 1 [first; second] in
  let above := mkPixel 10 10 10 255 in
  let below := mkPixel 11 9 10 255 in
  let column := Image.mk 1 2 [above; below] in
  (int8_t (r second - r first) = 1
   /\ int8_t (g second - g first) = -1
   /\ int8_t (b second - b first) = 0
   /\ a second = a first
   /\ chunk_ops image 0 1 = [OpRGBA first; OpIndex 0]
   /\ emitted (encode_pixel (initial_state image 0) first) second = [OpIndex 0]
   /\ ~ In (OpDiff 1 (-1) 0) (chunk_ops image 0 1))
  /\ (int8_t (r below - r above) = 1
      /\ int8_t (g below - g above) = -1
      /\ int8_t (b below - b above) = 0
      /\ a below = a above
      /\ plan 2 2 = Returns [(0, 1); (1, 2)]
      /\ chunk_ops column 1 2 = [OpLuma 9 2 1]
      /\ ops_bytes [OpLuma 9 2 1] = [0xA9; 0xA9]
      /\ encode_image libstdcxx_max_size 2 column
         = (write_header [] column ++ ops_bytes [OpLuma 10 0 0] ++ end_marker
              ++ ops_bytes [OpLuma 9 2 1] ++ end_marker,
            Returns tt)).
Proof.
  split.
  - repeat split; try (vm_compute; reflexivity).
    vm_compute. intros [E | [E | []]]; discriminate E.
  - repeat split; vm_compute; reflexivity.
Qed.

Lemma diff_unless_indexed : forall st pixel,
  a pixel = a (previous_pixel st) ->
  int8_t (r pixel - r (previous_pixel st)) = 1 ->
  int8_t (g pixel - g (previous_pixel st)) = -1 ->
  int8_t (b pixel - b (previous_pixel st)) = 0 ->
  let op :=
    if holds (index_at (index st) (pixel_hash pixel)) pixel
    then OpIndex (pixel_hash pixel) else OpDiff 1 (-1) 0 in
  emitted st pixel = flushed st ++ [op]
  /\ res (encode_pixel st pixel) = res st ++ ops_bytes (flushed st ++ [op]).
Proof.
  intros st pixel Ha Hr Hg Hb op.
  assert (Hne : pixel <> previous_pixel st).
  { intros E. rewrite E, Z.sub_diag in Hr. discriminate Hr. }
  destruct (encode_pixel_fresh st pixel Hne) as (Hem & _ & _).
  assert (Hop : pixel_op st pixel = op).
  { unfold pixel_op, op. rewrite Ha, Hr, Hg, Hb, Z.eqb_refl.
    destruct (holds _ _); reflexivity. }
  rewrite encode_pixel_res, Hem, Hop. split; reflexivity.
Qed.

(** After every iteration the register holds the pixel of the iteration. *)
Lemma encode_pixel_previous : forall st pixel,
  previous_pixel (encode_pixel st pixel) = pixel.
Proof.
  intros st pixel.
  destruct (Pixel_eqb pixel (previous_pixel st)) eqn:E.
  - pose proof (proj1 (Pixel_eqb_eq _ _) E) as Heq.
    unfold encode_pixel. rewrite E.
    destruct (uint8_t (run st + 1) =? 62); cbn [previous_pixel]; now symmetry.
  - apply encode_pixel_fresh. now apply Pixel_eqb_neq.
Qed.

Lemma fold_encode_pixel_previous : forall pixels st pixel,
  previous_pixel (fold_left encode_pixel (pixels ++ [pixel]) st) = pixel.
Proof.
  intros pixels st pixel. rewrite fold_left_app. cbn [fold_left].
  apply encode_pixel_previous.
Qed.

Lemma trace_app : forall pixels1 pixels2 st,
  trace st (pixels1 ++ pixels2)
  = trace st pixels1 ++ trace (fold_left encode_pixel pixels1 st) pixels2.
Proof.
  induction pixels1 as [|pixel pixels1 IH]; intros pixels2 st; [reflexivity|].
  cbn [app trace fold_left]. now rewrite IH, app_assoc.
Qed.

(** C7, amended: within one call of the chunk encoder, when two pixels
    follow one another in the order the chunk reads them and the second
    differs from the first by the signed 8-bit differences (1,-1,0) with
    the same alpha, the register holds the first pixel when the second is
    encoded, and the encoder flushes the pending run and pushes one opcode
    for the second pixel: INDEX when the index table of the chunk holds
    that pixel, and else DIFF (the byte 0x76), never LUMA, RGB or RGBA.
    The opcodes of the chunk are those up to the first pixel, these, and
    those of the pixels that follow; they are the bytes between the header
    and the end marker of the chunk that [encodeQoi] returns. *)
Theorem C7_diff_unless_indexed :
  forall image start_y end_y before first second after,
  chunk_pixels image start_y end_y = before ++ first :: second :: after ->
  a second = a first ->
  int8_t (r second - r first) = 1 ->
  int8_t (g second - g first) = -1 ->
  int8_t (b second - b first) = 0 ->
  let st0 := initial_state image start_y in
  let st := fold_left encode_pixel (before ++ [first]) st0 in
  let op :=
    if holds (index_at (index st) (pixel_hash second)) second
    then OpIndex (pixel_hash second) else OpDiff 1 (-1) 0 in
  previous_pixel st = first
  /\ emitted st second = flushed st ++ [op]
  /\ chunk_ops image start_y end_y
     = trace st0 (before ++ [first])
       ++ (flushed st ++ [op])
       ++ trace (encode_pixel st second) after
       ++ flushed (fold_left encode_pixel (chunk_pixels image start_y end_y) st0)
  /\ (forall max_size chunk,
      valid image -> 0 <= start_y ->
      encodeQoi max_size image start_y end_y = Returns chunk ->
      chunk = chunk_header image start_y
              ++ ops_bytes (chunk_ops image start_y end_y)
              ++ chunk_footer image end_y)
  /\ op_bytes (OpDiff 1 (-1) 0) = [0x76].
Proof.
  intros image start_y end_y before first second after Hpixels Ha Hr Hg Hb st0 st op.
  assert (Hprev : previous_pixel st = first) by apply fold_encode_pixel_previous.
  assert (Hem : emitted st second = flushed st ++ [op]).
  { apply diff_unless_indexed; rewrite Hprev; assumption. }
  split; [exact Hprev|]. split; [exact Hem|]. split; [|split; [|reflexivity]].
  - unfold chunk_ops. fold st0.
    replace (trace st0 (chunk_pixels image start_y end_y))
      with (trace st0 ((before ++ [first]) ++ second :: after))
      by (now rewrite Hpixels, <- app_assoc).
    rewrite trace_app. fold st. cbn [trace]. rewrite Hem.
    now rewrite <- !app_assoc.
  - intros max_size chunk Hv Hs Hret.
    exact (encodeQoi_returns_shape _ _ _ _ _ Hv Hs Hret).
Qed.

(** From (10,10,10,255) to (11,9,10,255) in one row. *)
Lemma C7_diff_unless_indexed_witness :
  let image := Image.mk 2 1 [mkPixel 10 10 10 255; mkPixel 11 9 10 255] in
  chunk_ops image 0 1 = [OpLuma 10 0 0; OpDiff 1 (-1) 0].
Proof.
  exact (proj1 (proj2 (proj2
    (C7_diff_unless_indexed
       (Image.mk 2 1 [mkPixel 10 10 10 255; mkPixel 11 9 10 255]) 0 1
       [] (mkPixel 10 10 10 255) (mkPixel 11 9 10 255) []
       eq_refl eq_refl eq_refl eq_refl eq_refl)))).
Defined.

(** ** C8: the footer test *)

Lemma app_end_marker_neq : forall bytes : list Z, bytes ++ end_marker <> bytes.
Proof.
  intros bytes E. apply (f_equal (@List.length Z)) in E.
  rewrite length_app in E. simpl in E. lia.
Qed.

(** C8: a call of the chunk encoder that returns has appended the end
    marker (seven zero bytes, then a byte 1) to what [res] held after the
    last run if and only if [end_y + 1 >= height], the sum taken in
    [std::size_t] as the source computes it; where [end_y + 1] does not
    wrap, that is the test on the integers. In particular the marker is
    appended when [end_y] is [height - 1]. *)
Theorem C8_footer_iff : forall max_size image start_y end_y chunk,
  is_size_t (getHeight image) ->
  encodeQoi max_size image start_y end_y = Returns chunk ->
  exists st,
    encode_body image start_y end_y = Returns st
    /\ end_marker = [0; 0; 0; 0; 0; 0; 0; 1]
    /\ (chunk = final_run st ++ end_marker <-> size_t (end_y + 1) >= getHeight image)
    /\ (chunk = final_run st <-> size_t (end_y + 1) < getHeight image)
    /\ (0 <= end_y + 1 < 2 ^ 64 ->
        (chunk = final_run st ++ end_marker <-> end_y + 1 >= getHeight image))
    /\ (end_y = getHeight image - 1 -> chunk = final_run st ++ end_marker).
Proof.
  intros max_size image start_y end_y chunk Hh Hret.
  unfold encodeQoi, reserve in Hret.
  destruct (max_size <? reserve_request image start_y end_y); [discriminate Hret|].
  cbn [bind] in Hret.
  destruct (encode_body image start_y end_y) as [st| | |]; try discriminate Hret.
  cbn [bind] in Hret. injection Hret as Hchunk.
  exists st. split; [reflexivity|]. split; [reflexivity|].
  unfold footer_due in Hchunk. rewrite write_end_marker_app in Hchunk.
  pose proof (app_end_marker_neq (final_run st)) as Hneq.
  assert (Hiff : chunk = final_run st ++ end_marker
                 <-> size_t (end_y + 1) >= getHeight image).
  { destruct (size_t (end_y + 1) >=? getHeight image) eqn:E.
    - apply Z.geb_le in E. split; [lia | now intros _].
    - rewrite Z.geb_leb in E. apply Z.leb_gt in E.
      split; [intros E'; congruence | lia]. }
  split; [exact Hiff|]. split; [|split].
  - destruct (size_t (end_y + 1) >=? getHeight image) eqn:E.
    + apply Z.geb_le in E. split; [intros E'; congruence | lia].
    + rewrite Z.geb_leb in E. apply Z.leb_gt in E. split; [lia | now intros _].
  - intros Hnowrap. unfold size_t in Hiff. rewrite Z.mod_small in Hiff by lia.
    exact Hiff.
  - intros Hlast. apply Hiff. unfold is_size_t in Hh. unfold size_t.
    replace (end_y + 1) with (getHeight image) by lia.
    rewrite Z.mod_small by lia. lia.
Qed.

(** The chunk of row 0 of a two-row image: [end_y] is [height - 1], and
    the marker is appended. *)
Lemma C8_footer_iff_witness :
  let image := column_of opaque_red 2 in
  let chunk := write_header [] image ++ [0x5A] ++ end_marker in
  encodeQoi libstdcxx_max_size image 0 1 = Returns chunk
  /\ exists st,
       encode_body image 0 1 = Returns st /\ chunk = final_run st ++ end_marker.
Proof.
  assert (Hh : is_size_t (getHeight (column_of opaque_red 2)))
    by (unfold is_size_t; simpl; lia).
  assert (Hret : encodeQoi libstdcxx_max_size (column_of opaque_red 2) 0 1
                 = Returns (write_header [] (column_of opaque_red 2) ++ [0x5A] ++ end_marker))
    by (vm_compute; reflexivity).
  split; [exact Hret|].
  destruct (C8_footer_iff libstdcxx_max_size (column_of opaque_red 2) 0 1 _ Hh Hret)
    as (st & Hbody & _ & _ & _ & _ & Hlast).
  exists st. split; [exact Hbody|]. apply Hlast. reflexivity.
Defined.

(** ** C9: the worker count argument *)

Lemma encode_image_serial : forall max_size threads image,
  threads < 2 ->
  encode_image max_size threads image
  = match encodeQoi max_size image 0 (getHeight image) with
    | Returns chunk => (chunk, Returns tt)
    | Throws e => ([], Throws e)
    | Undefined => ([], Undefined)
    | OutOfFuel => ([], OutOfFuel)
    end.
Proof.
  intros max_size threads image Hlt. unfold encode_image.
  replace (threads <? 2) with true by (symmetry; apply Z.ltb_lt; lia).
  reflexivity.
Qed.

(** C9 as stated fails: with the argument [abc], [std::stoul] throws
    [invalid_argument], nothing is encoded and the exit status is 1; without
    an argument the same image is encoded with the hardware concurrency as
    worker count. *)
Lemma C9_non_numeric_argument_fails :
  let image := column_of opaque_red 1 in
  stoul "abc" = Throws invalid_argument
  /\ main libstdcxx_max_size 1 ["abc"%string] image = ([], Returns 1)
  /\ main libstdcxx_max_size 1 [] image
     = (write_header [] image ++ [0x5A] ++ end_marker, Returns 0)
  /\ main libstdcxx_max_size 1 ["abc"%string] image
     <> main libstdcxx_max_size 1 [] image.
Proof.
  repeat split; try (vm_compute; reflexivity).
  vm_compute. discriminate.
Qed.

Lemma stoul_no_number : forall c s,
  isspace c = false -> (c =? "-")%char = false -> (c =? "+")%char = false ->
  digit_of c = None ->
  stoul (String c s) = Throws invalid_argument.
Proof.
  intros c s Hspace Hminus Hplus Hdigit. unfold stoul.
  cbn [skip_space]. rewrite Hspace. cbn [strip_sign]. rewrite Hminus, Hplus.
  cbn [digits]. rewrite Hdigit. reflexivity.
Qed.

(** C9, amended: without the argument the worker count is the hardware
    concurrency and the image is encoded with it. With an argument that
    [std::stoul] rejects nothing is written and the exit status is 1; that
    is so for the empty argument and for every argument that starts with a
    character other than white space, a sign or a digit. With a worker count
    below 2, from the argument or from the hardware concurrency, the image
    is encoded by one call of the chunk encoder for the rows 0 to height. *)
Theorem C9_worker_count : forall max_size hardware_concurrency image,
  to_bool image = true ->
  main max_size hardware_concurrency [] image
  = (fst (encode_image max_size (uint32_t hardware_concurrency) image),
     exit_status (snd (encode_image max_size (uint32_t hardware_concurrency) image)))
  /\ (forall arg rest e,
        stoul arg = Throws e ->
        main max_size hardware_concurrency (arg :: rest) image = ([], Returns 1))
  /\ (forall c s rest,
        isspace c = false -> (c =? "-")%char = false -> (c =? "+")%char = false ->
        digit_of c = None ->
        main max_size hardware_concurrency (String c s :: rest) image = ([], Returns 1))
  /\ (forall rest,
        main max_size hardware_concurrency (EmptyString :: rest) image = ([], Returns 1))
  /\ (forall args threads,
        threads_of hardware_concurrency args = Returns threads -> threads < 2 ->
        main max_size hardware_concurrency args image
        = match encodeQoi max_size image 0 (getHeight image) with
          | Returns chunk => (chunk, Returns 0)
          | Throws _ => ([], Returns 1)
          | Undefined => ([], Undefined)
          | OutOfFuel => ([], OutOfFuel)
          end).
Proof.
  intros max_size hw image Himg.
  assert (Hrej : forall arg rest e,
            stoul arg = Throws e -> main max_size hw (arg :: rest) image = ([], Returns 1)).
  { intros arg rest e Hthrow. unfold main. cbn [threads_of]. rewrite Hthrow.
    reflexivity. }
  split; [|split; [exact Hrej|split; [|split]]].
  - unfold main. cbn [threads_of]. rewrite Himg.
    destruct (encode_image max_size (uint32_t hw) image). reflexivity.
  - intros c s rest Hspace Hminus Hplus Hdigit.
    apply (Hrej _ rest invalid_argument). now apply stoul_no_number.
  - intros rest. now apply (Hrej _ rest invalid_argument).
  - intros args threads Hthreads Hlt. unfold main. rewrite Hthreads, Himg.
    rewrite encode_image_serial by assumption.
    destruct (encodeQoi max_size image 0 (getHeight image)); reflexivity.
Qed.

(** The argument [abc]. *)
Lemma C9_worker_count_witness :
  let image := column_of opaque_red 1 in
  main libstdcxx_max_size 8 ["abc"%string] image = ([], Returns 1).
Proof.
  exact (proj1 (proj2 (C9_worker_count libstdcxx_max_size 8 (column_of opaque_red 1)
                         eq_refl)) "abc"%string [] invalid_argument eq_refl).
Defined.

(** ** C10: the bytes of flushed runs and the tags 0xFD, 0xFE, 0xFF *)

Lemma tag_of_class : forall op,
  op_wf op ->
  (op_tag op = 0xFD <-> op = OpLongRun)
  /\ (op_tag op = 0xFE <-> exists pixel, op = OpRGB pixel)
  /\ (op_tag op = 0xFF <-> exists pixel, op = OpRGBA pixel).
Proof.
  intros op Hwf. pose proof (op_tag_class op Hwf) as Hc.
  destruct op; cbv beta iota in Hc;
    (split; [|split]); split;
    try (intros E; lia);
    try (intros E; discriminate E);
    try (intros [pixel' E]; discriminate E);
    try (intros _; reflexivity);
    try (intros _; eexists; reflexivity).
Qed.

(** C10: in every chunk the encoder returns, the bytes between header and
    footer are those of the opcodes the encoder pushed, and for each of
    these opcodes: a flushed RUN holds a run length from 1 to 61 and is the
    one byte [0xC0 + (length - 1)], between 0xC0 and 0xFC; the opcode starts
    with the byte 0xFD only if it is LONG_RUN, with 0xFE only if it is RGB,
    with 0xFF only if it is RGBA. The run counter is below 62 after every
    pixel. *)
Theorem C10_run_bytes_and_tags : forall max_size image start_y end_y chunk,
  valid image -> is_size_t start_y ->
  encodeQoi max_size image start_y end_y = Returns chunk ->
  let ops := chunk_ops image start_y end_y in
  chunk = chunk_header image start_y ++ ops_bytes ops ++ chunk_footer image end_y
  /\ (forall pixels,
        run_ok (fold_left encode_pixel pixels (initial_state image start_y)))
  /\ (forall op, In op ops ->
        (forall n, op = OpRun n ->
           1 <= n <= 61 /\ op_bytes op = [0xC0 + (n - 1)]
           /\ 0xC0 <= op_tag op <= 0xFC)
        /\ (op_tag op = 0xFD <-> op = OpLongRun)
        /\ (op_tag op = 0xFE <-> exists pixel, op = OpRGB pixel)
        /\ (op_tag op = 0xFF <-> exists pixel, op = OpRGBA pixel)).
Proof.
  intros max_size image start_y end_y chunk Hv [Hs _] Hret ops.
  assert (Hfit : reserve_request image start_y end_y <= max_size).
  { unfold encodeQoi, reserve in Hret.
    destruct (max_size <? reserve_request image start_y end_y) eqn:E;
      [discriminate Hret|]. now apply Z.ltb_ge in E. }
  rewrite (encodeQoi_shape max_size image start_y end_y Hv Hs Hfit) in Hret.
  injection Hret as Hchunk.
  split; [now symmetry|]. split.
  - intros pixels. apply fold_encode_pixel_run_ok, initial_state_run_ok.
  - intros op Hin.
    assert (Hwf : op_wf op).
    { pose proof (chunk_ops_wf image start_y end_y) as Hall.
      rewrite Forall_forall in Hall. now apply Hall. }
    split; [|now apply tag_of_class].
    intros n ->. simpl in Hwf.
    pose proof (run_tag n Hwf) as Htag.
    split; [assumption|]. split; [|lia].
    unfold op_tag in Htag. cbn [op_bytes hd] in Htag. cbn [op_bytes].
    now rewrite Htag.
Qed.

(** The RUN of length 1 in the encoding of two red pixels. *)
Lemma C10_run_bytes_and_tags_witness :
  let image := row_of opaque_red 2 in
  In (OpRun 1) (chunk_ops image 0 1)
  /\ op_bytes (OpRun 1) = [0xC0 + (1 - 1)].
Proof.
  assert (Hin : In (OpRun 1) (chunk_ops (row_of opaque_red 2) 0 1))
    by (vm_compute; auto).
  split; [exact Hin|].
  assert (Hv : valid (row_of opaque_red 2))
    by (apply valid_row_of; [apply opaque_red_ok | simpl; lia]).
  assert (Hs : is_size_t 0) by (unfold is_size_t; lia).
  exact (proj1 (proj2 (proj1
    (proj2 (proj2 (C10_run_bytes_and_tags libstdcxx_max_size (row_of opaque_red 2) 0 1 _
                     Hv Hs eq_refl)) (OpRun 1) Hin) 1 eq_refl))).
Defined.

(** * Further properties *)

(** ** The pixel storage of [Image] *)

Lemma store_length : forall pixels i value,
  List.length (store pixels i value) = List.length pixels.
Proof.
  induction pixels as [|p rest IH]; intros [|i] value; simpl; auto.
Qed.

Lemma store_nth_same : forall pixels i value d,
  (i < List.length pixels)%nat -> nth i (store pixels i value) d = value.
Proof.
  induction pixels as [|p rest IH]; intros [|i] value d Hi; simpl in *; try lia; auto.
  apply IH. lia.
Qed.

Lemma store_nth_other : forall pixels i j value d,
  i <> j -> nth j (store pixels i value) d = nth j pixels d.
Proof.
  induction pixels as [|p rest IH]; intros [|i] [|j] value d Hij; simpl; auto.
  - congruence.
Qed.

Lemma store_Forall : forall (P : Pixel -> Prop) pixels i value,
  Forall P pixels -> P value -> Forall P (store pixels i value).
Proof.
  intros P pixels. induction pixels as [|p rest IH]; intros [|i] value Hall Hv;
    simpl; auto; inversion Hall; subst; constructor; auto.
Qed.

Lemma setPixel_spec : forall image x y value,
  valid image -> Pixel_ok value ->
  0 <= x < getWidth image -> 0 <= y < getHeight image ->
  exists image',
    setPixel image x y value = Returns image'
    /\ valid image'
    /\ getWidth image' = getWidth image /\ getHeight image' = getHeight image
    /\ getPixel image' x y = Returns value
    /\ (forall x' y', 0 <= x' -> 0 <= y' -> (x', y') <> (x, y) ->
        getPixel image' x' y' = getPixel image x' y').
Proof.
  intros image x y value Hv Hok Hx Hy.
  pose proof Hv as (Hw & Hh & Hlen & Hsz & Hall).
  unfold getWidth, getHeight, is_size_t in *.
  assert (Hidx : forall x' y', 0 <= x' < width_ image -> 0 <= y' < height_ image ->
            size_t (width_ image * y' + x') = width_ image * y' + x'
            /\ 0 <= width_ image * y' + x' < width_ image * height_ image).
  { intros x' y' Hx' Hy'. unfold size_t. rewrite Z.mod_small; nia. }
  destruct (Hidx x y Hx Hy) as [Hi Hrange].
  unfold setPixel.
  replace (x <? width_ image) with true by (symmetry; apply Z.ltb_lt; lia).
  replace (y <? height_ image) with true by (symmetry; apply Z.ltb_lt; lia).
  cbn [andb]. rewrite Hi.
  replace (Z.to_nat (width_ image * y + x) <? List.length (pixels_ image))%nat
    with true by (symmetry; apply Nat.ltb_lt; lia).
  eexists. split; [reflexivity|].
  assert (Hv' : valid (mk (width_ image) (height_ image)
                         (store (pixels_ image) (Z.to_nat (width_ image * y + x)) value))).
  { unfold valid, is_size_t. cbn [width_ height_ pixels_]. rewrite store_length.
    repeat split; try lia. now apply store_Forall. }
  split; [exact Hv'|]. split; [reflexivity|]. split; [reflexivity|]. split.
  - rewrite getPixel_valid by (unfold getWidth, getHeight; simpl; auto).
    unfold pixel_at. cbn [width_ pixels_]. f_equal. apply store_nth_same. lia.
  - intros x' y' Hx' Hy' Hne.
    destruct (Z_lt_dec x' (width_ image)) as [Hxw|Hxw];
      [destruct (Z_lt_dec y' (height_ image)) as [Hyh|Hyh]|].
    + rewrite !getPixel_valid by (unfold getWidth, getHeight; simpl; auto; lia).
      unfold pixel_at. cbn [width_ pixels_]. f_equal. apply store_nth_other.
      intros E. apply Z2Nat.inj in E; try nia.
      apply Hne. assert (y' = y) by nia. subst y'. f_equal. lia.
    + rewrite !getPixel_outside by (unfold getWidth, getHeight; simpl; lia).
      reflexivity.
    + rewrite !getPixel_outside by (unfold getWidth, getHeight; simpl; lia).
      reflexivity.
Qed.

(** X1. On a valid image a write inside the bounds returns, keeps the image
    valid, is read back by [getPixel] at the same coordinate, and leaves
    every other coordinate as it was. *)
Theorem X1_setPixel_getPixel : forall image x y value,
  valid image -> Pixel_ok value ->
  0 <= x < getWidth image -> 0 <= y < getHeight image ->
  exists image',
    setPixel image x y value = Returns image'
    /\ valid image'
    /\ getWidth image' = getWidth image /\ getHeight image' = getHeight image
    /\ getPixel image' x y = Returns value
    /\ (forall x' y', 0 <= x' -> 0 <= y' -> (x', y') <> (x, y) ->
        getPixel image' x' y' = getPixel image x' y').
Proof.
  intros image x y value Hv Hok Hx Hy.
  now apply setPixel_spec.
Qed.

(** A write at the only pixel of a 1x1 image. *)
Lemma X1_setPixel_getPixel_witness :
  exists image',
    setPixel (column_of opaque_red 1) 0 0 transparent_black = Returns image'
    /\ getPixel image' 0 0 = Returns transparent_black.
Proof.
  destruct (X1_setPixel_getPixel (column_of opaque_red 1) 0 0 transparent_black)
    as (image' & Hset & _ & _ & _ & Hget & _).
  - apply valid_column_of; [apply opaque_red_ok | simpl; lia].
  - repeat split; simpl; lia.
  - simpl. lia.
  - simpl. lia.
  - exists image'. split; assumption.
Defined.

Lemma initialized_default : forall width height,
  is_size_t width -> is_size_t height -> width * height < 2 ^ 64 ->
  valid (initialized width height)
  /\ (forall x y, 0 <= x -> 0 <= y ->
      getPixel (initialized width height) x y = Returns (mkPixel 0 0 0 255)).
Proof.
  intros width height Hw Hh Hsz. unfold is_size_t in *.
  assert (Hv : valid (initialized width height)).
  { unfold valid, initialized, is_size_t, size_t. cbn [width_ height_ pixels_].
    rewrite repeat_length, Z.mod_small by nia.
    repeat split; try nia.
    apply Forall_forall. intros q Hq. apply repeat_spec in Hq. subst q.
    repeat split; simpl; lia. }
  split; [exact Hv|].
  intros x y Hx Hy.
  destruct (Z_lt_dec x width) as [Hxw|Hxw]; [destruct (Z_lt_dec y height) as [Hyh|Hyh]|].
  - rewrite getPixel_valid by (unfold getWidth, getHeight; simpl; auto; lia).
    unfold pixel_at, initialized. cbn [width_ pixels_].
    f_equal. apply nth_repeat.
  - apply getPixel_outside. unfold getWidth, getHeight. simpl. lia.
  - apply getPixel_outside. unfold getWidth, getHeight. simpl. lia.
Qed.

Lemma clearAndInitialize_returns : forall max_pixels width height,
  size_t (width * height) <= max_pixels ->
  clearAndInitialize max_pixels width height = Returns (initialized width height).
Proof.
  intros max_pixels width height Hfit. unfold clearAndInitialize.
  now replace (max_pixels <? size_t (width * height)) with false
    by (symmetry; apply Z.ltb_ge; lia).
Qed.

(** X2. [clearAndInitialize] with a pixel count that fits [std::size_t]
    and the vector gives a valid image, and every read of it, inside or
    outside the bounds, yields the default pixel (0,0,0,255). *)
Theorem X2_clearAndInitialize_default : forall max_pixels width height,
  is_size_t width -> is_size_t height -> width * height < 2 ^ 64 ->
  width * height <= max_pixels ->
  exists image,
    clearAndInitialize max_pixels width height = Returns image
    /\ valid image
    /\ (forall x y, 0 <= x -> 0 <= y ->
        getPixel image x y = Returns (mkPixel 0 0 0 255)).
Proof.
  intros max_pixels width height Hw Hh Hsz Hfit.
  exists (initialized width height). split.
  - apply clearAndInitialize_returns. unfold size_t, is_size_t in *.
    rewrite Z.mod_small; nia.
  - now apply initialized_default.
Qed.

Lemma X2_clearAndInitialize_default_witness :
  exists image,
    clearAndInitialize (2 ^ 61 - 1) 3 2 = Returns image
    /\ getPixel image 2 1 = Returns (mkPixel 0 0 0 255).
Proof.
  destruct (X2_clearAndInitialize_default (2 ^ 61 - 1) 3 2) as (image & Hinit & _ & Hget);
    try (unfold is_size_t; simpl; lia).
  exists image. split; [exact Hinit | apply Hget; lia].
Defined.

Lemma initialized_overflow : forall width height x y value,
  0 < width -> 0 < height -> size_t (width * height) = 0 ->
  0 <= x < width -> 0 <= y < height ->
  to_bool (initialized width height) = true
  /\ pixels_ (initialized width height) = []
  /\ getPixel (initialized width height) x y = Undefined
  /\ setPixel (initialized width height) x y value = Undefined.
Proof.
  intros width height x y value Hw Hh Hwrap Hx Hy.
  unfold initialized, to_bool, getPixel, setPixel.
  cbn [width_ height_ pixels_]. rewrite Hwrap. cbn [Z.to_nat repeat List.length].
  replace (width =? 0) with false by (symmetry; apply Z.eqb_neq; lia).
  replace (height =? 0) with false by (symmetry; apply Z.eqb_neq; lia).
  replace (x <? width) with true by (symmetry; apply Z.ltb_lt; lia).
  replace (y <? height) with true by (symmetry; apply Z.ltb_lt; lia).
  cbn [negb andb].
  repeat split.
  now destruct (Z.to_nat (size_t (width * y + x))).
Qed.

(** X3. [clearAndInitialize] does not check the product: when
    [width * height] is a positive multiple of [2^64] it returns an image
    whose storage is empty although the image reports its bounds, and
    every read and every write inside the bounds leaves the storage. *)
Theorem X3_clearAndInitialize_overflow : forall max_pixels width height x y value,
  0 <= max_pixels ->
  0 < width -> 0 < height -> size_t (width * height) = 0 ->
  0 <= x < width -> 0 <= y < height ->
  exists image,
    clearAndInitialize max_pixels width height = Returns image
    /\ to_bool image = true
    /\ pixels_ image = []
    /\ getPixel image x y = Undefined
    /\ setPixel image x y value = Undefined.
Proof.
  intros max_pixels width height x y value Hmax Hw Hh Hwrap Hx Hy.
  exists (initialized width height). split.
  - apply clearAndInitialize_returns. lia.
  - now apply initialized_overflow.
Qed.

Lemma X3_clearAndInitialize_overflow_witness :
  exists image,
    clearAndInitialize (2 ^ 61 - 1) 2 (2 ^ 63) = Returns image
    /\ getPixel image 0 0 = Undefined.
Proof.
  destruct (X3_clearAndInitialize_overflow (2 ^ 61 - 1) 2 (2 ^ 63) 0 0 opaque_red)
    as (image & Hinit & _ & _ & Hget & _); try lia; try reflexivity.
  exists image. split; assumption.
Defined.

(** ** The size of a chunk *)

Lemma op_bytes_length : forall op, (1 <= List.length (op_bytes op) <= 5)%nat.
Proof. intros []; simpl; lia. Qed.

Lemma ops_bytes_app : forall ops1 ops2,
  ops_bytes (ops1 ++ ops2) = ops_bytes ops1 ++ ops_bytes ops2.
Proof. intros. unfold ops_bytes. apply flat_map_app. Qed.

Lemma flushed_length : forall st,
  Z.of_nat (List.length (ops_bytes (flushed st))) = pending st.
Proof.
  intros st. unfold flushed, pending. destruct (run st =? 0); reflexivity.
Qed.

Lemma emitted_length : forall st pixel,
  run_ok st ->
  Z.of_nat (List.length (ops_bytes (emitted st pixel))) + pending (encode_pixel st pixel)
  <= 5 + pending st.
Proof.
  intros st pixel Hrun.
  destruct (Pixel_eqb pixel (previous_pixel st)) eqn:E.
  - apply Pixel_eqb_eq in E. subst pixel.
    rewrite (emitted_repeat st Hrun).
    destruct (encode_pixel_repeat st Hrun) as (_ & _ & Hr).
    unfold pending. rewrite Hr.
    destruct (run st + 1 =? 62); simpl; destruct (run st =? 0);
      destruct (run st + 1 =? 0); lia.
  - apply Pixel_eqb_neq in E.
    destruct (encode_pixel_fresh st pixel E) as (Hem & _ & Hr).
    rewrite Hem, ops_bytes_app, length_app, Nat2Z.inj_add, flushed_length.
    unfold pending. rewrite Hr. cbn [Z.eqb].
    pose proof (op_bytes_length (pixel_op st pixel)) as Hlen.
    unfold ops_bytes. cbn [flat_map]. rewrite app_nil_r.
    destruct (run st =? 0); lia.
Qed.

Lemma trace_length : forall pixels st,
  run_ok st ->
  Z.of_nat (List.length (ops_bytes (trace st pixels)))
  + pending (fold_left encode_pixel pixels st)
  <= 5 * Z.of_nat (List.length pixels) + pending st.
Proof.
  induction pixels as [|pixel rest IH]; intros st Hrun.
  - simpl. lia.
  - cbn [trace fold_left List.length].
    rewrite ops_bytes_app, length_app, Nat2Z.inj_add.
    pose proof (emitted_length st pixel Hrun).
    pose proof (IH (encode_pixel st pixel) (encode_pixel_run_ok st pixel Hrun)).
    lia.
Qed.

Lemma chunk_pixels_length : forall image start_y end_y,
  List.length (chunk_pixels image start_y end_y)
  = (List.length (rows image start_y end_y) * List.length (columns image))%nat.
Proof.
  intros image start_y end_y. unfold chunk_pixels.
  induction (rows image start_y end_y) as [|y ys IH]; [reflexivity|].
  cbn [flat_map List.length]. rewrite length_app, length_map, IH. lia.
Qed.

Lemma write_header_length : forall image,
  List.length (write_header [] image) = 14%nat.
Proof. reflexivity. Qed.

(** X4. A chunk the encoder returns is never longer than 14 bytes of
    header, 5 bytes for every pixel of the rows it encodes, and 8 bytes of
    end marker. *)
Theorem X4_chunk_size_bound : forall max_size image start_y end_y chunk,
  valid image -> is_size_t start_y ->
  encodeQoi max_size image start_y end_y = Returns chunk ->
  Z.of_nat (List.length chunk)
  <= 14 + 5 * (getWidth image * Z.max 0 (Z.min end_y (getHeight image) - start_y)) + 8.
Proof.
  intros max_size image start_y end_y chunk Hv [Hs _] Hret.
  assert (Hfit : reserve_request image start_y end_y <= max_size).
  { unfold encodeQoi, reserve in Hret.
    destruct (max_size <? reserve_request image start_y end_y) eqn:E;
      [discriminate Hret|]. now apply Z.ltb_ge in E. }
  rewrite (encodeQoi_shape max_size image start_y end_y Hv Hs Hfit) in Hret.
  injection Hret as <-.
  rewrite !length_app, !Nat2Z.inj_add.
  assert (Hhead : Z.of_nat (List.length (chunk_header image start_y)) <= 14).
  { unfold chunk_header. destruct (start_y =? 0); [rewrite write_header_length|]; simpl; lia. }
  assert (Hfoot : Z.of_nat (List.length (chunk_footer image end_y)) <= 8).
  { unfold chunk_footer. destruct (footer_due image end_y); simpl; lia. }
  assert (Hbody : Z.of_nat (List.length (ops_bytes (chunk_ops image start_y end_y)))
                  <= 5 * Z.of_nat (List.length (chunk_pixels image start_y end_y))).
  { unfold chunk_ops. rewrite ops_bytes_app, length_app, Nat2Z.inj_add, flushed_length.
    pose proof (trace_length (chunk_pixels image start_y end_y)
                  (initial_state image start_y) (initial_state_run_ok image start_y)) as Ht.
    change (pending (initial_state image start_y)) with 0 in Ht. lia. }
  assert (Hcount : Z.of_nat (List.length (chunk_pixels image start_y end_y))
                   = getWidth image * Z.max 0 (Z.min end_y (getHeight image) - start_y)).
  { rewrite chunk_pixels_length. unfold rows, columns. rewrite !counting_length.
    destruct Hv as ([Hw _] & _). unfold getWidth in *. rewrite Nat2Z.inj_mul.
    rewrite (Z2Nat.id (width_ image)) by lia.
    replace (Z.of_nat (Z.to_nat (Z.min end_y (getHeight image) - start_y)))
      with (Z.max 0 (Z.min end_y (getHeight image) - start_y)) by lia.
    apply Z.mul_comm. }
  lia.
Qed.

Lemma X4_chunk_size_bound_witness :
  Z.of_nat (List.length (write_header [] (row_of opaque_red 2) ++ [0x5A; 0xC0] ++ end_marker))
  <= 14 + 5 * (2 * Z.max 0 (Z.min 1 1 - 0)) + 8.
Proof.
  refine (X4_chunk_size_bound libstdcxx_max_size (row_of opaque_red 2) 0 1 _ _ _ eq_refl).
  - apply valid_row_of; [apply opaque_red_ok | simpl; lia].
  - unfold is_size_t. lia.
Defined.

(** ** A chunk depends on the dimensions and on its own rows *)

Lemma flat_map_ext_in : forall (A B : Type) (f g : A -> list B) (l : list A),
  (forall x, In x l -> f x = g x) -> flat_map f l = flat_map g l.
Proof.
  intros A B f g l. induction l as [|x l IH]; intros Hext; [reflexivity|].
  cbn [flat_map]. rewrite (Hext x (in_eq x l)), IH; [reflexivity|].
  intros y Hy. apply Hext. now right.
Qed.

Lemma initial_state_dimensions : forall image1 image2 start_y,
  getWidth image1 = getWidth image2 -> getHeight image1 = getHeight image2 ->
  initial_state image1 start_y = initial_state image2 start_y.
Proof.
  intros image1 image2 start_y Hw Hh. unfold initial_state, write_header.
  now rewrite Hw, Hh.
Qed.

(** X5. Two valid images of the same width and height that agree on the
    rows of a range give the same chunk for that range, with the same
    outcome of the call: the encoder reads nothing else of the image. *)
Theorem X5_chunk_depends_on_its_rows : forall max_size image1 image2 start_y end_y,
  valid image1 -> valid image2 ->
  getWidth image1 = getWidth image2 -> getHeight image1 = getHeight image2 ->
  is_size_t start_y ->
  (forall x y, 0 <= x < getWidth image1 ->
               start_y <= y < Z.min end_y (getHeight image1) ->
               getPixel image1 x y = getPixel image2 x y) ->
  encodeQoi max_size image1 start_y end_y = encodeQoi max_size image2 start_y end_y.
Proof.
  intros max_size image1 image2 start_y end_y Hv1 Hv2 Hw Hh [Hs _] Hrows.
  unfold encodeQoi, reserve_request, footer_due.
  rewrite !encode_body_valid by assumption.
  rewrite (initial_state_dimensions image1 image2 start_y Hw Hh).
  assert (Hpx : chunk_pixels image1 start_y end_y = chunk_pixels image2 start_y end_y).
  { unfold chunk_pixels, rows, columns. rewrite <- Hw, <- Hh.
    apply flat_map_ext_in. intros y Hy. apply map_ext_in. intros x Hx.
    apply counting_In in Hx, Hy.
    assert (Hxb : 0 <= x < getWidth image1) by lia.
    assert (Hyb : start_y <= y < Z.min end_y (getHeight image1)) by lia.
    specialize (Hrows x y Hxb Hyb).
    rewrite (getPixel_valid image1), (getPixel_valid image2) in Hrows; try assumption; try lia.
    now injection Hrows. }
  now rewrite Hpx, Hw, Hh.
Qed.

Lemma X5_chunk_depends_on_its_rows_witness :
  encodeQoi libstdcxx_max_size (Image.mk 1 2 [opaque_red; opaque_red]) 1 2
  = encodeQoi libstdcxx_max_size (Image.mk 1 2 [transparent_black; opaque_red]) 1 2.
Proof.
  assert (Hok : forall p q, Pixel_ok p -> Pixel_ok q -> valid (Image.mk 1 2 [p; q])).
  { intros p q Hp Hq. unfold valid, is_size_t. simpl. repeat split; try lia.
    constructor; [assumption|]. constructor; [assumption|]. constructor. }
  apply X5_chunk_depends_on_its_rows.
  - apply Hok; apply opaque_red_ok.
  - apply Hok; [repeat split; simpl; lia | apply opaque_red_ok].
  - reflexivity.
  - reflexivity.
  - unfold is_size_t. lia.
  - intros x y Hx Hy. simpl in Hx, Hy.
    assert (x = 0) by lia. assert (y = 1) by lia. subst. reflexivity.
Defined.

(** ** The header *)

Lemma big_endian_sum : forall value,
  0 <= value < 4294967296 ->
  (value / 16777216) mod 256 * 16777216 + (value / 65536) mod 256 * 65536
  + (value / 256) mod 256 * 256 + value mod 256 = value.
Proof.
  intros value Hv.
  pose proof (Z.div_mod value 256 ltac:(lia)).
  pose proof (Z.div_mod (value / 256) 256 ltac:(lia)).
  pose proof (Z.div_mod (value / 65536) 256 ltac:(lia)).
  replace (value / 65536) with (value / 256 / 256) in *
    by (rewrite Z.div_div by lia; reflexivity).
  replace (value / 16777216) with (value / 256 / 256 / 256) in *
    by (rewrite !Z.div_div by lia; reflexivity).
  pose proof (Z.div_mod (value / 256 / 256 / 256) 256 ltac:(lia)).
  assert (value / 256 / 256 / 256 / 256 = 0).
  { rewrite !Z.div_div by lia. apply Z.div_small. lia. }
  lia.
Qed.

Lemma encode_be_bytes : forall value,
  0 <= value < 2 ^ 32 ->
  exists b3 b2 b1 b0,
    encode_be [] value = [b3; b2; b1; b0]
    /\ is_uint8_t b3 /\ is_uint8_t b2 /\ is_uint8_t b1 /\ is_uint8_t b0
    /\ b3 * 2 ^ 24 + b2 * 2 ^ 16 + b1 * 2 ^ 8 + b0 = value.
Proof.
  intros value Hv. unfold encode_be, push_back. cbn [app].
  do 4 eexists. split; [reflexivity|].
  unfold is_uint8_t, uint8_t. rewrite !Z.shiftr_div_pow2 by lia.
  repeat split; try (apply Z.mod_pos_bound; lia).
  change (2 ^ 8) with 256. change (2 ^ 16) with 65536.
  change (2 ^ 24) with 16777216. change (2 ^ 32) with 4294967296 in Hv.
  now apply big_endian_sum.
Qed.

Lemma write_header_encode_be : forall image,
  write_header [] image
  = magic ++ encode_be [] (uint32_t (getWidth image))
      ++ encode_be [] (uint32_t (getHeight image)) ++ [4; 0].
Proof. reflexivity. Qed.

Lemma header_bytes : forall image,
  exists w3 w2 w1 w0 h3 h2 h1 h0,
    write_header [] image
    = [0x71; 0x6F; 0x69; 0x66; w3; w2; w1; w0; h3; h2; h1; h0; 4; 0]
    /\ Forall is_uint8_t [w3; w2; w1; w0; h3; h2; h1; h0]
    /\ w3 * 2 ^ 24 + w2 * 2 ^ 16 + w1 * 2 ^ 8 + w0 = getWidth image mod 2 ^ 32
    /\ h3 * 2 ^ 24 + h2 * 2 ^ 16 + h1 * 2 ^ 8 + h0 = getHeight image mod 2 ^ 32.
Proof.
  intros image. rewrite write_header_encode_be.
  destruct (encode_be_bytes (uint32_t (getWidth image)))
    as (w3 & w2 & w1 & w0 & -> & Hw3 & Hw2 & Hw1 & Hw0 & Hw);
    [apply uint32_t_range|].
  destruct (encode_be_bytes (uint32_t (getHeight image)))
    as (h3 & h2 & h1 & h0 & -> & Hh3 & Hh2 & Hh1 & Hh0 & Hh);
    [apply uint32_t_range|].
  exists w3, w2, w1, w0, h3, h2, h1, h0.
  split; [reflexivity|].
  split; [repeat (constructor; [assumption|]); constructor|].
  split; assumption.
Qed.

(** X6. The header is the four bytes of "qoif", the width and the height
    as four bytes each, most significant first, then the bytes 4 and 0. The
    two numbers are recorded modulo [2^32]: exactly when they are below
    [2^32]. *)
Theorem X6_header_bytes : forall image,
  exists w3 w2 w1 w0 h3 h2 h1 h0,
    write_header [] image
    = [0x71; 0x6F; 0x69; 0x66; w3; w2; w1; w0; h3; h2; h1; h0; 4; 0]
    /\ Forall is_uint8_t [w3; w2; w1; w0; h3; h2; h1; h0]
    /\ w3 * 2 ^ 24 + w2 * 2 ^ 16 + w1 * 2 ^ 8 + w0 = getWidth image mod 2 ^ 32
    /\ h3 * 2 ^ 24 + h2 * 2 ^ 16 + h1 * 2 ^ 8 + h0 = getHeight image mod 2 ^ 32.
Proof.
  intros image.
  destruct (header_bytes image)
    as (w3 & w2 & w1 & w0 & h3 & h2 & h1 & h0 & Hbytes & Hrange & Hw & Hh).
  exists w3, w2, w1, w0, h3, h2, h1, h0. repeat split; assumption.
Qed.

(** ** The encoder loses nothing *)

Lemma byte_from_difference : forall x y,
  is_uint8_t x -> is_uint8_t y -> uint8_t (y + int8_t (x - y)) = x.
Proof.
  intros x y Hx Hy. unfold is_uint8_t, uint8_t, int8_t in *.
  change (2 ^ 8) with 256 in *.
  pose proof (Z.div_mod (x - y + 128) 256 ltac:(lia)) as Hdm.
  set (m := (x - y + 128) mod 256) in *.
  set (q := (x - y + 128) / 256) in *.
  replace (y + (m - 128)) with (x + (- q) * 256) by lia.
  rewrite Z.mod_add by lia. apply Z.mod_small. lia.
Qed.

Lemma byte_from_luma : forall x y vg,
  is_uint8_t x -> is_uint8_t y ->
  uint8_t (y + vg + int8_t (int8_t (x - y) - vg)) = x.
Proof.
  intros x y vg Hx Hy. unfold is_uint8_t, uint8_t, int8_t in *.
  change (2 ^ 8) with 256 in *.
  pose proof (Z.div_mod (x - y + 128) 256 ltac:(lia)) as Hdm.
  set (m := (x - y + 128) mod 256) in *.
  set (q := (x - y + 128) / 256) in *.
  pose proof (Z.div_mod (m - 128 - vg + 128) 256 ltac:(lia)) as Hdm2.
  set (m2 := (m - 128 - vg + 128) mod 256) in *.
  set (q2 := (m - 128 - vg + 128) / 256) in *.
  replace (y + vg + (m2 - 128)) with (x + (- q - q2) * 256) by lia.
  rewrite Z.mod_add by lia. apply Z.mod_small. lia.
Qed.

Lemma encode_pixel_index : forall st pixel,
  pixel <> previous_pixel st ->
  index (encode_pixel st pixel)
  = if holds (index_at (index st) (pixel_hash pixel)) pixel then index st
    else index_assign (index st) (Z.to_nat (pixel_hash pixel)) pixel.
Proof.
  intros st pixel Hne. apply Pixel_eqb_neq in Hne.
  unfold encode_pixel. rewrite Hne. unfold flush_run.
  destruct (run st =? 0); cbn [index previous_pixel run res];
    split_ifs; reflexivity.
Qed.

Lemma holds_eq : forall slot pixel,
  holds slot pixel = true -> slot = Some pixel.
Proof.
  intros [p|] pixel H; simpl in H; [|discriminate].
  apply Pixel_eqb_eq in H. now subst.
Qed.

Lemma replay_pixel_op : forall st pixel,
  Pixel_ok pixel -> Pixel_ok (previous_pixel st) ->
  pixel <> previous_pixel st ->
  replay_op (index st) (previous_pixel st) (pixel_op st pixel)
  = ([pixel], (index (encode_pixel st pixel), pixel)).
Proof.
  intros st [pr pg pb pa] (Hr & Hg & Hb & Ha) (Hqr & Hqg & Hqb & Hqa) Hne.
  rewrite (encode_pixel_index st _ Hne). unfold pixel_op.
  cbn [r g b a] in *.
  destruct (holds _ _) eqn:Ehit.
  - apply holds_eq in Ehit. cbn [replay_op]. now rewrite Ehit.
  - destruct (negb (pa =? a (previous_pixel st))) eqn:Ea; [reflexivity|].
    apply negb_false_iff, Z.eqb_eq in Ea.
    destruct (is_within _ (-2) 1 && is_within _ (-2) 1 && is_within _ (-2) 1).
    + cbn [replay_op]. rewrite !byte_from_difference by assumption.
      now rewrite <- Ea.
    + destruct (is_within _ (-8) 7 && is_within _ (-32) 31 && is_within _ (-8) 7).
      * cbn [replay_op]. rewrite !byte_from_luma, byte_from_difference by assumption.
        now rewrite <- Ea.
      * cbn [replay_op r g b]. now rewrite <- Ea.
Qed.

Lemma replay_app : forall ops1 ops2 index previous,
  replay index previous (ops1 ++ ops2)
  = let '(pixels1, (index1, previous1)) := replay index previous ops1 in
    let '(pixels2, final) := replay index1 previous1 ops2 in
    (pixels1 ++ pixels2, final).
Proof.
  induction ops1 as [|op ops1 IH]; intros ops2 index0 previous0.
  - cbn [app replay]. now destruct (replay index0 previous0 ops2).
  - cbn [app replay].
    destruct (replay_op index0 previous0 op) as [pixels1 [index1 previous1]].
    rewrite IH.
    destruct (replay index1 previous1 ops1) as [pixels2 [index2 previous2]].
    destruct (replay index2 previous2 ops2) as [pixels3 final].
    now rewrite app_assoc.
Qed.

Lemma replay_flushed : forall st,
  run_ok st ->
  replay (index st) (previous_pixel st) (flushed st)
  = (repeat (previous_pixel st) (Z.to_nat (run st)), (index st, previous_pixel st)).
Proof.
  intros st Hrun. unfold flushed. destruct (run st =? 0) eqn:E.
  - apply Z.eqb_eq in E. rewrite E. reflexivity.
  - cbn [replay replay_op]. now rewrite app_nil_r.
Qed.

(** Replaying what the loop pushes, and the last run, gives back the
    pixels, behind those of the run that was pending at the start. *)
Lemma replay_trace : forall pixels st,
  run_ok st -> Pixel_ok (previous_pixel st) -> Forall Pixel_ok pixels ->
  fst (replay (index st) (previous_pixel st)
         (trace st pixels ++ flushed (fold_left encode_pixel pixels st)))
  = repeat (previous_pixel st) (Z.to_nat (run st)) ++ pixels.
Proof.
  induction pixels as [|pixel rest IH]; intros st Hrun Hprev Hall.
  - cbn [trace fold_left app]. rewrite replay_flushed by assumption.
    cbn [fst]. now rewrite app_nil_r.
  - inversion Hall as [|? ? Hpixel Hrest]; subst.
    cbn [trace fold_left].
    pose proof (encode_pixel_run_ok st pixel Hrun) as Hrun1.
    destruct (Pixel_eqb pixel (previous_pixel st)) eqn:E.
    + apply Pixel_eqb_eq in E. subst pixel.
      destruct (encode_pixel_repeat st Hrun) as (Hp & Hi & Hr).
      specialize (IH (encode_pixel st (previous_pixel st)) Hrun1).
      rewrite Hp, Hi, Hr in IH. specialize (IH Hprev Hrest).
      rewrite (emitted_repeat st Hrun).
      unfold run_ok in Hrun.
      destruct (run st + 1 =? 62) eqn:E62.
      * apply Z.eqb_eq in E62.
        cbn [app replay replay_op].
        destruct (replay (index st) (previous_pixel st) _) as [pixels2 final].
        cbn [fst] in *. rewrite IH.
        replace (Z.to_nat (run st)) with 61%nat by lia.
        change (repeat (previous_pixel st) (Z.to_nat 0)) with (@nil Pixel).
        change (repeat (previous_pixel st) 62)
          with (repeat (previous_pixel st) 61 ++ [previous_pixel st]).
        rewrite <- app_assoc. reflexivity.
      * cbn [app]. rewrite IH.
        replace (Z.to_nat (run st + 1)) with (Z.to_nat (run st) + 1)%nat by lia.
        rewrite repeat_app, <- app_assoc. reflexivity.
    + apply Pixel_eqb_neq in E.
      destruct (encode_pixel_fresh st pixel E) as (Hem & Hp & Hr).
      specialize (IH (encode_pixel st pixel) Hrun1).
      rewrite Hp, Hr in IH. specialize (IH Hpixel Hrest).
      rewrite Hem, <- !app_assoc, replay_app, replay_flushed by assumption.
      cbn [app replay].
      rewrite (replay_pixel_op st pixel Hpixel Hprev E).
      destruct (replay (index (encode_pixel st pixel)) pixel _) as [pixels2 final].
      cbn [fst] in *. rewrite IH. reflexivity.
Qed.

Lemma luma_payload : forall vg vg_r vg_b,
  -8 <= vg_r <= 7 -> -8 <= vg_b <= 7 ->
  nth 1 (op_bytes (OpLuma vg vg_r vg_b)) 0 = 16 * (vg_r + 8) + (vg_b + 8).
Proof.
  intros vg vg_r vg_b Hr Hb.
  pose (ok := fun vg_r vg_b =>
    nth 1 (op_bytes (OpLuma vg vg_r vg_b)) 0 =? 16 * (vg_r + 8) + (vg_b + 8)).
  assert (Hall : forallb (fun vg_r => forallb (ok vg_r) (counting (-8) 16))
                   (counting (-8) 16) = true)
    by (vm_compute; reflexivity).
  apply Z.eqb_eq. change (ok vg_r vg_b = true).
  pose proof (forallb_counting _ _ _ Hall vg_r ltac:(simpl; lia)) as H1.
  exact (forallb_counting _ _ _ H1 vg_b ltac:(simpl; lia)).
Qed.

Lemma uint8_t_small : forall z, is_uint8_t z -> uint8_t z = z.
Proof. intros z Hz. unfold uint8_t. now apply Z.mod_small. Qed.

(** The bytes of an opcode, as numbers. *)
Lemma op_bytes_explicit : forall op,
  op_ok op ->
  op_bytes op
  = match op with
    | OpLongRun => [0xFD]
    | OpRun n => [0xC0 + (n - 1)]
    | OpIndex hash => [hash]
    | OpRGBA pixel => [0xFF; r pixel; g pixel; b pixel; a pixel]
    | OpDiff vr vg vb => [0x40 + 16 * (vr + 2) + 4 * (vg + 2) + (vb + 2)]
    | OpLuma vg vg_r vg_b => [0x80 + (vg + 32); 16 * (vg_r + 8) + (vg_b + 8)]
    | OpRGB pixel => [0xFE; r pixel; g pixel; b pixel]
    end.
Proof.
  intros [ |n|hash|pixel|vr vg vb|vg vg_r vg_b|pixel] [Hwf Hpx]; simpl in Hwf, Hpx.
  - reflexivity.
  - change (op_bytes (OpRun n)) with [op_tag (OpRun n)]. now rewrite run_tag.
  - change (op_bytes (OpIndex hash)) with [op_tag (OpIndex hash)].
    now rewrite index_tag.
  - destruct Hpx as (Hr & Hg & Hb & Ha). cbn [op_bytes].
    now rewrite !uint8_t_small.
  - destruct Hwf as (Hr & Hg & Hb).
    change (op_bytes (OpDiff vr vg vb)) with [op_tag (OpDiff vr vg vb)].
    now rewrite diff_tag.
  - destruct Hwf as (Hg & Hr & Hb).
    change (op_bytes (OpLuma vg vg_r vg_b))
      with [op_tag (OpLuma vg vg_r vg_b); nth 1 (op_bytes (OpLuma vg vg_r vg_b)) 0].
    now rewrite luma_tag, luma_payload.
  - destruct Hpx as (Hr & Hg & Hb & Ha). cbn [op_bytes].
    now rewrite !uint8_t_small.
Qed.

Lemma cons_eq_inv : forall (A : Type) (x y : A) (l l' : list A),
  x :: l = y :: l' -> x = y /\ l = l'.
Proof. intros A x y l l' H. injection H. auto. Qed.

Ltac split_cons H :=
  repeat (let E := fresh "E" in apply cons_eq_inv in H; destruct H as [E H]).

(** No opcode is the start of another: the bytes tell the opcodes apart. *)
Lemma op_bytes_unique : forall op1 op2 rest1 rest2,
  op_ok op1 -> op_ok op2 ->
  op_bytes op1 ++ rest1 = op_bytes op2 ++ rest2 ->
  canonical op1 = canonical op2 /\ rest1 = rest2.
Proof.
  intros op1 op2 rest1 rest2 Hok1 Hok2 Heq.
  rewrite (op_bytes_explicit op1 Hok1), (op_bytes_explicit op2 Hok2) in Heq.
  destruct Hok1 as [Hwf1 Hpx1], Hok2 as [Hwf2 Hpx2].
  destruct op1 as [ |n1|h1|p1|vr1 vg1 vb1|vg1 vr1 vb1|p1];
    destruct op2 as [ |n2|h2|p2|vr2 vg2 vb2|vg2 vr2 vb2|p2];
    cbn [app] in Heq; simpl in Hwf1, Hwf2, Hpx1, Hpx2; split_cons Heq;
    cbn [canonical];
    try (exfalso; lia);
    try (split; [reflexivity | assumption]);
    try (split; [f_equal; lia | assumption]).
  - destruct p1, p2. cbn [r g b a] in *. subst. split; reflexivity.
  - destruct p1, p2. cbn [r g b a] in *. subst. split; reflexivity.
Qed.

Lemma ops_bytes_unique : forall ops1 ops2,
  Forall op_ok ops1 -> Forall op_ok ops2 ->
  ops_bytes ops1 = ops_bytes ops2 ->
  map canonical ops1 = map canonical ops2.
Proof.
  induction ops1 as [|op1 ops1 IH]; intros [|op2 ops2] Hok1 Hok2 Heq.
  - reflexivity.
  - exfalso. apply (f_equal (@List.length Z)) in Heq.
    unfold ops_bytes in Heq. cbn [flat_map] in Heq. rewrite length_app in Heq.
    pose proof (op_bytes_length op2). simpl in Heq. lia.
  - exfalso. apply (f_equal (@List.length Z)) in Heq.
    unfold ops_bytes in Heq. cbn [flat_map] in Heq. rewrite length_app in Heq.
    pose proof (op_bytes_length op1). simpl in Heq. lia.
  - inversion Hok1; inversion Hok2; subst.
    unfold ops_bytes in Heq. cbn [flat_map] in Heq.
    destruct (op_bytes_unique op1 op2 _ _ ltac:(assumption) ltac:(assumption) Heq)
      as [Hop Hrest].
    cbn [map]. rewrite Hop. f_equal. now apply IH.
Qed.

Lemma replay_canonical : forall ops index previous,
  replay index previous (map canonical ops) = replay index previous ops.
Proof.
  induction ops as [|op ops IH]; intros index0 previous0; [reflexivity|].
  cbn [map replay].
  assert (Hop : replay_op index0 previous0 (canonical op) = replay_op index0 previous0 op)
    by (destruct op; reflexivity).
  rewrite Hop. destruct (replay_op index0 previous0 op) as [pixels1 [index1 previous1]].
  now rewrite IH.
Qed.

(** The opcodes of a chunk pack values that fit. *)
Lemma pixel_op_ok : forall st pixel, Pixel_ok pixel -> op_ok (pixel_op st pixel).
Proof.
  intros st pixel Hok. split; [apply pixel_op_wf|].
  unfold pixel_op. split_ifs; auto.
Qed.

Lemma flushed_ok : forall st, run_ok st -> Forall op_ok (flushed st).
Proof.
  intros st Hrun. pose proof (flushed_wf st Hrun) as Hwf.
  unfold flushed in *. destruct (run st =? 0); [constructor|].
  inversion Hwf; subst. constructor; [split; [assumption | exact I] | constructor].
Qed.

Lemma trace_ok : forall pixels st,
  run_ok st -> Forall Pixel_ok pixels -> Forall op_ok (trace st pixels).
Proof.
  induction pixels as [|pixel rest IH]; intros st Hrun Hall; [constructor|].
  inversion Hall; subst. cbn [trace]. apply Forall_app. split.
  - unfold emitted. destruct (Pixel_eqb _ _).
    + destruct (_ =? 62); repeat constructor.
    + apply Forall_app. split; [now apply flushed_ok|].
      constructor; [now apply pixel_op_ok | constructor].
  - apply IH; [now apply encode_pixel_run_ok | assumption].
Qed.

Lemma chunk_pixels_ok : forall image start_y end_y,
  valid image -> Forall Pixel_ok (chunk_pixels image start_y end_y).
Proof.
  intros image start_y end_y (_ & _ & _ & _ & Hall). unfold chunk_pixels.
  apply Forall_flat_map. apply Forall_forall. intros y _.
  apply Forall_map. apply Forall_forall. intros x _. unfold pixel_at.
  destruct (nth_in_or_default (Z.to_nat (width_ image * y + x)) (pixels_ image)
              Pixel_default) as [Hin | ->].
  - rewrite Forall_forall in Hall. now apply Hall.
  - repeat split; simpl; lia.
Qed.

Lemma chunk_ops_ok : forall image start_y end_y,
  valid image -> Forall op_ok (chunk_ops image start_y end_y).
Proof.
  intros image start_y end_y Hv. unfold chunk_ops. apply Forall_app. split.
  - apply trace_ok; [apply initial_state_run_ok | now apply chunk_pixels_ok].
  - apply flushed_ok, fold_encode_pixel_run_ok, initial_state_run_ok.
Qed.

(** The pixels of a chunk are what its opcodes replay to. *)
Lemma replay_chunk_ops : forall image start_y end_y,
  valid image ->
  fst (replay (index (initial_state image start_y)) (mkPixel 0 0 0 255)
         (chunk_ops image start_y end_y))
  = chunk_pixels image start_y end_y.
Proof.
  intros image start_y end_y Hv. unfold chunk_ops.
  pose proof (replay_trace (chunk_pixels image start_y end_y)
                (initial_state image start_y) (initial_state_run_ok image start_y)) as Hr.
  change (previous_pixel (initial_state image start_y)) with (mkPixel 0 0 0 255) in Hr.
  change (run (initial_state image start_y)) with 0 in Hr.
  apply Hr; [repeat split; simpl; lia | now apply chunk_pixels_ok].
Qed.

Lemma chunk_lossless : forall max_size image1 image2 start_y end_y chunk,
  valid image1 -> valid image2 ->
  getWidth image1 = getWidth image2 -> getHeight image1 = getHeight image2 ->
  is_size_t start_y ->
  encodeQoi max_size image1 start_y end_y = Returns chunk ->
  encodeQoi max_size image2 start_y end_y = Returns chunk ->
  chunk_pixels image1 start_y end_y = chunk_pixels image2 start_y end_y.
Proof.
  intros max_size image1 image2 start_y end_y chunk Hv1 Hv2 Hw Hh [Hs _] Hret1 Hret2.
  apply encodeQoi_returns_shape in Hret1; try assumption.
  apply encodeQoi_returns_shape in Hret2; try assumption.
  assert (Hhead : chunk_header image1 start_y = chunk_header image2 start_y).
  { unfold chunk_header, write_header. now rewrite Hw, Hh. }
  assert (Hfoot : chunk_footer image1 end_y = chunk_footer image2 end_y).
  { unfold chunk_footer, footer_due. now rewrite Hh. }
  rewrite Hret1, Hhead, Hfoot in Hret2.
  apply app_inv_head, app_inv_tail in Hret2.
  apply ops_bytes_unique in Hret2; try now apply chunk_ops_ok.
  rewrite <- (replay_chunk_ops image1 start_y end_y Hv1).
  rewrite <- (replay_chunk_ops image2 start_y end_y Hv2).
  rewrite (initial_state_dimensions image1 image2 start_y Hw Hh).
  rewrite <- (replay_canonical (chunk_ops image1 start_y end_y)).
  rewrite <- (replay_canonical (chunk_ops image2 start_y end_y)).
  now rewrite Hret2.
Qed.

(** X7. The chunk encoder loses nothing: when two valid images of the same
    width and height give the same chunk for a row range, they have the
    same pixels in the rows of that range. *)
Theorem X7_chunk_lossless : forall max_size image1 image2 start_y end_y chunk,
  valid image1 -> valid image2 ->
  getWidth image1 = getWidth image2 -> getHeight image1 = getHeight image2 ->
  is_size_t start_y ->
  encodeQoi max_size image1 start_y end_y = Returns chunk ->
  encodeQoi max_size image2 start_y end_y = Returns chunk ->
  chunk_pixels image1 start_y end_y = chunk_pixels image2 start_y end_y.
Proof.
  intros max_size image1 image2 start_y end_y chunk Hv1 Hv2 Hw Hh Hs Hret1 Hret2.
  now apply (chunk_lossless max_size image1 image2 start_y end_y chunk).
Qed.

(** ** The rows of an image, one after the other, are its pixels *)

Lemma counting_succ : forall from count,
  counting from (S count) = counting from count ++ [from + Z.of_nat count].
Proof.
  intros from count. unfold counting. rewrite seq_S, map_app. reflexivity.
Qed.

Lemma map_nth_counting : forall (pixels : list Pixel) (k n : nat) d,
  (k + n <= List.length pixels)%nat ->
  map (fun i => nth (Z.to_nat i) pixels d) (counting (Z.of_nat k) n)
  = firstn n (skipn k pixels).
Proof.
  intros pixels k n d. revert pixels k.
  induction n as [|n IH]; intros pixels k Hlen; [reflexivity|].
  unfold counting. cbn [seq map]. rewrite Z.add_0_r, Nat2Z.id.
  destruct (skipn k pixels) as [|p rest] eqn:Eskip.
  - apply (f_equal (@List.length Pixel)) in Eskip. rewrite length_skipn in Eskip.
    simpl in Eskip. lia.
  - cbn [firstn]. f_equal.
    + rewrite <- (firstn_skipn k pixels) at 1. rewrite Eskip.
      rewrite app_nth2 by (rewrite length_firstn; lia).
      rewrite length_firstn. replace (k - Nat.min k (List.length pixels))%nat with 0%nat by lia.
      reflexivity.
    + specialize (IH pixels (S k) ltac:(lia)).
      assert (Hrest : skipn (S k) pixels = rest).
      { replace (S k) with (1 + k)%nat by lia. rewrite <- skipn_skipn, Eskip. reflexivity. }
      rewrite Hrest in IH. rewrite <- IH. unfold counting.
      rewrite <- (seq_shift n 0), !map_map. apply map_ext. intros i.
      f_equal. lia.
Qed.

Lemma rows_of_pixels : forall (pixels : list Pixel) (w h : nat) d,
  (w * h <= List.length pixels)%nat ->
  flat_map (fun y => map (fun x => nth (Z.to_nat (Z.of_nat w * y + x)) pixels d)
                       (counting 0 w))
           (counting 0 h)
  = firstn (w * h) pixels.
Proof.
  intros pixels w h d. induction h as [|h IH]; intros Hlen.
  - rewrite Nat.mul_0_r. reflexivity.
  - rewrite counting_succ, flat_map_app, IH by lia. cbn [flat_map].
    rewrite app_nil_r.
    assert (Hrow : map (fun x => nth (Z.to_nat (Z.of_nat w * (0 + Z.of_nat h) + x)) pixels d)
                     (counting 0 w)
                   = firstn w (skipn (w * h) pixels)).
    { rewrite <- (map_nth_counting pixels (w * h) w d) by lia.
      unfold counting. rewrite !map_map. apply map_ext. intros i. f_equal. lia. }
    rewrite Hrow.
    replace (w * S h)%nat with (w * h + w)%nat by lia.
    rewrite <- (firstn_skipn (w * h) (firstn (w * h + w) pixels)).
    rewrite firstn_firstn, Nat.min_l by lia.
    f_equal. rewrite skipn_firstn_comm.
    replace (w * h + w - w * h)%nat with w by lia. reflexivity.
Qed.

Lemma chunk_pixels_all : forall image,
  valid image -> chunk_pixels image 0 (getHeight image) = pixels_ image.
Proof.
  intros image (Hw & Hh & Hlen & _). unfold is_size_t, getHeight in *.
  unfold chunk_pixels, rows, columns, pixel_at, getWidth, getHeight.
  rewrite Z.min_id, Z.sub_0_r.
  pose proof (rows_of_pixels (pixels_ image) (Z.to_nat (width_ image))
                (Z.to_nat (height_ image)) Pixel_default) as Hrows.
  rewrite Z2Nat.id in Hrows by lia.
  rewrite Hrows by nia.
  apply firstn_all2. nia.
Qed.

(** X8. The serial encoding determines the image: two valid images whose
    width and height are below [2^32] (so that the header holds them) and
    whose encodings with fewer than two workers are the same bytes are the
    same image. *)
Theorem X8_serial_encoding_injective : forall max_size image1 image2 bytes,
  valid image1 -> valid image2 ->
  getWidth image1 < 2 ^ 32 -> getHeight image1 < 2 ^ 32 ->
  getWidth image2 < 2 ^ 32 -> getHeight image2 < 2 ^ 32 ->
  encode_image max_size 1 image1 = (bytes, Returns tt) ->
  encode_image max_size 1 image2 = (bytes, Returns tt) ->
  image1 = image2.
Proof.
  intros max_size image1 image2 bytes Hv1 Hv2 Hw1 Hh1 Hw2 Hh2 He1 He2.
  assert (Hret : forall image,
            encode_image max_size 1 image = (bytes, Returns tt) ->
            encodeQoi max_size image 0 (getHeight image) = Returns bytes).
  { intros image He. rewrite encode_image_serial in He by lia.
    destruct (encodeQoi max_size image 0 (getHeight image)); inversion He; reflexivity. }
  apply Hret in He1, He2.
  pose proof (encodeQoi_returns_shape _ _ _ _ _ Hv1 (Z.le_refl 0) He1) as Hs1.
  pose proof (encodeQoi_returns_shape _ _ _ _ _ Hv2 (Z.le_refl 0) He2) as Hs2.
  change (chunk_header image1 0) with (write_header [] image1) in Hs1.
  change (chunk_header image2 0) with (write_header [] image2) in Hs2.
  assert (Hdims : getWidth image1 = getWidth image2 /\ getHeight image1 = getHeight image2).
  { destruct (header_bytes image1)
      as (a3 & a2 & a1 & a0 & b3 & b2 & b1 & b0 & Ha & _ & Hwa & Hha).
    destruct (header_bytes image2)
      as (c3 & c2 & c1 & c0 & d3 & d2 & d1 & d0 & Hc & _ & Hwc & Hhc).
    rewrite Hs1 in Hs2. rewrite Ha, Hc in Hs2.
    apply (f_equal (firstn 14)) in Hs2. cbn [firstn app] in Hs2.
    split_cons Hs2. subst.
    destruct Hv1 as ([? _] & [? _] & _), Hv2 as ([? _] & [? _] & _).
    unfold getWidth, getHeight in *.
    rewrite Z.mod_small in Hwa, Hha, Hwc, Hhc by lia. lia. }
  destruct Hdims as [Hw Hh].
  rewrite Hh in He1 at 1.
  assert (Hpx : chunk_pixels image1 0 (getHeight image2)
                = chunk_pixels image2 0 (getHeight image2)).
  { apply (chunk_lossless max_size image1 image2 0 (getHeight image2) bytes);
      try assumption. unfold is_size_t. lia. }
  rewrite <- Hh in Hpx at 1. rewrite !chunk_pixels_all in Hpx by assumption.
  unfold getWidth, getHeight in *.
  destruct image1, image2. cbn [width_ height_ pixels_] in *. now subst.
Qed.

Lemma X7_chunk_lossless_witness :
  chunk_pixels (row_of opaque_red 2) 0 1 = chunk_pixels (row_of opaque_red 2) 0 1.
Proof.
  assert (Hv : valid (row_of opaque_red 2))
    by (apply valid_row_of; [apply opaque_red_ok | simpl; lia]).
  assert (Hs : is_size_t 0) by (unfold is_size_t; lia).
  exact (X7_chunk_lossless libstdcxx_max_size (row_of opaque_red 2) (row_of opaque_red 2)
           0 1 _ Hv Hv eq_refl eq_refl Hs eq_refl eq_refl).
Defined.

Lemma X8_serial_encoding_injective_witness :
  row_of opaque_red 2 = row_of opaque_red 2.
Proof.
  assert (Hv : valid (row_of opaque_red 2))
    by (apply valid_row_of; [apply opaque_red_ok | simpl; lia]).
  refine (X8_serial_encoding_injective libstdcxx_max_size (row_of opaque_red 2)
            (row_of opaque_red 2) _ Hv Hv _ _ _ _ eq_refl eq_refl);
    simpl; lia.
Defined.

(** ** The row ranges when every worker has rows *)

Lemma plan_loop_explicit : forall k fuel height per_pack start_y end_y,
  1 <= per_pack -> 0 <= start_y < end_y ->
  end_y + Z.of_nat k * per_pack = height -> height < 2 ^ 64 ->
  (k < fuel)%nat ->
  plan_loop fuel height per_pack start_y end_y
  = Returns ((start_y, end_y)
             :: map (fun i => (end_y + i * per_pack, end_y + (i + 1) * per_pack))
                  (counting 0 k)).
Proof.
  induction k as [|k IH]; intros fuel height per_pack start_y end_y Hpp Hse Hsum Hh Hfuel.
  - destruct fuel as [|fuel]; [lia|]. cbn [plan_loop].
    replace (start_y <? height) with true by (symmetry; apply Z.ltb_lt; lia).
    assert (Hstop : plan_loop fuel height per_pack end_y (size_t (end_y + per_pack))
                    = Returns []).
    { destruct fuel; cbn [plan_loop];
        replace (end_y <? height) with false by (symmetry; apply Z.ltb_ge; lia);
        reflexivity. }
    rewrite Hstop. reflexivity.
  - destruct fuel as [|fuel]; [lia|]. cbn [plan_loop].
    replace (start_y <? height) with true by (symmetry; apply Z.ltb_lt; nia).
    assert (Hnext : size_t (end_y + per_pack) = end_y + per_pack)
      by (unfold size_t; apply Z.mod_small; nia).
    rewrite Hnext.
    rewrite (IH fuel height per_pack end_y (end_y + per_pack)) by lia.
    cbn [bind]. do 2 f_equal.
    unfold counting. cbn [seq map]. f_equal; [f_equal; lia|].
    rewrite <- (seq_shift k 0), !map_map. apply map_ext. intros i. f_equal; lia.
Qed.

Lemma plan_explicit : forall height threads,
  2 <= threads < 2 ^ 32 -> threads <= height < 2 ^ 64 ->
  let per_pack := height / threads in
  let first := per_pack + height mod threads in
  plan height threads
  = Returns ((0, first)
             :: map (fun i => (first + i * per_pack, first + (i + 1) * per_pack))
                  (counting 0 (Z.to_nat (threads - 1)))).
Proof.
  intros height threads Ht Hh per_pack first.
  unfold plan, lines_first_pack, lines_per_pack.
  assert (Hq : 1 <= height / threads) by (apply Z.div_le_lower_bound; lia).
  pose proof (Z.div_mod height threads ltac:(lia)) as Hdm.
  pose proof (Z.mod_pos_bound height threads ltac:(lia)) as Hmod.
  rewrite Z.max_r by lia.
  unfold uint32_t. rewrite (Z.mod_small (threads - 1)) by lia.
  unfold size_t.
  rewrite (Z.mod_small ((threads - 1) * (height / threads))) by nia.
  rewrite Z.mod_small by nia.
  replace (height - (threads - 1) * (height / threads)) with first
    by (unfold first, per_pack; nia).
  apply plan_loop_explicit; unfold first, per_pack; lia.
Qed.

(** X9. With at least two workers and at least as many rows as workers,
    there are as many row ranges as workers: the first holds
    [height / threads + height mod threads] rows, every other one
    [height / threads] rows, and they follow one another from row 0 to the
    last row. *)
Theorem X9_plan_shares_rows : forall height threads,
  2 <= threads < 2 ^ 32 -> threads <= height < 2 ^ 64 ->
  let per_pack := height / threads in
  let first := per_pack + height mod threads in
  exists ranges,
    plan height threads = Returns ranges
    /\ ranges
       = (0, first)
         :: map (fun i => (first + i * per_pack, first + (i + 1) * per_pack))
              (counting 0 (Z.to_nat (threads - 1)))
    /\ Z.of_nat (List.length ranges) = threads - 1 + 1
    /\ chained 0 ranges height.
Proof.
  intros height threads Ht Hh per_pack first.
  destruct (plan_chained height threads Ht Hh) as (ranges & Hplan & Hch & Hlen).
  exists ranges. split; [exact Hplan|].
  pose proof (plan_explicit height threads Ht Hh) as Hex. cbv zeta in Hex.
  rewrite Hplan in Hex. injection Hex as Hex.
  split; [exact Hex|]. split; [lia | exact Hch].
Qed.

Lemma X9_plan_shares_rows_witness :
  plan 7 3 = Returns [(0, 3); (3, 5); (5, 7)].
Proof.
  destruct (X9_plan_shares_rows 7 3 ltac:(lia) ltac:(lia)) as (ranges & Hplan & Hex & _).
  rewrite Hplan, Hex. reflexivity.
Defined.

(** ** The stream of the parallel branch *)

Lemma write_results_returns : forall (chunks : list (list Z)) cout,
  write_results (map Returns chunks) cout = (cout ++ List.concat chunks, Returns tt).
Proof.
  induction chunks as [|chunk rest IH]; intros cout; cbn [map write_results List.concat].
  - now rewrite app_nil_r.
  - rewrite IH. now rewrite app_assoc.
Qed.

Lemma reserve_request_bound : forall image start_y end_y,
  1 <= getWidth image -> 0 <= start_y <= end_y -> end_y <= getHeight image ->
  8 * (getWidth image * getHeight image) < 2 ^ 64 ->
  reserve_request image start_y end_y <= 8 * (getWidth image * getHeight image) / 3.
Proof.
  intros image start_y end_y Hw Hse He Hsz. unfold reserve_request, size_t.
  assert (Hrows : 0 <= (end_y - start_y) * getWidth image
                  <= getWidth image * getHeight image) by nia.
  rewrite (Z.mod_small (end_y - start_y)) by nia.
  rewrite (Z.mod_small ((end_y - start_y) * getWidth image)) by nia.
  rewrite (Z.mod_small ((end_y - start_y) * getWidth image * 4)) by nia.
  rewrite Z.mod_small by nia.
  apply Z.div_le_mono; nia.
Qed.

(** X10. With at least two workers and at least two rows for each of
    them, the parallel branch writes the header once, at the start, then the
    opcodes of the row ranges in their order, then the end marker once, at
    the end, provided every [reserve] request fits. *)
Theorem X10_parallel_stream_framing : forall max_size threads image,
  valid image -> 1 <= getWidth image ->
  2 <= threads < 2 ^ 32 -> 2 * threads <= getHeight image ->
  8 * (getWidth image * getHeight image) < 2 ^ 64 ->
  8 * (getWidth image * getHeight image) / 3 <= max_size ->
  exists ranges,
    plan (getHeight image) threads = Returns ranges
    /\ chained 0 ranges (getHeight image)
    /\ encode_image max_size threads image
       = (write_header [] image
          ++ flat_map (fun range => ops_bytes (chunk_ops image (fst range) (snd range)))
               ranges
          ++ end_marker,
          Returns tt).
Proof.
  intros max_size threads image Hv Hw Ht Hrows Hsz Hfit.
  set (height := getHeight image) in *.
  assert (Hh : threads <= height < 2 ^ 64).
  { destruct Hv as (_ & Hh & _). unfold is_size_t in Hh. fold height in Hh. lia. }
  destruct (plan_chained height threads Ht Hh) as (ranges & Hplan & Hch & _).
  exists ranges. split; [exact Hplan|]. split; [exact Hch|].
  pose proof (plan_explicit height threads Ht Hh) as Hex. cbv zeta in Hex.
  rewrite Hplan in Hex. injection Hex as Hex.
  set (per_pack := height / threads) in *.
  set (first := per_pack + height mod threads) in *.
  assert (Hpp : 2 <= per_pack) by (apply Z.div_le_lower_bound; lia).
  pose proof (Z.div_mod height threads ltac:(lia)) as Hdm. fold per_pack in Hdm.
  pose proof (Z.mod_pos_bound height threads ltac:(lia)) as Hmod.
  assert (Hlast : first + (threads - 1) * per_pack = height) by (unfold first; nia).
  assert (Hplus : height + 1 < 2 ^ 64) by nia.
  (* the chunk of a range *)
  pose (ops := fun range : Z * Z => ops_bytes (chunk_ops image (fst range) (snd range))).
  assert (Hchunk : forall s e, 0 <= s <= e -> e <= height ->
            encodeQoi max_size image s e
            = Returns (chunk_header image s ++ ops (s, e) ++ chunk_footer image e)).
  { intros s e Hse He. apply encodeQoi_shape; [assumption | lia |].
    etransitivity; [apply reserve_request_bound; try assumption; lia | assumption]. }
  assert (Hnofoot : forall e, 0 <= e -> e + 2 <= height -> chunk_footer image e = []).
  { intros e He0 He. unfold chunk_footer, footer_due, size_t. fold height.
    rewrite Z.mod_small by lia.
    replace (e + 1 >=? height) with false; [reflexivity|].
    symmetry. rewrite Z.geb_leb. apply Z.leb_gt. lia. }
  assert (Hnohead : forall s, 0 < s -> chunk_header image s = []).
  { intros s Hs. unfold chunk_header.
    replace (s =? 0) with false by (symmetry; apply Z.eqb_neq; lia). reflexivity. }
  assert (Hfoot : chunk_footer image height = end_marker).
  { unfold chunk_footer, footer_due, size_t. fold height.
    rewrite Z.mod_small by lia.
    replace (height + 1 >=? height) with true; [reflexivity|].
    symmetry. rewrite Z.geb_leb. apply Z.leb_le. lia. }
  (* the ranges: the first, those in the middle, the last *)
  replace (Z.to_nat (threads - 1)) with (S (Z.to_nat (threads - 2))) in Hex by lia.
  rewrite counting_succ, map_app in Hex. cbn [map] in Hex.
  set (range_of := fun i => (first + i * per_pack, first + (i + 1) * per_pack)) in *.
  set (middle := map range_of (counting 0 (Z.to_nat (threads - 2)))) in *.
  assert (Hmid : forall range, In range middle ->
            encodeQoi max_size image (fst range) (snd range) = Returns (ops range)).
  { intros range Hin. unfold middle in Hin. apply in_map_iff in Hin.
    destruct Hin as (i & <- & Hi). apply counting_In in Hi.
    unfold range_of. cbn [fst snd].
    rewrite Hchunk by nia. rewrite Hnohead, Hnofoot by nia.
    now rewrite app_nil_r. }
  unfold encode_image.
  replace (threads <? 2) with false by (symmetry; apply Z.ltb_ge; lia).
  fold height. rewrite Hplan, Hex. cbn [map fst snd write_results].
  rewrite Hchunk by nia. change (chunk_header image 0) with (write_header [] image).
  rewrite Hnofoot by nia. rewrite app_nil_r, map_app.
  rewrite (map_ext_in _ (fun range => Returns (ops range)) middle Hmid).
  set (last := (first + (0 + Z.of_nat (Z.to_nat (threads - 2))) * per_pack,
                first + (0 + Z.of_nat (Z.to_nat (threads - 2)) + 1) * per_pack)).
  assert (Hend : encodeQoi max_size image (fst last) (snd last)
                 = Returns (ops last ++ end_marker)).
  { assert (Hsnd : snd last = height) by (unfold last; cbn [snd]; nia).
    rewrite Hchunk by (unfold last; cbn [fst snd]; nia).
    rewrite Hnohead by (unfold last; cbn [fst]; nia).
    rewrite Hsnd at 2. rewrite Hfoot. destruct last. reflexivity. }
  cbn [map]. rewrite Hend.
  assert (Hmap : map (fun range => Returns (ops range)) middle
                 ++ [Returns (ops last ++ end_marker)]
                 = map Returns (map ops middle ++ [ops last ++ end_marker])).
  { now rewrite map_app, map_map. }
  rewrite Hmap, write_results_returns.
  f_equal. cbn [app flat_map]. fold (ops (0, first)).
  rewrite <- !app_assoc. do 2 f_equal.
  rewrite concat_app, flat_map_app, <- flat_map_concat_map.
  cbn [flat_map List.concat]. rewrite !app_nil_r.
  fold (ops last). now rewrite <- app_assoc.
Qed.

Lemma X10_parallel_stream_framing_witness :
  exists ranges,
    plan 4 2 = Returns ranges
    /\ encode_image libstdcxx_max_size 2 (column_of opaque_red 4)
       = (write_header [] (column_of opaque_red 4)
          ++ flat_map (fun range =>
                         ops_bytes (chunk_ops (column_of opaque_red 4) (fst range) (snd range)))
               ranges
          ++ end_marker,
          Returns tt).
Proof.
  destruct (X10_parallel_stream_framing libstdcxx_max_size 2 (column_of opaque_red 4))
    as (ranges & Hplan & _ & Henc).
  - apply valid_column_of; [apply opaque_red_ok | simpl; lia].
  - simpl. lia.
  - lia.
  - simpl. lia.
  - simpl. lia.
  - vm_compute. discriminate.
  - exists ranges. split; assumption.
Defined.

(** ** [main] on a valid image *)

(** X11. On a valid image [main] ends with exit status 0 or 1, whatever
    the arguments, the hardware concurrency and [max_size()]: the loop that
    plans the row ranges ends, and no read leaves the pixel storage. *)
Theorem X11_main_exits : forall max_size hardware_concurrency args image,
  valid image ->
  exists cout status,
    main max_size hardware_concurrency args image = (cout, Returns status)
    /\ (status = 0 \/ status = 1).
Proof.
  intros max_size hardware_concurrency args image Hv.
  destruct (main_exits max_size hardware_concurrency args image Hv)
    as (cout & status & Hmain & Hstatus).
  exists cout, status. split; assumption.
Qed.

Lemma X11_main_exits_witness :
  exists cout status,
    main libstdcxx_max_size 4 [] (column_of opaque_red 1) = (cout, Returns status)
    /\ (status = 0 \/ status = 1).
Proof.
  apply X11_main_exits.
  apply valid_column_of; [apply opaque_red_ok | simpl; lia].
Defined.

(** * [readPam] *)

(** ** The stream only moves forward *)

Lemma skip_to_eol_from_length : forall cs,
  (List.length (chars (skip_to_eol_from cs)) <= List.length cs)%nat.
Proof.
  induction cs as [|c rest IH]; simpl; [lia|].
  destruct (c =? 10); simpl; lia.
Qed.

Lemma skip_to_eol_shorter : forall s, shorter (skip_to_eol s) s.
Proof.
  intros s. unfold shorter, skip_to_eol.
  destruct (good s); [apply skip_to_eol_from_length | simpl; lia].
Qed.

Lemma skip_ws_from_length : forall cs,
  (List.length (chars (skip_ws_from cs)) <= List.length cs)%nat.
Proof.
  induction cs as [|c rest IH]; simpl; [lia|].
  destruct (is_blank c); simpl; lia.
Qed.

Lemma skip_ws_shorter : forall s, shorter (skip_ws s) s.
Proof.
  intros s. unfold shorter, skip_ws.
  destruct (good s); [apply skip_ws_from_length | simpl; lia].
Qed.

Lemma skip_spaces_length : forall cs,
  (List.length (skip_spaces cs) <= List.length cs)%nat.
Proof.
  induction cs as [|c rest IH]; simpl; [lia|].
  destruct (is_space c); simpl; lia.
Qed.

Lemma take_word_length : forall cs word rest,
  take_word cs = (word, rest) ->
  (List.length word + List.length rest = List.length cs)%nat.
Proof.
  induction cs as [|c cs IH]; intros word rest H; simpl in H.
  - injection H as <- <-. reflexivity.
  - destruct (is_space c).
    + injection H as <- <-. reflexivity.
    + destruct (take_word cs) as [word' rest'] eqn:E. injection H as <- <-.
      specialize (IH word' rest' eq_refl). simpl. lia.
Qed.

Lemma skip_spaces_head : forall cs c rest,
  skip_spaces cs = c :: rest -> is_space c = false.
Proof.
  induction cs as [|c0 cs IH]; intros c rest H; simpl in H; [discriminate|].
  destruct (is_space c0) eqn:E; [now apply (IH c rest)|].
  injection H as <- <-. exact E.
Qed.

(** An extracted token is not empty, and the stream is behind it. *)
Lemma extract_string_shorter : forall s token s1,
  extract_string s = Some (token, s1) ->
  token <> [] /\ (List.length (chars s1) < List.length (chars s))%nat.
Proof.
  intros s token s1 H. unfold extract_string in H.
  destruct (good s); [|discriminate].
  pose proof (skip_spaces_length (chars s)) as Hlen.
  destruct (skip_spaces (chars s)) as [|c cs] eqn:E; [discriminate|].
  pose proof (skip_spaces_head _ _ _ E) as Hc.
  destruct (take_word (c :: cs)) as [word rest] eqn:Ew.
  injection H as <- <-.
  pose proof (take_word_length _ _ _ Ew) as Hw.
  simpl in Ew. rewrite Hc in Ew.
  destruct (take_word cs) as [word' rest']. injection Ew as <- <-.
  split; [discriminate|]. simpl in *. lia.
Qed.

Lemma take_digits_length : forall cs acc v rest,
  take_digits cs acc = (v, rest) -> (List.length rest <= List.length cs)%nat.
Proof.
  induction cs as [|c cs IH]; intros acc v rest H; simpl in H.
  - injection H as <- <-. simpl. lia.
  - destruct ((48 <=? c) && (c <=? 57)).
    + apply IH in H. simpl. lia.
    + injection H as <- <-. simpl. lia.
Qed.

Lemma extract_size_t_shorter : forall s out s1,
  extract_size_t s = Some (out, s1) -> shorter s1 s.
Proof.
  intros s out s1 H. unfold extract_size_t in H. unfold shorter.
  destruct (good s); [|discriminate].
  pose proof (skip_spaces_length (chars s)) as Hlen.
  destruct (skip_spaces (chars s)) as [|c cs] eqn:E; [discriminate|].
  simpl in Hlen.
  destruct (if c =? 45 then (true, cs) else if c =? 43 then (false, cs) else (false, c :: cs))
    as [negative cs'] eqn:Es.
  assert (Hcs : (List.length cs' <= S (List.length cs))%nat).
  { destruct (c =? 45); [injection Es as <- <-; lia|].
    destruct (c =? 43); injection Es as <- <-; simpl; lia. }
  destruct (take_digits cs' None) as [[v|] rest'] eqn:Ed; [|discriminate].
  apply take_digits_length in Ed.
  destruct (v >? 2 ^ 64 - 1); [discriminate|].
  injection H as <- <-. simpl. lia.
Qed.

Lemma assign_size_t_outcome : forall s,
  (exists out s1, assign_size_t s = Returns (out, s1) /\ shorter s1 s)
  \/ assign_size_t s = Throws malformed.
Proof.
  intros s. unfold assign_size_t.
  destruct (extract_size_t (skip_ws s)) as [[out s1]|] eqn:E; [left | now right].
  exists out, (skip_to_eol s1). split; [reflexivity|].
  pose proof (extract_size_t_shorter _ _ _ E).
  pose proof (skip_ws_shorter s). pose proof (skip_to_eol_shorter s1).
  unfold shorter in *. lia.
Qed.

Lemma assign_string_outcome : forall s,
  (exists out s1, assign_string s = Returns (out, s1) /\ shorter s1 s)
  \/ assign_string s = Throws malformed.
Proof.
  intros s. unfold assign_string.
  destruct (extract_string (skip_ws s)) as [[out s1]|] eqn:E; [left | now right].
  exists out, (skip_to_eol s1). split; [reflexivity|].
  destruct (extract_string_shorter _ _ _ E) as [_ Hlt].
  pose proof (skip_ws_shorter s). pose proof (skip_to_eol_shorter s1).
  unfold shorter in *. lia.
Qed.

Lemma get_some : forall s c s1,
  get s = (Some c, s1) -> good s = true /\ chars s = c :: chars s1 /\ good s1 = true.
Proof.
  intros s c s1 H. unfold get in H.
  destruct (good s); [|discriminate].
  destruct (chars s) as [|c0 rest]; [discriminate|].
  injection H as <- <-. auto.
Qed.

Lemma unget_get : forall s c s1,
  get s = (Some c, s1) -> chars (unget c s1) = chars s /\ good (unget c s1) = true.
Proof.
  intros s c s1 H. apply get_some in H. destruct H as (_ & Hc & Hg).
  unfold unget. unfold good in Hg.
  destruct (failbit s1); [rewrite andb_false_r in Hg; discriminate|].
  simpl. now rewrite Hc.
Qed.

(** The header loop ends: with a turn of fuel for every character and one
    more it returns or throws, and what it throws is the malformed
    header. *)
Lemma header_loop_outcome : forall fuel h s,
  (List.length (chars s) < fuel)%nat ->
  (exists endhdr h1 s1, header_loop fuel h s = Returns (endhdr, h1, s1))
  \/ header_loop fuel h s = Throws malformed.
Proof.
  induction fuel as [|fuel IH]; intros h s Hfuel; [lia|].
  cbn [header_loop].
  destruct (get s) as [[c|] s1] eqn:Eget; [|left; do 3 eexists; reflexivity].
  pose proof (get_some _ _ _ Eget) as (_ & Hchars & _).
  pose proof (unget_get _ _ _ Eget) as [Hunget _].
  assert (Hs1 : (List.length (chars s1) < fuel)%nat)
    by (rewrite Hchars in Hfuel; simpl in Hfuel; lia).
  destruct (c =? 35).
  { apply IH. pose proof (skip_to_eol_shorter s1). unfold shorter in *. lia. }
  destruct (extract_string (skip_ws (unget c s1))) as [[token s2]|] eqn:Etok;
    [|now right].
  destruct (extract_string_shorter _ _ _ Etok) as [_ Hlt].
  pose proof (skip_ws_shorter (unget c s1)) as Hws. unfold shorter in Hws.
  rewrite Hunget in Hws.
  assert (Hs2 : (List.length (chars s2) < fuel)%nat) by lia.
  assert (Hnum : forall k : Z * istream -> outcome (bool * Header * istream),
            (forall out s3, shorter s3 s2 ->
               (exists endhdr h1 s4, k (out, s3) = Returns (endhdr, h1, s4))
               \/ k (out, s3) = Throws malformed) ->
            (exists endhdr h1 s4, bind (assign_size_t s2) k = Returns (endhdr, h1, s4))
            \/ bind (assign_size_t s2) k = Throws malformed).
  { intros k Hk.
    destruct (assign_size_t_outcome s2) as [(out & s3 & -> & Hsh) | ->];
      [apply Hk; assumption | now right]. }
  assert (Hnext : forall h' s3, shorter s3 s2 ->
            (exists endhdr h1 s4, header_loop fuel h' s3 = Returns (endhdr, h1, s4))
            \/ header_loop fuel h' s3 = Throws malformed).
  { intros h' s3 Hsh. apply IH. unfold shorter in Hsh. lia. }
  destruct (string_eqb token (literal "WIDTH")).
  { apply Hnum. intros out s3 Hsh. now apply Hnext. }
  destruct (string_eqb token (literal "HEIGHT")).
  { apply Hnum. intros out s3 Hsh. now apply Hnext. }
  destruct (string_eqb token (literal "DEPTH")).
  { apply Hnum. intros out s3 Hsh. now apply Hnext. }
  destruct (string_eqb token (literal "MAXVAL")).
  { apply Hnum. intros out s3 Hsh. now apply Hnext. }
  destruct (string_eqb token (literal "TUPLTYPE")).
  { destruct (assign_string_outcome s2) as [(out & s3 & -> & Hsh) | ->];
      [|now right].
    cbn [bind]. now apply Hnext. }
  destruct (string_eqb token (literal "ENDHDR")).
  { left. do 3 eexists. reflexivity. }
  apply Hnext. apply skip_to_eol_shorter.
Qed.

(** ** What the header loop reads is part of the input *)

Lemma rest_of_refl : forall l, rest_of l l.
Proof. intros l. now exists []. Qed.

Lemma rest_of_trans : forall l1 l2 l3, rest_of l1 l2 -> rest_of l2 l3 -> rest_of l1 l3.
Proof.
  intros l1 l2 l3 [p1 ->] [p2 ->]. exists (p2 ++ p1). now rewrite app_assoc.
Qed.

Lemma rest_of_cons : forall c l, rest_of l (c :: l).
Proof. intros c l. now exists [c]. Qed.

Lemma occurs_in_rest : forall part tail whole,
  rest_of tail whole -> occurs_in part tail -> occurs_in part whole.
Proof.
  intros part tail whole [p ->] (before & after & ->).
  exists (p ++ before), after. now rewrite <- app_assoc.
Qed.

Lemma skip_to_eol_from_rest : forall cs, rest_of (chars (skip_to_eol_from cs)) cs.
Proof.
  induction cs as [|c cs IH]; simpl; [now exists []|].
  destruct (c =? 10); simpl; [apply rest_of_cons|].
  eapply rest_of_trans; [exact IH | apply rest_of_cons].
Qed.

Lemma skip_to_eol_rest : forall s, rest_of (chars (skip_to_eol s)) (chars s).
Proof.
  intros s. unfold skip_to_eol.
  destruct (good s); [apply skip_to_eol_from_rest | apply rest_of_refl].
Qed.

Lemma skip_ws_from_rest : forall cs, rest_of (chars (skip_ws_from cs)) cs.
Proof.
  induction cs as [|c cs IH]; simpl; [now exists []|].
  destruct (is_blank c); simpl; [|apply rest_of_refl].
  eapply rest_of_trans; [exact IH | apply rest_of_cons].
Qed.

Lemma skip_ws_rest : forall s, rest_of (chars (skip_ws s)) (chars s).
Proof.
  intros s. unfold skip_ws.
  destruct (good s); [apply skip_ws_from_rest | apply rest_of_refl].
Qed.

Lemma skip_spaces_rest : forall cs, rest_of (skip_spaces cs) cs.
Proof.
  induction cs as [|c cs IH]; simpl; [apply rest_of_refl|].
  destruct (is_space c); [|apply rest_of_refl].
  eapply rest_of_trans; [exact IH | apply rest_of_cons].
Qed.

Lemma take_word_app : forall cs word rest,
  take_word cs = (word, rest) -> cs = word ++ rest.
Proof.
  induction cs as [|c cs IH]; intros word rest H; simpl in H.
  - now injection H as <- <-.
  - destruct (is_space c); [now injection H as <- <-|].
    destruct (take_word cs) as [word' rest'] eqn:E. injection H as <- <-.
    simpl. f_equal. now apply IH.
Qed.

Lemma extract_string_occurs : forall s token s1,
  extract_string s = Some (token, s1) ->
  occurs_in token (chars s) /\ rest_of (chars s1) (chars s).
Proof.
  intros s token s1 H. unfold extract_string in H.
  destruct (good s); [|discriminate].
  destruct (skip_spaces_rest (chars s)) as [before Hbefore].
  destruct (skip_spaces (chars s)) as [|c cs] eqn:E; [discriminate|].
  destruct (take_word (c :: cs)) as [word rest] eqn:Ew.
  injection H as <- <-. apply take_word_app in Ew. cbn [chars].
  rewrite Hbefore, Ew. split.
  - now exists before, rest.
  - exists (before ++ word). now rewrite <- app_assoc.
Qed.

Lemma take_digits_rest : forall cs acc v rest,
  take_digits cs acc = (v, rest) -> rest_of rest cs.
Proof.
  induction cs as [|c cs IH]; intros acc v rest H; simpl in H.
  - injection H as <- <-. apply rest_of_refl.
  - destruct ((48 <=? c) && (c <=? 57)).
    + apply IH in H. eapply rest_of_trans; [exact H | apply rest_of_cons].
    + injection H as <- <-. apply rest_of_refl.
Qed.

Lemma extract_size_t_rest : forall s out s1,
  extract_size_t s = Some (out, s1) -> rest_of (chars s1) (chars s).
Proof.
  intros s out s1 H. unfold extract_size_t in H.
  destruct (good s); [|discriminate].
  pose proof (skip_spaces_rest (chars s)) as Hsp.
  destruct (skip_spaces (chars s)) as [|c cs] eqn:E; [discriminate|].
  destruct (if c =? 45 then (true, cs) else if c =? 43 then (false, cs) else (false, c :: cs))
    as [negative cs'] eqn:Es.
  assert (Hcs : rest_of cs' (c :: cs)).
  { destruct (c =? 45); [injection Es as <- <-; apply rest_of_cons|].
    destruct (c =? 43); injection Es as <- <-;
      [apply rest_of_cons | apply rest_of_refl]. }
  destruct (take_digits cs' None) as [[v|] rest'] eqn:Ed; [|discriminate].
  apply take_digits_rest in Ed.
  destruct (v >? 2 ^ 64 - 1); [discriminate|].
  injection H as <- <-. cbn [chars].
  eapply rest_of_trans; [exact Ed|]. eapply rest_of_trans; eassumption.
Qed.

Lemma assign_size_t_rest : forall s out s1,
  assign_size_t s = Returns (out, s1) -> rest_of (chars s1) (chars s).
Proof.
  intros s out s1 H. unfold assign_size_t in H.
  destruct (extract_size_t (skip_ws s)) as [[out' s']|] eqn:E; [|discriminate].
  injection H as <- <-.
  eapply rest_of_trans; [apply skip_to_eol_rest|].
  eapply rest_of_trans; [exact (extract_size_t_rest _ _ _ E) | apply skip_ws_rest].
Qed.

Lemma assign_string_rest : forall s out s1,
  assign_string s = Returns (out, s1) -> rest_of (chars s1) (chars s).
Proof.
  intros s out s1 H. unfold assign_string in H.
  destruct (extract_string (skip_ws s)) as [[out' s']|] eqn:E; [|discriminate].
  injection H as <- <-.
  eapply rest_of_trans; [apply skip_to_eol_rest|].
  eapply rest_of_trans; [exact (proj2 (extract_string_occurs _ _ _ E)) | apply skip_ws_rest].
Qed.

Lemma string_eqb_eq : forall s1 s2, string_eqb s1 s2 = true -> s1 = s2.
Proof.
  induction s1 as [|c1 r1 IH]; intros [|c2 r2] H; simpl in H; try discriminate;
    [reflexivity|].
  apply andb_true_iff in H. destruct H as [Hc Hr].
  apply Z.eqb_eq in Hc. subst. f_equal. now apply IH.
Qed.

(** The loop ends with [endhdr] set only behind a token [ENDHDR]. *)
Lemma header_loop_endhdr : forall fuel h s h1 s1,
  header_loop fuel h s = Returns (true, h1, s1) ->
  occurs_in (literal "ENDHDR") (chars s).
Proof.
  induction fuel as [|fuel IH]; intros h s h1 s1 H; [discriminate|].
  cbn [header_loop] in H.
  destruct (get s) as [[c|] s0] eqn:Eget; [|discriminate].
  pose proof (get_some _ _ _ Eget) as (_ & Hchars & _).
  pose proof (unget_get _ _ _ Eget) as [Hunget _].
  destruct (c =? 35).
  { apply IH in H. rewrite Hchars.
    eapply occurs_in_rest; [|exact H].
    eapply rest_of_trans; [apply skip_to_eol_rest | apply rest_of_cons]. }
  destruct (extract_string (skip_ws (unget c s0))) as [[token s2]|] eqn:Etok;
    [|discriminate].
  destruct (extract_string_occurs _ _ _ Etok) as [Hocc Hrest].
  pose proof (skip_ws_rest (unget c s0)) as Hws. rewrite Hunget in Hws.
  assert (Hs2 : rest_of (chars s2) (chars s)) by (eapply rest_of_trans; eassumption).
  assert (Hnum : forall k : Z * istream -> outcome (bool * Header * istream),
            (forall out s3, rest_of (chars s3) (chars s2) ->
               k (out, s3) = Returns (true, h1, s1) ->
               occurs_in (literal "ENDHDR") (chars s)) ->
            bind (assign_size_t s2) k = Returns (true, h1, s1) ->
            occurs_in (literal "ENDHDR") (chars s)).
  { intros k Hk Hb.
    destruct (assign_size_t s2) as [[out s3]| | |] eqn:Ea; try discriminate Hb.
    apply (Hk out s3); [now apply assign_size_t_rest in Ea | exact Hb]. }
  assert (Hnext : forall h' s3, rest_of (chars s3) (chars s2) ->
            header_loop fuel h' s3 = Returns (true, h1, s1) ->
            occurs_in (literal "ENDHDR") (chars s)).
  { intros h' s3 Hr3 Hl. apply IH in Hl.
    eapply occurs_in_rest; [|exact Hl]. eapply rest_of_trans; eassumption. }
  destruct (string_eqb token (literal "WIDTH")).
  { revert H. apply Hnum. intros out s3 Hr3. now apply Hnext. }
  destruct (string_eqb token (literal "HEIGHT")).
  { revert H. apply Hnum. intros out s3 Hr3. now apply Hnext. }
  destruct (string_eqb token (literal "DEPTH")).
  { revert H. apply Hnum. intros out s3 Hr3. now apply Hnext. }
  destruct (string_eqb token (literal "MAXVAL")).
  { revert H. apply Hnum. intros out s3 Hr3. now apply Hnext. }
  destruct (string_eqb token (literal "TUPLTYPE")).
  { destruct (assign_string s2) as [[out s3]| | |] eqn:Ea; try discriminate H.
    cbn [bind] in H. apply assign_string_rest in Ea.
    exact (Hnext _ s3 Ea H). }
  destruct (string_eqb token (literal "ENDHDR")) eqn:Eend.
  { apply string_eqb_eq in Eend. subst token.
    eapply occurs_in_rest; [exact Hws | exact Hocc]. }
  revert H. apply Hnext. apply skip_to_eol_rest.
Qed.

(** ** The body *)

Lemma counting_cons : forall from count,
  counting from (S count) = from :: counting (from + 1) count.
Proof.
  intros from count. unfold counting. cbn [seq map]. f_equal; [lia|].
  rewrite <- (seq_shift count 0), map_map. apply map_ext. intros i. lia.
Qed.

Lemma nth_error_inside : forall (l : list Z) i,
  0 <= i < Z.of_nat (List.length l) ->
  nth_error l (Z.to_nat i) = Some (nth (Z.to_nat i) l 0).
Proof.
  intros l i Hi. apply nth_error_nth'. lia.
Qed.

Lemma read_channels_spec : forall line_buffer depth index,
  depth = 3 \/ depth = 4 ->
  0 <= index -> index + depth <= Z.of_nat (List.length line_buffer) ->
  read_channels line_buffer (counting 0 (Z.to_nat depth)) index Pixel_default
  = Returns (channels_at line_buffer index depth, index + depth).
Proof.
  intros line_buffer depth index Hd Hi Hlen. unfold channels_at.
  destruct Hd as [-> | ->];
    [change (Z.to_nat 3) with 3%nat | change (Z.to_nat 4) with 4%nat];
    rewrite !counting_cons; cbn [read_channels counting seq map];
    rewrite Z.add_0_r;
    rewrite (nth_error_inside line_buffer index) by lia;
    rewrite (nth_error_inside line_buffer (index + 1)) by lia;
    rewrite (nth_error_inside line_buffer (index + 1 + 1)) by lia.
  - cbn. replace (index + 1 + 1) with (index + 2) by lia.
    do 2 f_equal. lia.
  - rewrite (nth_error_inside line_buffer (index + 1 + 1 + 1)) by lia.
    cbn. replace (index + 1 + 1) with (index + 2) by lia.
    replace (index + 2 + 1) with (index + 3) by lia.
    do 2 f_equal. lia.
Qed.

Lemma channels_at_ok : forall buffer index depth,
  Pixel_ok (channels_at buffer index depth).
Proof.
  intros buffer index depth. unfold channels_at, Pixel_ok, is_uint8_t, uint8_t.
  cbn [r g b a].
  repeat split; try (apply Z.mod_pos_bound; lia);
    destruct (depth =? 4); try lia; apply Z.mod_pos_bound; lia.
Qed.

(** One row: every pixel of the row is set from its characters, and
    nothing else changes. *)
Lemma read_row_spec : forall k x0 line_buffer depth y res,
  depth = 3 \/ depth = 4 -> valid res ->
  0 <= y < getHeight res -> 0 <= x0 -> x0 + Z.of_nat k <= getWidth res ->
  (x0 + Z.of_nat k) * depth <= Z.of_nat (List.length line_buffer) ->
  exists res',
    read_row line_buffer depth y (counting x0 k) (x0 * depth) res = Returns res'
    /\ valid res'
    /\ getWidth res' = getWidth res /\ getHeight res' = getHeight res
    /\ (forall x, x0 <= x < x0 + Z.of_nat k ->
        getPixel res' x y = Returns (channels_at line_buffer (x * depth) depth))
    /\ (forall x' y', 0 <= x' -> 0 <= y' ->
        y' <> y \/ x' < x0 \/ x0 + Z.of_nat k <= x' ->
        getPixel res' x' y' = getPixel res x' y').
Proof.
  induction k as [|k IH]; intros x0 line_buffer depth y res Hd Hv Hy Hx0 Hw Hlen.
  - exists res. split; [reflexivity|]. split; [assumption|].
    split; [reflexivity|]. split; [reflexivity|].
    split; [intros x Hx; lia | intros; reflexivity].
  - rewrite counting_cons. cbn [read_row].
    rewrite read_channels_spec by (try assumption; nia).
    cbn [bind].
    destruct (setPixel_spec res x0 y (channels_at line_buffer (x0 * depth) depth) Hv
                (channels_at_ok _ _ _) ltac:(lia) Hy)
      as (res1 & Hset & Hv1 & Hw1 & Hh1 & Hget1 & Hother1).
    rewrite Hset. cbn [bind].
    replace (x0 * depth + depth) with ((x0 + 1) * depth) by lia.
    destruct (IH (x0 + 1) line_buffer depth y res1 Hd Hv1)
      as (res' & Hrow & Hv' & Hw' & Hh' & Hget' & Hother'); try lia.
    exists res'. split; [exact Hrow|]. split; [exact Hv'|].
    split; [lia|]. split; [lia|]. split.
    + intros x Hx. destruct (Z.eq_dec x x0) as [->|Hne].
      * rewrite Hother' by lia. exact Hget1.
      * apply Hget'. lia.
    + intros x' y' Hx' Hy' Hout.
      rewrite Hother' by lia. apply Hother1; try assumption.
      intros E. injection E as -> ->. lia.
Qed.

Lemma read_good : forall s count,
  good s = true -> 0 <= count <= Z.of_nat (List.length (chars s)) ->
  read s count
  = Some (firstn (Z.to_nat count) (chars s),
          mkStream (skipn (Z.to_nat count) (chars s)) false false).
Proof.
  intros s count Hg Hc. unfold read. rewrite Hg.
  replace (count <=? Z.of_nat (List.length (chars s))) with true
    by (symmetry; apply Z.leb_le; lia).
  reflexivity.
Qed.

Lemma channels_at_firstn : forall buffer n index depth,
  depth = 3 \/ depth = 4 -> 0 <= index -> index + depth <= Z.of_nat n ->
  channels_at (firstn n buffer) index depth = channels_at buffer index depth.
Proof.
  intros buffer n index depth Hd Hi Hn. unfold channels_at.
  rewrite !nth_firstn.
  replace (Z.to_nat (index + 0) <? n)%nat with true by (symmetry; apply Nat.ltb_lt; lia).
  replace (Z.to_nat (index + 1) <? n)%nat with true by (symmetry; apply Nat.ltb_lt; lia).
  replace (Z.to_nat (index + 2) <? n)%nat with true by (symmetry; apply Nat.ltb_lt; lia).
  destruct Hd as [-> | ->]; cbn [Z.eqb Pos.eqb]; [reflexivity|].
  replace (Z.to_nat (index + 3) <? n)%nat with true by (symmetry; apply Nat.ltb_lt; lia).
  reflexivity.
Qed.

Lemma channels_at_skipn : forall buffer n index depth,
  0 <= index ->
  channels_at (skipn n buffer) index depth
  = channels_at buffer (Z.of_nat n + index) depth.
Proof.
  intros buffer n index depth Hi. unfold channels_at.
  rewrite !nth_skipn.
  replace (n + Z.to_nat (index + 0))%nat with (Z.to_nat (Z.of_nat n + index + 0)) by lia.
  replace (n + Z.to_nat (index + 1))%nat with (Z.to_nat (Z.of_nat n + index + 1)) by lia.
  replace (n + Z.to_nat (index + 2))%nat with (Z.to_nat (Z.of_nat n + index + 2)) by lia.
  replace (n + Z.to_nat (index + 3))%nat with (Z.to_nat (Z.of_nat n + index + 3)) by lia.
  reflexivity.
Qed.

(** All rows, when the stream is good and holds them. *)
Lemma read_rows_spec : forall k y0 depth width s res,
  depth = 3 \/ depth = 4 -> valid res -> getWidth res = width ->
  0 <= y0 -> y0 + Z.of_nat k <= getHeight res ->
  good s = true ->
  depth * width * Z.of_nat k <= Z.of_nat (List.length (chars s)) ->
  exists res',
    read_rows (depth * width) depth width (counting y0 k) s res = Returns res'
    /\ valid res'
    /\ getWidth res' = getWidth res /\ getHeight res' = getHeight res
    /\ (forall x y, 0 <= x < width -> y0 <= y < y0 + Z.of_nat k ->
        getPixel res' x y
        = Returns (channels_at (chars s) ((width * (y - y0) + x) * depth) depth))
    /\ (forall x' y', 0 <= x' -> 0 <= y' -> y' < y0 \/ y0 + Z.of_nat k <= y' ->
        getPixel res' x' y' = getPixel res x' y').
Proof.
  induction k as [|k IH]; intros y0 depth width s res Hd Hv Hw Hy0 Hh Hg Hlen.
  - exists res. split; [reflexivity|]. split; [assumption|].
    split; [reflexivity|]. split; [reflexivity|].
    split; [intros x y Hx Hy; lia | intros; reflexivity].
  - assert (Hwidth : 0 <= width) by (destruct Hv as ([? _] & _); unfold getWidth in Hw; lia).
    assert (Hcount : 0 <= depth * width) by (destruct Hd; nia).
    rewrite counting_cons. cbn [read_rows].
    rewrite read_good by (try assumption; nia).
    set (line_buffer := firstn (Z.to_nat (depth * width)) (chars s)).
    set (s1 := mkStream (skipn (Z.to_nat (depth * width)) (chars s)) false false).
    assert (Hline : Z.of_nat (List.length line_buffer) = depth * width).
    { unfold line_buffer. rewrite length_firstn. nia. }
    destruct (read_row_spec (Z.to_nat width) 0 line_buffer depth y0 res Hd Hv)
      as (res1 & Hrow & Hv1 & Hw1 & Hh1 & Hget1 & Hother1); try lia; try nia.
    change (0 * depth) with 0 in Hrow. rewrite Hrow. cbn [bind].
    destruct (IH (y0 + 1) depth width s1 res1 Hd Hv1)
      as (res' & Hrows & Hv' & Hw' & Hh' & Hget' & Hother'); try lia; try reflexivity.
    { unfold s1. cbn [chars]. rewrite length_skipn. nia. }
    exists res'. split; [exact Hrows|]. split; [exact Hv'|].
    split; [lia|]. split; [lia|]. split.
    + intros x y Hx Hy. destruct (Z.eq_dec y y0) as [->|Hne].
      * rewrite Hother' by lia. rewrite Hget1 by lia.
        unfold line_buffer. rewrite channels_at_firstn by (try assumption; nia).
        do 2 f_equal. lia.
      * rewrite Hget' by lia. unfold s1. cbn [chars].
        rewrite channels_at_skipn by nia. do 2 f_equal. nia.
    + intros x' y' Hx' Hy' Hout. rewrite Hother' by lia. apply Hother1; try assumption.
      lia.
Qed.

(** All rows, when the stream is not good or ends too soon. *)
Lemma read_rows_corrupt : forall k y0 depth width s res,
  depth = 3 \/ depth = 4 -> valid res -> getWidth res = width ->
  0 <= y0 -> y0 + Z.of_nat k <= getHeight res -> (1 <= k)%nat ->
  good s = false \/ Z.of_nat (List.length (chars s)) < depth * width * Z.of_nat k ->
  read_rows (depth * width) depth width (counting y0 k) s res = Throws corrupt.
Proof.
  induction k as [|k IH]; intros y0 depth width s res Hd Hv Hw Hy0 Hh Hk Hbad; [lia|].
  assert (Hwidth : 0 <= width) by (destruct Hv as ([? _] & _); unfold getWidth in Hw; lia).
  assert (Hcount : 0 <= depth * width) by (destruct Hd; nia).
  rewrite counting_cons. cbn [read_rows].
  destruct (good s) eqn:Hg;
    [|unfold read; rewrite Hg; reflexivity].
  destruct Hbad as [Hbad|Hshort]; [discriminate|].
  destruct (Z_le_gt_dec (depth * width) (Z.of_nat (List.length (chars s)))) as [Hfit|Hnot].
  - rewrite read_good by (try assumption; lia).
    set (line_buffer := firstn (Z.to_nat (depth * width)) (chars s)).
    set (s1 := mkStream (skipn (Z.to_nat (depth * width)) (chars s)) false false).
    assert (Hline : Z.of_nat (List.length line_buffer) = depth * width).
    { unfold line_buffer. rewrite length_firstn. lia. }
    destruct (read_row_spec (Z.to_nat width) 0 line_buffer depth y0 res Hd Hv)
      as (res1 & Hrow & Hv1 & Hw1 & Hh1 & _); try lia; try nia.
    change (0 * depth) with 0 in Hrow. rewrite Hrow. cbn [bind].
    assert (Hmore : (1 <= k)%nat) by (destruct k; [nia | lia]).
    assert (Hrest : Z.of_nat (List.length (chars s1)) < depth * width * Z.of_nat k).
    { unfold s1. cbn [chars]. rewrite length_skipn. nia. }
    apply IH; try assumption; try lia; now right.
  - unfold read. rewrite Hg.
    replace (depth * width <=? Z.of_nat (List.length (chars s))) with false
      by (symmetry; apply Z.leb_gt; lia).
    reflexivity.
Qed.

Lemma string_eqb_refl : forall s, string_eqb s s = true.
Proof.
  induction s as [|c s IH]; [reflexivity|]. simpl. now rewrite Z.eqb_refl, IH.
Qed.

(** The format test passes for the two supported formats. *)
Lemma read_body_supported : forall max_pixels max_chars h s w hh d,
  width h = Some w -> height h = Some hh -> depth h = Some d ->
  max_value h = Some 255 ->
  d = 3 /\ tuple_type h = literal "RGB" \/ d = 4 /\ tuple_type h = literal "RGB_ALPHA" ->
  0 <= w -> d * w < 2 ^ 64 ->
  size_t (w * hh) <= max_pixels -> d * w <= max_chars ->
  read_body max_pixels max_chars h s
  = read_rows (d * w) d w (counting 0 (Z.to_nat hh)) s (initialized w hh).
Proof.
  intros max_pixels max_chars h s w hh d Hw Hh Hd Hm Hformat Hw0 Hcount Hpixels Hchars.
  unfold read_body. rewrite Hm, Hd, Hw, Hh. cbn [Z.eqb Pos.eqb negb].
  rewrite clearAndInitialize_returns by assumption. cbn [bind].
  assert (Hsize : size_t (d * w) = d * w).
  { unfold size_t. apply Z.mod_small. destruct Hformat as [[-> _] | [-> _]]; lia. }
  rewrite Hsize.
  replace (max_chars <? d * w) with false by (symmetry; apply Z.ltb_ge; lia).
  destruct Hformat as [[-> ->] | [-> ->]]; reflexivity.
Qed.

Lemma read_body_rows : forall max_pixels max_chars h s w hh d,
  width h = Some w -> height h = Some hh -> depth h = Some d ->
  max_value h = Some 255 ->
  d = 3 /\ tuple_type h = literal "RGB" \/ d = 4 /\ tuple_type h = literal "RGB_ALPHA" ->
  is_size_t w -> is_size_t hh -> w * hh < 2 ^ 64 -> d * w < 2 ^ 64 ->
  w * hh <= max_pixels -> d * w <= max_chars ->
  (good s = true -> d * w * hh <= Z.of_nat (List.length (chars s)) ->
   exists image,
     read_body max_pixels max_chars h s = Returns image
     /\ valid image /\ getWidth image = w /\ getHeight image = hh
     /\ (forall x y, 0 <= x < w -> 0 <= y < hh ->
         getPixel image x y = Returns (channels_at (chars s) ((w * y + x) * d) d)))
  /\ (1 <= hh ->
      good s = false \/ Z.of_nat (List.length (chars s)) < d * w * hh ->
      read_body max_pixels max_chars h s = Throws corrupt).
Proof.
  intros max_pixels max_chars h s w hh d Hw Hh Hd Hm Hformat Hwsz Hhsz Hsz Hcount
    Hpixels Hchars.
  pose proof Hwsz as [Hw0 _]. pose proof Hhsz as [Hh0 _].
  assert (Hwrap : size_t (w * hh) = w * hh)
    by (unfold size_t; apply Z.mod_small; nia).
  rewrite (read_body_supported max_pixels max_chars h s w hh d)
    by (try assumption; lia).
  assert (Hd34 : d = 3 \/ d = 4) by (destruct Hformat as [[-> _] | [-> _]]; auto).
  destruct (initialized_default w hh Hwsz Hhsz Hsz) as [Hv _].
  split.
  - intros Hg Hlen.
    destruct (read_rows_spec (Z.to_nat hh) 0 d w s (initialized w hh) Hd34 Hv)
      as (image & Hrows & Hv' & Hw' & Hh' & Hget & _);
      try reflexivity; try assumption; try (simpl; lia).
    exists image. split; [exact Hrows|]. split; [exact Hv'|].
    split; [exact Hw'|]. split; [exact Hh'|].
    intros x y Hx Hy. rewrite Hget by lia. do 2 f_equal. lia.
  - intros Hh1 Hbad.
    apply read_rows_corrupt; try assumption; try reflexivity; try (simpl; lia).
    destruct Hbad as [Hbad|Hshort]; [now left | right; lia].
Qed.

(** X12. After a header that assigned WIDTH, HEIGHT, DEPTH and MAXVAL 255
    for one of the two supported formats, with sizes that neither overflow
    nor exceed the vectors, a good stream that holds
    [depth * width * height] characters is read into a valid image of that
    width and height: the pixel at column [x] of row [y] is made of the
    [depth] characters from [(width * y + x) * depth] on, with alpha 255
    when the depth is 3. *)
Theorem X12_read_body_pixels : forall max_pixels max_chars h s w hh d,
  width h = Some w -> height h = Some hh -> depth h = Some d ->
  max_value h = Some 255 ->
  d = 3 /\ tuple_type h = literal "RGB" \/ d = 4 /\ tuple_type h = literal "RGB_ALPHA" ->
  is_size_t w -> is_size_t hh -> w * hh < 2 ^ 64 -> d * w < 2 ^ 64 ->
  w * hh <= max_pixels -> d * w <= max_chars ->
  good s = true -> d * w * hh <= Z.of_nat (List.length (chars s)) ->
  exists image,
    read_body max_pixels max_chars h s = Returns image
    /\ valid image /\ getWidth image = w /\ getHeight image = hh
    /\ (forall x y, 0 <= x < w -> 0 <= y < hh ->
        getPixel image x y = Returns (channels_at (chars s) ((w * y + x) * d) d))
    /\ (d = 3 -> forall x y, 0 <= x < w -> 0 <= y < hh ->
        exists pixel, getPixel image x y = Returns pixel /\ a pixel = 255).
Proof.
  intros max_pixels max_chars h s w hh d Hw Hh Hd Hm Hformat Hwsz Hhsz Hsz Hcount
    Hpixels Hchars Hg Hlen.
  destruct (proj1 (read_body_rows max_pixels max_chars h s w hh d
                     Hw Hh Hd Hm Hformat Hwsz Hhsz Hsz Hcount Hpixels Hchars)
              Hg Hlen) as (image & Hbody & Hv & Hwi & Hhi & Hget).
  exists image. repeat (split; [assumption|]).
  intros -> x y Hx Hy. eexists. split; [apply Hget; assumption | reflexivity].
Qed.

(** X13. After such a header, an image of at least one row whose body is
    cut short, or whose stream is no longer good when the body starts, is
    never returned and never leaves the defined behaviour: every run ends
    with the exception of a corrupt body, or with [std::bad_alloc] when a
    vector of the declared size cannot be allocated. *)
Theorem X13_read_body_truncated : forall max_pixels max_chars h s w hh d o,
  width h = Some w -> height h = Some hh -> depth h = Some d ->
  max_value h = Some 255 ->
  d = 3 /\ tuple_type h = literal "RGB" \/ d = 4 /\ tuple_type h = literal "RGB_ALPHA" ->
  is_size_t w -> is_size_t hh -> w * hh < 2 ^ 64 -> d * w < 2 ^ 64 ->
  w * hh <= max_pixels -> d * w <= max_chars ->
  1 <= hh ->
  good s = false \/ Z.of_nat (List.length (chars s)) < d * w * hh ->
  read_body_run max_pixels max_chars h s o ->
  o = Throws (runtime_error "Corrupt PAM image body.") \/ o = Throws bad_alloc.
Proof.
  intros max_pixels max_chars h s w hh d o Hw Hh Hd Hm Hformat Hwsz Hhsz Hsz Hcount
    Hpixels Hchars Hh1 Hbad Hrun.
  destruct Hrun as [|Hpast]; [left | now right].
  exact (proj2 (read_body_rows max_pixels max_chars h s w hh d
                  Hw Hh Hd Hm Hformat Hwsz Hhsz Hsz Hcount Hpixels Hchars)
           Hh1 Hbad).
Qed.

Lemma read_body_defined : forall max_pixels max_chars h s w hh d m,
  width h = Some w -> height h = Some hh -> depth h = Some d ->
  max_value h = Some m ->
  is_size_t w -> is_size_t hh -> w * hh < 2 ^ 64 -> d * w < 2 ^ 64 ->
  (exists image, read_body max_pixels max_chars h s = Returns image /\ valid image)
  \/ read_body max_pixels max_chars h s = Throws unsupported
  \/ read_body max_pixels max_chars h s = Throws corrupt
  \/ read_body max_pixels max_chars h s = Throws length_error.
Proof.
  intros max_pixels max_chars h s w hh d m Hw Hh Hd Hm Hwsz Hhsz Hsz Hcount.
  destruct (Z.eq_dec m 255) as [->|Hm255].
  2: { right. left. unfold read_body. rewrite Hm.
       replace (m =? 255) with false by (symmetry; apply Z.eqb_neq; lia). reflexivity. }
  assert (Hwrap : size_t (w * hh) = w * hh)
    by (unfold size_t, is_size_t in *; apply Z.mod_small; nia).
  destruct (string_eqb (tuple_type h) (literal "RGB")) eqn:Ergb;
    destruct (string_eqb (tuple_type h) (literal "RGB_ALPHA")) eqn:Ergba;
    destruct (Z.eq_dec d 3) as [Hd3|Hd3]; destruct (Z.eq_dec d 4) as [Hd4|Hd4];
    try lia;
    try (right; left; unfold read_body; rewrite Hm, Hd, Ergb, Ergba; subst d;
         reflexivity);
    try (right; left; unfold read_body; rewrite Hm, Hd, Ergb, Ergba;
         replace (d =? 3) with false by (symmetry; apply Z.eqb_neq; lia);
         replace (d =? 4) with false by (symmetry; apply Z.eqb_neq; lia);
         reflexivity).
  all: assert (Hformat : d = 3 /\ tuple_type h = literal "RGB"
                         \/ d = 4 /\ tuple_type h = literal "RGB_ALPHA")
         by (try apply string_eqb_eq in Ergb; try apply string_eqb_eq in Ergba; auto).
  all: destruct (Z_le_gt_dec (w * hh) max_pixels) as [Hpixels|Hpixels];
    [|right; right; right; unfold read_body, clearAndInitialize;
      rewrite Hm, Hd, Hw, Hh, Ergb, Ergba, Hwrap; subst d;
      cbn [Z.eqb Pos.eqb negb andb orb];
      replace (max_pixels <? w * hh) with true by (symmetry; apply Z.ltb_lt; lia);
      reflexivity].
  all: destruct (Z_le_gt_dec (d * w) max_chars) as [Hchars|Hchars];
    [|right; right; right; unfold read_body;
      rewrite Hm, Hd, Hw, Hh, Ergb, Ergba, clearAndInitialize_returns by lia; subst d;
      cbn [Z.eqb Pos.eqb negb andb orb bind];
      unfold size_t; rewrite Z.mod_small by (unfold is_size_t in Hwsz; lia);
      replace (max_chars <? _ * w) with true by (symmetry; apply Z.ltb_lt; lia);
      reflexivity].
  all: pose proof (read_body_rows max_pixels max_chars h s w hh d
                     Hw Hh Hd Hm Hformat Hwsz Hhsz Hsz Hcount Hpixels Hchars)
         as [Hok Hbad].
  all: destruct (Z.eq_dec hh 0) as [Hh0|Hh0].
  all: try (destruct (good s) eqn:Hg;
            [destruct (Z_le_gt_dec (d * w * hh) (Z.of_nat (List.length (chars s))))
               as [Hfit|Hshort];
             [destruct (Hok eq_refl Hfit) as (image & Hbody & Hv & _);
              left; exists image; split; assumption
             |right; right; left; apply Hbad;
              [unfold is_size_t in Hhsz; lia | right; lia]]
            |right; right; left; apply Hbad;
             [unfold is_size_t in Hhsz; lia | now left]]).
  all: left; subst hh;
    rewrite (read_body_supported max_pixels max_chars h s w 0 d)
      by (try assumption; try apply Hwsz; lia);
    exists (initialized w 0); split; [reflexivity|];
    apply initialized_default; [assumption | unfold is_size_t; lia | lia].
Qed.

(** X14. The body cannot leave the defined behaviour once the header
    assigned all four numbers and the sizes do not overflow: every run
    returns a valid image or throws, and what it throws is the unsupported
    format, the corrupt body, [std::length_error] or [std::bad_alloc]. *)
Theorem X14_read_body_defined : forall max_pixels max_chars h s w hh d m o,
  width h = Some w -> height h = Some hh -> depth h = Some d ->
  max_value h = Some m ->
  is_size_t w -> is_size_t hh -> w * hh < 2 ^ 64 -> d * w < 2 ^ 64 ->
  read_body_run max_pixels max_chars h s o ->
  (exists image, o = Returns image /\ valid image)
  \/ o = Throws unsupported
  \/ o = Throws corrupt
  \/ o = Throws length_error
  \/ o = Throws bad_alloc.
Proof.
  intros max_pixels max_chars h s w hh d m o Hw Hh Hd Hm Hwsz Hhsz Hsz Hcount Hrun.
  destruct Hrun as [|Hpast]; [|now right; right; right; right].
  destruct (read_body_defined max_pixels max_chars h s w hh d m
              Hw Hh Hd Hm Hwsz Hhsz Hsz Hcount) as [H | [H | [H | H]]].
  - left. exact H.
  - right. left. exact H.
  - right. right. left. exact H.
  - right. right. right. left. exact H.
Qed.

Lemma X12_read_body_pixels_witness :
  exists image,
    read_body libstdcxx_max_pixels libstdcxx_max_chars (rgb_header 2 1)
      (cin_of [255; 0; 0; 0; 255; 0]) = Returns image
    /\ getPixel image 1 0 = Returns (mkPixel 0 255 0 255).
Proof.
  destruct (X12_read_body_pixels libstdcxx_max_pixels libstdcxx_max_chars
              (rgb_header 2 1) (cin_of [255; 0; 0; 0; 255; 0]) 2 1 3)
    as (image & Hbody & _ & _ & _ & Hget & _);
    try reflexivity; try (unfold is_size_t; lia); try (simpl; lia);
    try (unfold libstdcxx_max_pixels, libstdcxx_max_chars; lia).
  - left. split; reflexivity.
  - exists image. split; [exact Hbody|]. apply (Hget 1 0); lia.
Defined.

Lemma X13_read_body_truncated_witness :
  read_body libstdcxx_max_pixels libstdcxx_max_chars (rgb_header 2 1)
    (cin_of [255; 0; 0; 0; 255])
  = Throws (runtime_error "Corrupt PAM image body.")
  \/ read_body libstdcxx_max_pixels libstdcxx_max_chars (rgb_header 2 1)
       (cin_of [255; 0; 0; 0; 255])
     = Throws bad_alloc.
Proof.
  apply (X13_read_body_truncated libstdcxx_max_pixels libstdcxx_max_chars
           (rgb_header 2 1) (cin_of [255; 0; 0; 0; 255]) 2 1 3);
    try reflexivity; try (unfold is_size_t; lia);
    try (unfold libstdcxx_max_pixels, libstdcxx_max_chars; lia).
  - left. split; reflexivity.
  - right. simpl. lia.
  - apply body_with_memory.
Defined.

Lemma X14_read_body_defined_witness :
  let o := read_body libstdcxx_max_pixels libstdcxx_max_chars (rgb_header 2 1) (cin_of []) in
  (exists image, o = Returns image /\ valid image)
  \/ o = Throws unsupported
  \/ o = Throws corrupt
  \/ o = Throws length_error
  \/ o = Throws bad_alloc.
Proof.
  apply (X14_read_body_defined libstdcxx_max_pixels libstdcxx_max_chars
           (rgb_header 2 1) (cin_of []) 2 1 3 255);
    try reflexivity; try (unfold is_size_t; lia).
  apply body_with_memory.
Defined.

Lemma read_body_overflow : forall max_pixels max_chars h s w hh d,
  width h = Some w -> height h = Some hh -> depth h = Some d ->
  max_value h = Some 255 ->
  d = 3 /\ tuple_type h = literal "RGB" \/ d = 4 /\ tuple_type h = literal "RGB_ALPHA" ->
  0 < w -> 0 < hh -> size_t (w * hh) = 0 ->
  d * w < 2 ^ 64 -> d * w <= max_chars -> 0 <= max_pixels ->
  good s = true -> d * w <= Z.of_nat (List.length (chars s)) ->
  read_body max_pixels max_chars h s = Undefined.
Proof.
  intros max_pixels max_chars h s w hh d Hw Hh Hd Hm Hformat Hw0 Hh0 Hwrap Hcount
    Hchars Hpixels Hg Hlen.
  rewrite (read_body_supported max_pixels max_chars h s w hh d)
    by (try assumption; lia).
  assert (Hd34 : d = 3 \/ d = 4) by (destruct Hformat as [[-> _] | [-> _]]; auto).
  destruct (Z.to_nat hh) as [|n] eqn:En; [lia|].
  rewrite counting_cons. cbn [read_rows].
  rewrite read_good by (try assumption; lia).
  destruct (Z.to_nat w) as [|m] eqn:Em; [lia|].
  rewrite counting_cons. cbn [read_row].
  rewrite read_channels_spec; try assumption; try lia.
  - cbn [bind].
    destruct (initialized_overflow w hh 0 0
                (channels_at (firstn (Z.to_nat (d * w)) (chars s)) 0 d))
      as (_ & _ & _ & ->); try assumption; try lia.
    reflexivity.
  - rewrite length_firstn. nia.
Qed.

(** X15. The body does not check the pixel count either: after a
    supported header whose [width * height] is a positive multiple of
    [2^64], the first row is read and its first pixel is written outside
    the empty storage. *)
Theorem X15_read_body_overflow : forall max_pixels max_chars h s w hh d,
  width h = Some w -> height h = Some hh -> depth h = Some d ->
  max_value h = Some 255 ->
  d = 3 /\ tuple_type h = literal "RGB" \/ d = 4 /\ tuple_type h = literal "RGB_ALPHA" ->
  0 < w -> 0 < hh -> size_t (w * hh) = 0 ->
  d * w < 2 ^ 64 -> d * w <= max_chars -> 0 <= max_pixels ->
  good s = true -> d * w <= Z.of_nat (List.length (chars s)) ->
  read_body max_pixels max_chars h s = Undefined.
Proof.
  intros max_pixels max_chars h s w hh d Hw Hh Hd Hm Hformat Hw0 Hh0 Hwrap Hcount
    Hchars Hpixels Hg Hlen.
  now apply (read_body_overflow max_pixels max_chars h s w hh d).
Qed.

Lemma X15_read_body_overflow_witness :
  read_body libstdcxx_max_pixels libstdcxx_max_chars (rgb_header 2 (2 ^ 63))
    (cin_of [255; 0; 0; 0; 255; 0])
  = Undefined.
Proof.
  apply (X15_read_body_overflow libstdcxx_max_pixels libstdcxx_max_chars
           (rgb_header 2 (2 ^ 63)) (cin_of [255; 0; 0; 0; 255; 0]) 2 (2 ^ 63) 3);
    try reflexivity; try lia;
    try (unfold libstdcxx_max_pixels, libstdcxx_max_chars; lia).
  left. split; reflexivity.
Defined.

(** ** The variables of the header *)

Lemma take_digits_nonneg : forall cs acc v rest,
  take_digits cs acc = (Some v, rest) -> (forall a, acc = Some a -> 0 <= a) -> 0 <= v.
Proof.
  induction cs as [|c cs IH]; intros acc v rest H Hacc; cbn [take_digits] in H.
  - injection H as H _. now apply Hacc.
  - destruct ((48 <=? c) && (c <=? 57)) eqn:E.
    + apply IH in H; [exact H|]. intros a' Ha.
      assert (Ha' : a' = 10 * match acc with Some v => v | None => 0 end + (c - 48))
        by congruence.
      apply andb_true_iff in E. destruct E as [E1 E2]. apply Z.leb_le in E1.
      destruct acc as [a0|]; [specialize (Hacc a0 eq_refl)|]; lia.
    + injection H as H _. now apply Hacc.
Qed.

Lemma extract_size_t_value : forall s out s1,
  extract_size_t s = Some (out, s1) -> is_size_t out.
Proof.
  intros s out s1 H. unfold extract_size_t in H.
  destruct (good s); [|discriminate].
  destruct (skip_spaces (chars s)) as [|c cs]; [discriminate|].
  destruct (if c =? 45 then (true, cs) else if c =? 43 then (false, cs) else (false, c :: cs))
    as [negative cs'].
  destruct (take_digits cs' None) as [[v|] rest'] eqn:Ed; [|discriminate].
  apply take_digits_nonneg in Ed; [|discriminate].
  destruct (v >? 2 ^ 64 - 1) eqn:Ev; [discriminate|].
  rewrite Z.gtb_ltb in Ev. apply Z.ltb_ge in Ev.
  injection H as <- _.
  destruct negative; unfold is_size_t, size_t.
  - apply Z.mod_pos_bound. lia.
  - lia.
Qed.

Lemma assign_size_t_value : forall s out s1,
  assign_size_t s = Returns (out, s1) -> is_size_t out.
Proof.
  intros s out s1 H. unfold assign_size_t in H.
  destruct (extract_size_t (skip_ws s)) as [[out' s']|] eqn:E; [|discriminate].
  injection H as <- _. exact (extract_size_t_value _ _ _ E).
Qed.

Lemma number_from_trans : forall a b c keyword cs cs',
  number_from a b keyword cs -> number_from b c keyword cs' -> rest_of cs' cs ->
  number_from a c keyword cs.
Proof.
  intros a b c keyword cs cs' Hab Hbc Hrest.
  destruct Hbc as [-> | [Hocc Hv]]; [exact Hab|].
  right. split; [eapply occurs_in_rest; eassumption | exact Hv].
Qed.

Lemma header_from_refl : forall h cs, header_from h h cs.
Proof.
  intros h cs. unfold header_from, number_from. repeat split; now left.
Qed.

Lemma header_from_trans : forall h h' h1 cs cs',
  header_from h h' cs -> header_from h' h1 cs' -> rest_of cs' cs ->
  header_from h h1 cs.
Proof.
  intros h h' h1 cs cs' (A1 & A2 & A3 & A4 & A5) (B1 & B2 & B3 & B4 & B5) Hrest.
  unfold header_from.
  repeat split; try (eapply number_from_trans; eassumption).
  destruct B5 as [->|B5]; [exact A5 | right; eapply occurs_in_rest; eassumption].
Qed.

(** Every variable that the loop changed was named by its keyword, and the
    numbers it assigned are [std::size_t] values. *)
Lemma header_loop_from : forall fuel h s endhdr h1 s1,
  header_loop fuel h s = Returns (endhdr, h1, s1) -> header_from h h1 (chars s).
Proof.
  induction fuel as [|fuel IH]; intros h s endhdr h1 s1 H; [discriminate|].
  cbn [header_loop] in H.
  destruct (get s) as [[c|] s0] eqn:Eget;
    [|injection H as _ <- _; apply header_from_refl].
  pose proof (get_some _ _ _ Eget) as (_ & Hchars & _).
  pose proof (unget_get _ _ _ Eget) as [Hunget _].
  destruct (c =? 35).
  { apply IH in H. eapply header_from_trans; [apply header_from_refl | exact H|].
    rewrite Hchars. eapply rest_of_trans; [apply skip_to_eol_rest | apply rest_of_cons]. }
  destruct (extract_string (skip_ws (unget c s0))) as [[token s2]|] eqn:Etok;
    [|discriminate].
  destruct (extract_string_occurs _ _ _ Etok) as [Hocc Hrest].
  pose proof (skip_ws_rest (unget c s0)) as Hws. rewrite Hunget in Hws.
  assert (Hs2 : rest_of (chars s2) (chars s)) by (eapply rest_of_trans; eassumption).
  assert (Htoken : occurs_in token (chars s)) by exact (occurs_in_rest _ _ _ Hws Hocc).
  assert (Hnext : forall h' s3, rest_of (chars s3) (chars s2) ->
            header_from h h' (chars s) ->
            header_loop fuel h' s3 = Returns (endhdr, h1, s1) ->
            header_from h h1 (chars s)).
  { intros h' s3 Hr3 Hstep Hl. apply IH in Hl.
    eapply header_from_trans; [exact Hstep | exact Hl|].
    eapply rest_of_trans; eassumption. }
  assert (Hnum : forall h' : Z -> Header,
            (forall out, is_size_t out -> header_from h (h' out) (chars s)) ->
            bind (assign_size_t s2) (fun x => match x with
                                              | (out, s3) => header_loop fuel (h' out) s3
                                              end)
            = Returns (endhdr, h1, s1) ->
            header_from h h1 (chars s)).
  { intros h' Hstep Hb.
    destruct (assign_size_t s2) as [[out s3]| | |] eqn:Ea; try discriminate Hb.
    cbn [bind] in Hb.
    exact (Hnext _ s3 (assign_size_t_rest _ _ _ Ea)
             (Hstep out (assign_size_t_value _ _ _ Ea)) Hb). }
  destruct (string_eqb token (literal "WIDTH")) eqn:E1.
  { apply string_eqb_eq in E1. subst token. revert H. apply Hnum.
    intros out Hout. unfold header_from, number_from.
    cbn [width height depth max_value tuple_type].
    repeat split; try (now left). right. split; [exact Htoken | now exists out]. }
  destruct (string_eqb token (literal "HEIGHT")) eqn:E2.
  { apply string_eqb_eq in E2. subst token. revert H. apply Hnum.
    intros out Hout. unfold header_from, number_from.
    cbn [width height depth max_value tuple_type].
    repeat split; try (now left). right. split; [exact Htoken | now exists out]. }
  destruct (string_eqb token (literal "DEPTH")) eqn:E3.
  { apply string_eqb_eq in E3. subst token. revert H. apply Hnum.
    intros out Hout. unfold header_from, number_from.
    cbn [width height depth max_value tuple_type].
    repeat split; try (now left). right. split; [exact Htoken | now exists out]. }
  destruct (string_eqb token (literal "MAXVAL")) eqn:E4.
  { apply string_eqb_eq in E4. subst token. revert H. apply Hnum.
    intros out Hout. unfold header_from, number_from.
    cbn [width height depth max_value tuple_type].
    repeat split; try (now left). right. split; [exact Htoken | now exists out]. }
  destruct (string_eqb token (literal "TUPLTYPE")) eqn:E5.
  { apply string_eqb_eq in E5. subst token.
    destruct (assign_string s2) as [[out s3]| | |] eqn:Ea; try discriminate H.
    cbn [bind] in H.
    refine (Hnext _ s3 (assign_string_rest _ _ _ Ea) _ H).
    unfold header_from, number_from. cbn [width height depth max_value tuple_type].
    repeat split; try (now left). now right. }
  destruct (string_eqb token (literal "ENDHDR")).
  { injection H as _ <- _. apply header_from_refl. }
  revert H. apply Hnext; [apply skip_to_eol_rest | apply header_from_refl].
Qed.

(** X16. What the header loop leaves in the variables comes from the
    input: a number is assigned only behind its keyword and is then a
    [std::size_t] value, the tuple type is set only behind [TUPLTYPE], and
    [endhdr] only behind [ENDHDR]. *)
Theorem X16_header_variables : forall s endhdr h s1,
  read_header s = Returns (endhdr, h, s1) ->
  (forall v, width h = Some v -> occurs_in (literal "WIDTH") (chars s) /\ is_size_t v)
  /\ (forall v, height h = Some v -> occurs_in (literal "HEIGHT") (chars s) /\ is_size_t v)
  /\ (forall v, depth h = Some v -> occurs_in (literal "DEPTH") (chars s) /\ is_size_t v)
  /\ (forall v, max_value h = Some v ->
      occurs_in (literal "MAXVAL") (chars s) /\ is_size_t v)
  /\ (tuple_type h <> [] -> occurs_in (literal "TUPLTYPE") (chars s))
  /\ (endhdr = true -> occurs_in (literal "ENDHDR") (chars s)).
Proof.
  intros s endhdr h s1 H. unfold read_header in H.
  pose proof (header_loop_from _ _ _ _ _ _ H) as (Hw & Hh & Hd & Hm & Ht).
  assert (Hnum : forall new keyword v,
            number_from None new keyword (chars s) -> new = Some v ->
            occurs_in (literal keyword) (chars s) /\ is_size_t v).
  { intros new keyword v [Hnone | (Hocc & v' & Hv' & Hsz)] Hnew; [congruence|].
    split; [exact Hocc | congruence]. }
  cbn [width height depth max_value tuple_type Header_initial] in *.
  split; [intros v Hv; exact (Hnum _ _ _ Hw Hv)|].
  split; [intros v Hv; exact (Hnum _ _ _ Hh Hv)|].
  split; [intros v Hv; exact (Hnum _ _ _ Hd Hv)|].
  split; [intros v Hv; exact (Hnum _ _ _ Hm Hv)|].
  split.
  - intros Hne. destruct Ht as [Ht|Ht]; [now elim Hne | exact Ht].
  - intros ->. exact (header_loop_endhdr _ _ _ _ _ H).
Qed.

Lemma X16_header_variables_witness :
  occurs_in (literal "WIDTH") (literal "WIDTH 2") /\ is_size_t 2.
Proof.
  destruct (X16_header_variables (cin_of (literal "WIDTH 2")) false
              (mkHeader (Some 2) None None None []) (mkStream [] true true) eq_refl)
    as (Hwidth & _).
  exact (Hwidth 2 eq_refl).
Defined.

(** ** The outcomes of [readPam] *)

Lemma read_channels_outcome : forall line_buffer ps index pixel,
  (exists r, read_channels line_buffer ps index pixel = Returns r)
  \/ read_channels line_buffer ps index pixel = Undefined.
Proof.
  induction ps as [|p ps IH]; intros index pixel; cbn [read_channels].
  - left. eexists. reflexivity.
  - destruct (nth_error line_buffer (Z.to_nat index)); [apply IH | now right].
Qed.

Lemma setPixel_outcome : forall image x y value,
  (exists image', setPixel image x y value = Returns image')
  \/ setPixel image x y value = Undefined.
Proof.
  intros image x y value. unfold setPixel.
  destruct ((x <? width_ image) && (y <? height_ image));
    [|left; eexists; reflexivity].
  destruct (_ <? _)%nat; [left; eexists; reflexivity | now right].
Qed.

Lemma read_row_outcome : forall line_buffer d y xs index res,
  (exists res', read_row line_buffer d y xs index res = Returns res')
  \/ read_row line_buffer d y xs index res = Undefined.
Proof.
  induction xs as [|x xs IH]; intros index res; cbn [read_row].
  - left. eexists. reflexivity.
  - destruct (read_channels_outcome line_buffer (counting 0 (Z.to_nat d)) index
                Pixel_default) as [[[pixel index1] ->] | ->]; cbn [bind]; [|now right].
    destruct (setPixel_outcome res x y pixel) as [[res1 ->] | ->]; cbn [bind];
      [apply IH | now right].
Qed.

Lemma read_rows_outcome : forall count d w ys s res,
  (exists image, read_rows count d w ys s res = Returns image)
  \/ read_rows count d w ys s res = Undefined
  \/ read_rows count d w ys s res = Throws corrupt.
Proof.
  induction ys as [|y ys IH]; intros s res; cbn [read_rows].
  - left. eexists. reflexivity.
  - destruct (read s count) as [[line_buffer s1]|]; [|now right; right].
    destruct (read_row_outcome line_buffer d y (counting 0 (Z.to_nat w)) 0 res)
      as [[res1 ->] | ->]; cbn [bind]; [apply IH | now right; left].
Qed.

Lemma read_body_outcome : forall max_pixels max_chars h s,
  (exists image, read_body max_pixels max_chars h s = Returns image)
  \/ read_body max_pixels max_chars h s = Undefined
  \/ read_body max_pixels max_chars h s = Throws unsupported
  \/ read_body max_pixels max_chars h s = Throws corrupt
  \/ read_body max_pixels max_chars h s = Throws length_error.
Proof.
  intros max_pixels max_chars h s. unfold read_body, clearAndInitialize.
  destruct (max_value h) as [m|]; [|now right; left].
  destruct (negb (m =? 255)); [now right; right; left|].
  destruct (depth h) as [d|]; [|now right; left].
  destruct ((negb (d =? 3) || negb (string_eqb (tuple_type h) (literal "RGB")))
            && (negb (d =? 4) || negb (string_eqb (tuple_type h) (literal "RGB_ALPHA"))));
    [now right; right; left|].
  destruct (width h) as [w|]; [|now right; left].
  destruct (height h) as [hh|]; [|now right; left].
  destruct (max_pixels <? size_t (w * hh)); cbn [bind]; [now right; right; right; right|].
  destruct (max_chars <? size_t (d * w)); [now right; right; right; right|].
  destruct (read_rows_outcome (size_t (d * w)) d w (counting 0 (Z.to_nat hh)) s
              (initialized w hh)) as [[image ->] | [-> | ->]].
  - left. eexists. reflexivity.
  - now right; left.
  - now right; right; right; left.
Qed.

Lemma readPam_magic : forall max_pixels max_chars rest,
  readPam max_pixels max_chars (cin_of (pam_magic ++ rest))
  = ('(endhdr, h, s4) <- read_header (mkStream rest false false) ;;
     if negb endhdr then Throws malformed else read_body max_pixels max_chars h s4).
Proof.
  reflexivity.
Qed.

Ltac other_char c H :=
  destruct c as [|?p|?p]; try reflexivity;
  repeat (match goal with p : positive |- _ => destruct p as [p|p|] end;
          try reflexivity; try (exfalso; apply H; reflexivity)).

Lemma readPam_not_magic : forall max_pixels max_chars input,
  firstn 3 input <> pam_magic ->
  readPam max_pixels max_chars (cin_of input) = Throws not_pam.
Proof.
  intros max_pixels max_chars input H.
  destruct input as [|c1 input]; [reflexivity|].
  unfold readPam, cin_of, get, good. cbn [chars eofbit failbit negb andb].
  destruct (Z.eq_dec c1 80) as [->|H1]; [|other_char c1 H1].
  destruct input as [|c2 input]; [reflexivity|].
  destruct (Z.eq_dec c2 55) as [->|H2]; [|other_char c2 H2].
  destruct input as [|c3 input]; [reflexivity|].
  destruct (Z.eq_dec c3 10) as [->|H3]; [|other_char c3 H3].
  exfalso. apply H. reflexivity.
Qed.

Lemma magic_dec : forall input : list Z,
  {firstn 3 input = pam_magic} + {firstn 3 input <> pam_magic}.
Proof.
  intros input. apply (list_eq_dec Z.eq_dec).
Qed.

Lemma read_header_outcome : forall s,
  (exists endhdr h s1, read_header s = Returns (endhdr, h, s1))
  \/ read_header s = Throws malformed.
Proof.
  intros s. apply header_loop_outcome. lia.
Qed.

Lemma readPam_outcome : forall max_pixels max_chars input,
  (exists image, readPam max_pixels max_chars (cin_of input) = Returns image)
  \/ readPam max_pixels max_chars (cin_of input) = Undefined
  \/ exists e, readPam max_pixels max_chars (cin_of input) = Throws e
               /\ readPam_throws e.
Proof.
  intros max_pixels max_chars input. unfold readPam_throws.
  destruct (magic_dec input) as [Hmagic|Hmagic].
  2: { right. right. exists not_pam. split; [now apply readPam_not_magic | now left]. }
  rewrite <- (firstn_skipn 3 input), Hmagic, readPam_magic.
  destruct (read_header_outcome (mkStream (skipn 3 input) false false))
    as [(endhdr & h & s1 & ->) | ->]; cbn [bind].
  2: { right. right. exists malformed. split; [reflexivity | now right; left]. }
  destruct endhdr; cbn [negb].
  2: { right. right. exists malformed. split; [reflexivity | now right; left]. }
  destruct (read_body_outcome max_pixels max_chars h s1)
    as [[image ->] | [-> | [-> | [-> | ->]]]].
  - left. eexists. reflexivity.
  - now right; left.
  - right. right. exists unsupported. split; [reflexivity | now right; right; left].
  - right. right. exists corrupt. split; [reflexivity | now right; right; right; left].
  - right. right. exists length_error. split; [reflexivity | now right; right; right; right].
Qed.

(** X17. [readPam] always comes to an end: every run returns an image,
    throws one of six exceptions (the five of [readPam_throws] or
    [std::bad_alloc]), or has left the defined behaviour; the fuel of the
    header loop is never used up. *)
Theorem X17_readPam_outcome : forall max_pixels max_chars input o,
  readPam_run max_pixels max_chars input o ->
  (exists image, o = Returns image)
  \/ o = Undefined
  \/ exists e, o = Throws e /\ (readPam_throws e \/ e = bad_alloc).
Proof.
  intros max_pixels max_chars input o Hrun.
  destruct Hrun as [|Hmagic].
  - destruct (readPam_outcome max_pixels max_chars input) as [H | [H | (e & H & He)]].
    + left. exact H.
    + right. left. exact H.
    + right. right. exists e. split; [exact H | now left].
  - right. right. exists bad_alloc. split; [reflexivity | now right].
Qed.

Lemma X17_readPam_outcome_witness :
  (exists image,
     readPam libstdcxx_max_pixels libstdcxx_max_chars (cin_of sample_pam) = Returns image)
  \/ readPam libstdcxx_max_pixels libstdcxx_max_chars (cin_of sample_pam) = Undefined
  \/ exists e,
       readPam libstdcxx_max_pixels libstdcxx_max_chars (cin_of sample_pam) = Throws e
       /\ (readPam_throws e \/ e = bad_alloc).
Proof.
  apply (X17_readPam_outcome libstdcxx_max_pixels libstdcxx_max_chars sample_pam).
  apply read_with_memory.
Defined.

(** X18. The input is rejected as not being a portable arbitrary map
    exactly when it does not start with [P7] and a newline. *)
Theorem X18_not_a_pam : forall max_pixels max_chars input,
  readPam max_pixels max_chars (cin_of input) = Throws not_pam
  <-> firstn 3 input <> pam_magic.
Proof.
  intros max_pixels max_chars input. split; [|apply readPam_not_magic].
  intros H Hmagic. revert H.
  rewrite <- (firstn_skipn 3 input), Hmagic, readPam_magic.
  destruct (read_header_outcome (mkStream (skipn 3 input) false false))
    as [(endhdr & h & s1 & ->) | ->]; cbn [bind]; [|discriminate].
  destruct endhdr; cbn [negb]; [|discriminate].
  destruct (read_body_outcome max_pixels max_chars h s1)
    as [[image ->] | [-> | [-> | [-> | ->]]]]; discriminate.
Qed.

Lemma readPam_no_endhdr : forall max_pixels max_chars input,
  firstn 3 input = pam_magic ->
  ~ occurs_in (literal "ENDHDR") input ->
  readPam max_pixels max_chars (cin_of input) = Throws malformed.
Proof.
  intros max_pixels max_chars input Hmagic Hno.
  rewrite <- (firstn_skipn 3 input), Hmagic, readPam_magic.
  destruct (read_header_outcome (mkStream (skipn 3 input) false false))
    as [(endhdr & h & s1 & Hheader) | ->]; [|reflexivity].
  rewrite Hheader. cbn [bind].
  destruct endhdr; [|reflexivity].
  exfalso. apply Hno. apply header_loop_endhdr in Hheader. cbn [chars] in Hheader.
  eapply occurs_in_rest; [|exact Hheader].
  exists (firstn 3 input). now rewrite firstn_skipn.
Qed.

(** X19. An input that starts like a PAM file but nowhere holds the
    characters [ENDHDR] is rejected for its malformed header, whatever
    else it holds. *)
Theorem X19_missing_endhdr : forall max_pixels max_chars input,
  firstn 3 input = pam_magic ->
  ~ occurs_in (literal "ENDHDR") input ->
  readPam max_pixels max_chars (cin_of input)
  = Throws (runtime_error "Malformed PAM image header.").
Proof.
  intros max_pixels max_chars input Hmagic Hno.
  now apply readPam_no_endhdr.
Qed.

Lemma read_body_returns : forall max_pixels max_chars h s image,
  read_body max_pixels max_chars h s = Returns image ->
  exists w hh d,
    width h = Some w /\ height h = Some hh /\ depth h = Some d
    /\ max_value h = Some 255
    /\ (d = 3 /\ tuple_type h = literal "RGB"
        \/ d = 4 /\ tuple_type h = literal "RGB_ALPHA")
    /\ size_t (w * hh) <= max_pixels /\ size_t (d * w) <= max_chars
    /\ read_rows (size_t (d * w)) d w (counting 0 (Z.to_nat hh)) s (initialized w hh)
       = Returns image.
Proof.
  intros max_pixels max_chars h s image H. unfold read_body, clearAndInitialize in H.
  destruct (max_value h) as [m|]; [|discriminate].
  destruct (m =? 255) eqn:Em; cbn [negb] in H; [|discriminate].
  apply Z.eqb_eq in Em. subst m.
  destruct (depth h) as [d|]; [|discriminate].
  destruct (width h) as [w|].
  2: { destruct (_ && _); discriminate. }
  destruct (height h) as [hh|].
  2: { destruct (_ && _); discriminate. }
  exists w, hh, d.
  destruct (d =? 3) eqn:E3; destruct (d =? 4) eqn:E4;
    destruct (string_eqb (tuple_type h) (literal "RGB")) eqn:Ergb;
    destruct (string_eqb (tuple_type h) (literal "RGB_ALPHA")) eqn:Ergba;
    cbn [negb andb orb] in H; try discriminate H;
    try apply Z.eqb_eq in E3; try apply Z.eqb_eq in E4;
    try apply string_eqb_eq in Ergb; try apply string_eqb_eq in Ergba;
    try lia.
  all: destruct (max_pixels <? size_t (w * hh)) eqn:Ep; cbn [bind] in H;
    [discriminate|].
  all: destruct (max_chars <? size_t (d * w)) eqn:Ec; [discriminate|].
  all: apply Z.ltb_ge in Ep; apply Z.ltb_ge in Ec.
  all: repeat (split; [auto; lia|]); try exact H.
Qed.

Lemma readPam_returns : forall max_pixels max_chars input image,
  readPam max_pixels max_chars (cin_of input) = Returns image ->
  firstn 3 input = pam_magic
  /\ exists h s,
       read_header (mkStream (skipn 3 input) false false) = Returns (true, h, s)
       /\ read_body max_pixels max_chars h s = Returns image.
Proof.
  intros max_pixels max_chars input image H.
  destruct (magic_dec input) as [Hmagic|Hmagic];
    [|rewrite readPam_not_magic in H by assumption; discriminate].
  split; [exact Hmagic|]. revert H.
  rewrite <- (firstn_skipn 3 input) at 1. rewrite Hmagic, readPam_magic.
  destruct (read_header (mkStream (skipn 3 input) false false))
    as [[[endhdr h] s]| | |]; cbn [bind]; try discriminate.
  destruct endhdr; cbn [negb]; [|discriminate].
  intros H. now exists h, s.
Qed.



Lemma X19_missing_endhdr_witness :
  readPam libstdcxx_max_pixels libstdcxx_max_chars (cin_of (pam_magic ++ literal "#x"))
  = Throws (runtime_error "Malformed PAM image header.").
Proof.
  apply X19_missing_endhdr; [reflexivity|].
  intros (before & after & H). apply (f_equal (@List.length Z)) in H.
  rewrite !length_app in H. simpl in H. lia.
Defined.


(** ** [readPam] returns valid images *)

Lemma In_counting : forall y from count,
  In y (counting from count) <-> from <= y < from + Z.of_nat count.
Proof.
  intros y from count. unfold counting. rewrite in_map_iff. split.
  - intros (i & <- & Hi). apply in_seq in Hi. lia.
  - intros Hy. exists (Z.to_nat (y - from)). split; [lia|]. apply in_seq. lia.
Qed.

Lemma set_channel_ok : forall pixel p value,
  Pixel_ok pixel -> Pixel_ok (set_channel pixel p (uint8_t value)).
Proof.
  intros pixel p value (Hr & Hg & Hb & Ha).
  assert (Hv : is_uint8_t (uint8_t value))
    by (unfold is_uint8_t, uint8_t; apply Z.mod_pos_bound; lia).
  unfold set_channel.
  destruct (p =? 0); [unfold Pixel_ok; cbn [r g b a]; auto|].
  destruct (p =? 1); [unfold Pixel_ok; cbn [r g b a]; auto|].
  destruct (p =? 2); [unfold Pixel_ok; cbn [r g b a]; auto|].
  destruct (p =? 3); unfold Pixel_ok; cbn [r g b a]; auto.
Qed.

Lemma read_channels_ok : forall line_buffer ps index pixel pixel' index',
  read_channels line_buffer ps index pixel = Returns (pixel', index') ->
  Pixel_ok pixel -> Pixel_ok pixel'.
Proof.
  induction ps as [|p ps IH]; intros index pixel pixel' index' H Hok;
    cbn [read_channels] in H.
  - now injection H as <- _.
  - destruct (nth_error line_buffer (Z.to_nat index)) as [c|]; [|discriminate].
    apply IH in H; [exact H | now apply set_channel_ok].
Qed.

Lemma Pixel_default_ok : Pixel_ok Pixel_default.
Proof.
  repeat split; simpl; lia.
Qed.

(** A write that returns kept the shape of the image, and was a write
    into the storage when the coordinate is inside the bounds. *)
Lemma setPixel_returns : forall image x y value image',
  setPixel image x y value = Returns image' ->
  width_ image' = width_ image /\ height_ image' = height_ image
  /\ List.length (pixels_ image') = List.length (pixels_ image)
  /\ (Pixel_ok value -> Forall Pixel_ok (pixels_ image) -> Forall Pixel_ok (pixels_ image'))
  /\ (x < width_ image -> y < height_ image ->
      size_t (width_ image * y + x) < Z.of_nat (List.length (pixels_ image))).
Proof.
  intros image x y value image' H. unfold setPixel in H.
  destruct (x <? width_ image) eqn:Ex; destruct (y <? height_ image) eqn:Ey;
    cbn [andb] in H;
    try (injection H as <-; repeat split; auto;
         try apply Z.ltb_ge in Ex; try apply Z.ltb_ge in Ey; lia).
  destruct (_ <? _)%nat eqn:Ei in H; [|discriminate].
  injection H as <-. cbn [width_ height_ pixels_]. rewrite store_length.
  apply Nat.ltb_lt in Ei.
  repeat split; auto.
  - intros Hok Hall. now apply store_Forall.
  - intros _ _. assert (0 <= size_t (width_ image * y + x))
      by (unfold size_t; apply Z.mod_pos_bound; lia). lia.
Qed.

Lemma read_row_returns : forall line_buffer d y xs index res res',
  read_row line_buffer d y xs index res = Returns res' ->
  width_ res' = width_ res /\ height_ res' = height_ res
  /\ List.length (pixels_ res') = List.length (pixels_ res)
  /\ (Forall Pixel_ok (pixels_ res) -> Forall Pixel_ok (pixels_ res'))
  /\ (forall x, In x xs -> x < width_ res -> y < height_ res ->
      size_t (width_ res * y + x) < Z.of_nat (List.length (pixels_ res))).
Proof.
  induction xs as [|x xs IH]; intros index res res' H; cbn [read_row] in H.
  - injection H as <-. repeat split; auto. intros x [].
  - destruct (read_channels line_buffer (counting 0 (Z.to_nat d)) index Pixel_default)
      as [[pixel index1]| | |] eqn:Ec; try discriminate H.
    cbn [bind] in H.
    destruct (setPixel res x y pixel) as [res1| | |] eqn:Es; try discriminate H.
    cbn [bind] in H.
    apply read_channels_ok in Ec; [|apply Pixel_default_ok].
    destruct (setPixel_returns _ _ _ _ _ Es) as (Hw1 & Hh1 & Hl1 & Hok1 & Hin1).
    destruct (IH _ _ _ H) as (Hw & Hh & Hl & Hok & Hin).
    rewrite Hw1, Hh1, Hl1 in *.
    repeat split; auto.
    intros x' [<- | Hx'] Hxw Hyh; [now apply Hin1 | now apply Hin].
Qed.

Lemma read_rows_returns : forall count d w ys s res res',
  read_rows count d w ys s res = Returns res' ->
  width_ res' = width_ res /\ height_ res' = height_ res
  /\ List.length (pixels_ res') = List.length (pixels_ res)
  /\ (Forall Pixel_ok (pixels_ res) -> Forall Pixel_ok (pixels_ res'))
  /\ (forall x y, In y ys -> 0 <= x < w -> x < width_ res -> y < height_ res ->
      size_t (width_ res * y + x) < Z.of_nat (List.length (pixels_ res))).
Proof.
  induction ys as [|y ys IH]; intros s res res' H; cbn [read_rows] in H.
  - injection H as <-. repeat split; auto. intros x y [].
  - destruct (read s count) as [[line_buffer s1]|]; [|discriminate].
    destruct (read_row line_buffer d y (counting 0 (Z.to_nat w)) 0 res)
      as [res1| | |] eqn:Er; try discriminate H.
    cbn [bind] in H.
    destruct (read_row_returns _ _ _ _ _ _ _ Er) as (Hw1 & Hh1 & Hl1 & Hok1 & Hin1).
    destruct (IH _ _ _ H) as (Hw & Hh & Hl & Hok & Hin).
    rewrite Hw1, Hh1, Hl1 in *.
    repeat split; auto.
    intros x y' [<- | Hy'] Hx Hxw Hyh.
    + apply Hin1; try assumption. apply In_counting. lia.
    + now apply Hin.
Qed.

(** Rows that were all written fit the storage: the pixel count did not
    overflow. *)
Lemma read_rows_initialized : forall count d w hh s image,
  is_size_t w -> is_size_t hh ->
  read_rows count d w (counting 0 (Z.to_nat hh)) s (initialized w hh) = Returns image ->
  w * hh < 2 ^ 64 /\ valid image.
Proof.
  intros count d w hh s image Hw Hh H.
  destruct (read_rows_returns _ _ _ _ _ _ _ H) as (Hwi & Hhi & Hl & Hok & Hin).
  unfold initialized in *. cbn [width_ height_ pixels_] in *.
  rewrite repeat_length in *. unfold is_size_t in *.
  assert (Hn : 0 <= size_t (w * hh) < 2 ^ 64)
    by (unfold size_t; apply Z.mod_pos_bound; lia).
  assert (Hsz : w * hh < 2 ^ 64).
  { destruct (Z_lt_ge_dec (w * hh) (2 ^ 64)) as [Hlt|Hge]; [exact Hlt|exfalso].
    assert (Hwpos : 0 < w) by nia.
    set (n := size_t (w * hh)) in *.
    pose proof (Z.div_mod n w ltac:(lia)) as Hdiv.
    pose proof (Z.mod_pos_bound n w Hwpos) as Hmod.
    assert (Hy0 : 0 <= n / w) by (apply Z.div_pos; lia).
    assert (Hy : n / w < hh) by (apply Z.div_lt_upper_bound; lia).
    specialize (Hin (n mod w) (n / w)).
    rewrite <- Hdiv in Hin.
    assert (Hnn : size_t n = n) by (unfold size_t; apply Z.mod_small; lia).
    rewrite Hnn in Hin.
    assert (n < Z.of_nat (Z.to_nat n)); [|lia].
    apply Hin; try lia. apply In_counting. lia. }
  split; [exact Hsz|].
  unfold valid, is_size_t. rewrite Hwi, Hhi, Hl.
  assert (Hwrap : size_t (w * hh) = w * hh)
    by (unfold size_t; apply Z.mod_small; nia).
  rewrite Hwrap.
  repeat split; try lia; try nia.
  apply Hok. apply Forall_forall. intros q Hq. apply repeat_spec in Hq. subst q.
  apply Pixel_default_ok.
Qed.

Lemma readPam_valid : forall max_pixels max_chars input image,
  readPam max_pixels max_chars (cin_of input) = Returns image -> valid image.
Proof.
  intros max_pixels max_chars input image H.
  destruct (readPam_returns _ _ _ _ H) as (_ & h & s & Hheader & Hbody).
  destruct (read_body_returns _ _ _ _ _ Hbody)
    as (w & hh & d & Hw & Hh & _ & _ & _ & _ & _ & Hrows).
  pose proof (header_loop_from _ _ _ _ _ _ Hheader) as (Fw & Fh & _).
  cbn [width height Header_initial] in *.
  assert (Hnum : forall new keyword cs v,
            number_from None new keyword cs -> new = Some v -> is_size_t v).
  { intros new keyword cs v [Hnone | (_ & v' & Hv' & Hsz)] Hnew; congruence. }
  apply (read_rows_initialized _ _ _ _ _ _ (Hnum _ _ _ _ Fw Hw) (Hnum _ _ _ _ Fh Hh)
           Hrows).
Qed.

(** X21. Every image that [readPam] returns is valid: it holds
    [width * height] pixels, a count that did not overflow, and every
    channel is a byte. The encoder never reads outside such an image. *)
Theorem X21_readPam_returns_valid : forall max_pixels max_chars input image,
  readPam max_pixels max_chars (cin_of input) = Returns image -> valid image.
Proof.
  intros max_pixels max_chars input image H.
  exact (readPam_valid max_pixels max_chars input image H).
Qed.

Lemma X21_readPam_returns_valid_witness : valid sample_image.
Proof.
  exact (X21_readPam_returns_valid libstdcxx_max_pixels libstdcxx_max_chars
           sample_pam sample_image eq_refl).
Defined.

Lemma threads_of_outcome : forall hardware_concurrency args,
  (exists threads, threads_of hardware_concurrency args = Returns threads)
  \/ (exists e, threads_of hardware_concurrency args = Throws e).
Proof.
  intros hw [|arg rest]; cbn [threads_of]; [left; eexists; reflexivity|].
  destruct (stoul_outcome arg) as [[v ->] | [e ->]]; cbn [bind];
    [left | right]; eexists; reflexivity.
Qed.

Lemma pam2qoi_exits : forall max_size max_pixels max_chars hardware_concurrency args input,
  readPam max_pixels max_chars (cin_of input) <> Undefined ->
  exists cout status,
    pam2qoi max_size max_pixels max_chars hardware_concurrency args input
    = (cout, Returns status)
    /\ (status = 0 \/ status = 1).
Proof.
  intros max_size max_pixels max_chars hw args input Hdefined. unfold pam2qoi.
  destruct (threads_of_outcome hw args) as [[threads ->] | [e ->]].
  2: { exists [], 1. split; [reflexivity | now right]. }
  destruct (readPam_outcome max_pixels max_chars input)
    as [[image Hread] | [Hread | (e & Hread & _)]].
  - rewrite Hread. apply main_exits. exact (readPam_valid _ _ _ _ Hread).
  - contradiction.
  - rewrite Hread. exists [], 1. split; [reflexivity | now right].
Qed.

(** X22. The whole program, from the arguments and the input to the
    output and the exit status: unless [readPam] leaves the defined
    behaviour, the program ends with exit status 0 or 1. *)
Theorem X22_pam2qoi_exits :
  forall max_size max_pixels max_chars hardware_concurrency args input,
  readPam max_pixels max_chars (cin_of input) <> Undefined ->
  exists cout status,
    pam2qoi max_size max_pixels max_chars hardware_concurrency args input
    = (cout, Returns status)
    /\ (status = 0 \/ status = 1).
Proof.
  intros max_size max_pixels max_chars hw args input Hdefined.
  destruct (pam2qoi_exits max_size max_pixels max_chars hw args input Hdefined)
    as (cout & status & Hrun & Hstatus).
  exists cout, status. split; assumption.
Qed.

Lemma X22_pam2qoi_exits_witness :
  exists cout status,
    pam2qoi libstdcxx_max_size libstdcxx_max_pixels libstdcxx_max_chars 4 [] sample_pam
    = (cout, Returns status)
    /\ (status = 0 \/ status = 1).
Proof.
  apply X22_pam2qoi_exits. discriminate.
Defined.

(** ** A file as Netpbm writes it *)

Lemma is_digit_bounds : forall c, is_digit c = true -> 48 <= c <= 57.
Proof.
  intros c H. unfold is_digit in H. apply andb_true_iff in H. destruct H as [H1 H2].
  apply Z.leb_le in H1. apply Z.leb_le in H2. lia.
Qed.

Lemma take_digits_all : forall ds acc rest,
  forallb is_digit ds = true ->
  take_digits (ds ++ 10 :: rest) (Some acc)
  = (Some (fold_left (fun acc c => 10 * acc + (c - 48)) ds acc), 10 :: rest).
Proof.
  induction ds as [|c ds IH]; intros acc rest H; [reflexivity|].
  cbn [forallb] in H. apply andb_true_iff in H. destruct H as [Hc Hds].
  cbn [app take_digits fold_left]. unfold is_digit in Hc. rewrite Hc.
  now rewrite IH.
Qed.

Lemma fold_digits_nonneg : forall ds acc,
  forallb is_digit ds = true -> 0 <= acc ->
  0 <= fold_left (fun acc c => 10 * acc + (c - 48)) ds acc.
Proof.
  induction ds as [|c ds IH]; intros acc H Hacc; [exact Hacc|].
  cbn [forallb] in H. apply andb_true_iff in H. destruct H as [Hc Hds].
  apply is_digit_bounds in Hc. cbn [fold_left]. apply IH; [exact Hds | lia].
Qed.

Lemma number_nonneg : forall ds, forallb is_digit ds = true -> 0 <= number ds.
Proof.
  intros ds H. unfold number. apply fold_digits_nonneg; [exact H | lia].
Qed.

(** [assign] on a blank, the digits of a number and the end of the line. *)
Lemma assign_size_t_digits : forall c ds rest,
  forallb is_digit (c :: ds) = true -> number (c :: ds) < 2 ^ 64 ->
  assign_size_t (mkStream (32 :: c :: ds ++ 10 :: rest) false false)
  = Returns (number (c :: ds), mkStream rest false false).
Proof.
  intros c ds rest Hdigits Hsmall.
  pose proof Hdigits as Hall.
  cbn [forallb] in Hdigits. apply andb_true_iff in Hdigits. destruct Hdigits as [Hc Hds].
  pose proof (is_digit_bounds c Hc) as Hb.
  assert (Hblank : is_blank c = false).
  { unfold is_blank.
    replace (c =? 9) with false by (symmetry; apply Z.eqb_neq; lia).
    replace (c =? 13) with false by (symmetry; apply Z.eqb_neq; lia).
    now replace (c =? 32) with false by (symmetry; apply Z.eqb_neq; lia). }
  assert (Hspace : is_space c = false).
  { unfold is_space.
    replace (c <=? 13) with false by (symmetry; apply Z.leb_gt; lia).
    replace (c =? 32) with false by (symmetry; apply Z.eqb_neq; lia).
    now rewrite andb_false_r. }
  unfold assign_size_t, skip_ws, good. cbn [eofbit failbit chars negb andb skip_ws_from].
  change (is_blank 32) with true. cbn iota. rewrite Hblank.
  unfold extract_size_t, good. cbn [eofbit failbit chars negb andb skip_spaces].
  rewrite Hspace.
  replace (c =? 45) with false by (symmetry; apply Z.eqb_neq; lia).
  replace (c =? 43) with false by (symmetry; apply Z.eqb_neq; lia).
  cbn [take_digits]. unfold is_digit in Hc. rewrite Hc.
  rewrite take_digits_all by exact Hds.
  change (fold_left (fun acc c0 => 10 * acc + (c0 - 48)) ds (10 * 0 + (c - 48)))
    with (number (c :: ds)).
  replace (number (c :: ds) >? 2 ^ 64 - 1) with false
    by (symmetry; rewrite Z.gtb_ltb; apply Z.ltb_ge; lia).
  reflexivity.
Qed.

Lemma header_line_width : forall fuel h c ds rest,
  forallb is_digit (c :: ds) = true -> number (c :: ds) < 2 ^ 64 ->
  header_loop (S fuel) h (mkStream (literal "WIDTH " ++ c :: ds ++ 10 :: rest) false false)
  = header_loop fuel
      (mkHeader (Some (number (c :: ds))) (height h) (depth h) (max_value h) (tuple_type h))
      (mkStream rest false false).
Proof.
  intros fuel h c ds rest Hdigits Hsmall.
  pose proof (assign_size_t_digits c ds rest Hdigits Hsmall) as Hassign.
  remember (c :: ds ++ 10 :: rest) as tail eqn:Etail.
  remember (number (c :: ds)) as v eqn:Ev.
  cbn -[assign_size_t header_loop]. cbn [header_loop].
  cbn -[assign_size_t header_loop].
  rewrite Hassign. reflexivity.
Qed.

Lemma header_line_height : forall fuel h c ds rest,
  forallb is_digit (c :: ds) = true -> number (c :: ds) < 2 ^ 64 ->
  header_loop (S fuel) h (mkStream (literal "HEIGHT " ++ c :: ds ++ 10 :: rest) false false)
  = header_loop fuel
      (mkHeader (width h) (Some (number (c :: ds))) (depth h) (max_value h) (tuple_type h))
      (mkStream rest false false).
Proof.
  intros fuel h c ds rest Hdigits Hsmall.
  pose proof (assign_size_t_digits c ds rest Hdigits Hsmall) as Hassign.
  remember (c :: ds ++ 10 :: rest) as tail eqn:Etail.
  remember (number (c :: ds)) as v eqn:Ev.
  cbn -[assign_size_t header_loop]. cbn [header_loop].
  cbn -[assign_size_t header_loop].
  rewrite Hassign. reflexivity.
Qed.

Lemma header_lines_fixed : forall (alpha : bool) fuel h body,
  header_loop (S (S (S (S fuel)))) h
    (mkStream (literal (if alpha then "DEPTH 4" else "DEPTH 3") ++ [10]
               ++ literal "MAXVAL 255" ++ [10]
               ++ literal (if alpha then "TUPLTYPE RGB_ALPHA" else "TUPLTYPE RGB") ++ [10]
               ++ literal "ENDHDR" ++ [10]
               ++ body) false false)
  = Returns (true,
             mkHeader (width h) (height h) (Some (if alpha then 4 else 3)) (Some 255)
               (literal (if alpha then "RGB_ALPHA" else "RGB")),
             mkStream body false false).
Proof.
  intros [|] fuel h body; reflexivity.
Qed.

Lemma read_header_netpbm : forall alpha c ds c' ds' body,
  forallb is_digit (c :: ds) = true -> number (c :: ds) < 2 ^ 64 ->
  forallb is_digit (c' :: ds') = true -> number (c' :: ds') < 2 ^ 64 ->
  read_header (mkStream (skipn 3 (pam_file alpha (c :: ds) (c' :: ds') body)) false false)
  = Returns (true,
             mkHeader (Some (number (c :: ds))) (Some (number (c' :: ds')))
               (Some (if alpha then 4 else 3)) (Some 255)
               (literal (if alpha then "RGB_ALPHA" else "RGB")),
             mkStream body false false).
Proof.
  intros alpha c ds c' ds' body Hw Hwsmall Hh Hhsmall.
  set (tail := literal (if alpha then "DEPTH 4" else "DEPTH 3") ++ [10]
               ++ literal "MAXVAL 255" ++ [10]
               ++ literal (if alpha then "TUPLTYPE RGB_ALPHA" else "TUPLTYPE RGB") ++ [10]
               ++ literal "ENDHDR" ++ [10]
               ++ body).
  change (skipn 3 (pam_file alpha (c :: ds) (c' :: ds') body))
    with (literal "WIDTH " ++ c :: ds ++ 10 :: literal "HEIGHT " ++ c' :: ds' ++ 10 :: tail).
  unfold read_header. cbn [chars].
  assert (Hlen : exists k,
            List.length (literal "WIDTH " ++ c :: ds ++ 10
                         :: literal "HEIGHT " ++ c' :: ds' ++ 10 :: tail)
            = S (S (S (S (S k))))).
  { cbn [literal app List.length]. eexists. reflexivity. }
  destruct Hlen as [k ->].
  rewrite header_line_width by assumption.
  rewrite header_line_height by assumption.
  unfold tail. rewrite header_lines_fixed. reflexivity.
Qed.

Lemma readPam_netpbm :
  forall max_pixels max_chars (alpha : bool) width_digits height_digits body,
  width_digits <> [] -> forallb is_digit width_digits = true ->
  height_digits <> [] -> forallb is_digit height_digits = true ->
  let w := number width_digits in
  let hh := number height_digits in
  let d := if alpha then 4 else 3 in
  w < 2 ^ 64 -> hh < 2 ^ 64 -> w * hh < 2 ^ 64 -> d * w < 2 ^ 64 ->
  w * hh <= max_pixels -> d * w <= max_chars ->
  d * w * hh <= Z.of_nat (List.length body) ->
  exists image,
    readPam max_pixels max_chars
      (cin_of (pam_file alpha width_digits height_digits body)) = Returns image
    /\ valid image /\ getWidth image = w /\ getHeight image = hh
    /\ (forall x y, 0 <= x < w -> 0 <= y < hh ->
        getPixel image x y = Returns (channels_at body ((w * y + x) * d) d)).
Proof.
  intros max_pixels max_chars alpha wd hd body Hwne Hwd Hhne Hhd w hh d
    Hw Hh Hsz Hcount Hpixels Hchars Hlen.
  destruct wd as [|c ds]; [congruence|]. destruct hd as [|c' ds']; [congruence|].
  pose proof (number_nonneg _ Hwd) as Hw0. pose proof (number_nonneg _ Hhd) as Hh0.
  pose proof (read_header_netpbm alpha c ds c' ds' body Hwd Hw Hhd Hh) as Hheader.
  set (h := mkHeader (Some w) (Some hh) (Some d) (Some 255)
              (literal (if alpha then "RGB_ALPHA" else "RGB"))).
  assert (Hformat : d = 3 /\ tuple_type h = literal "RGB"
                    \/ d = 4 /\ tuple_type h = literal "RGB_ALPHA")
    by (unfold h, d; cbn [tuple_type]; destruct alpha; auto).
  assert (Hwsz : is_size_t w) by (unfold is_size_t; fold w in Hw0; lia).
  assert (Hhsz : is_size_t hh) by (unfold is_size_t; fold hh in Hh0; lia).
  destruct (proj1 (read_body_rows max_pixels max_chars h (mkStream body false false) w hh d
                     eq_refl eq_refl eq_refl eq_refl Hformat Hwsz Hhsz
                     Hsz Hcount Hpixels Hchars) eq_refl Hlen)
    as (image & Hbody & Hrest).
  exists image. split; [|exact Hrest].
  change (pam_file alpha (c :: ds) (c' :: ds') body)
    with (pam_magic ++ skipn 3 (pam_file alpha (c :: ds) (c' :: ds') body)).
  rewrite readPam_magic, Hheader. cbn [bind negb]. exact Hbody.
Qed.

(** X23. A file as Netpbm writes it is read as it stands: for the magic
    number, [WIDTH] and [HEIGHT] with decimal digits, [DEPTH 3],
    [MAXVAL 255] and [TUPLTYPE RGB] (or depth 4 and [RGB_ALPHA]),
    [ENDHDR] and a body of at least [depth * width * height] characters,
    [readPam] returns a valid image of that width and height whose pixel
    at column [x] of row [y] is made of the [depth] characters of the
    body from [(width * y + x) * depth] on. *)
Theorem X23_reads_netpbm_file :
  forall max_pixels max_chars (alpha : bool) width_digits height_digits body,
  width_digits <> [] -> forallb is_digit width_digits = true ->
  height_digits <> [] -> forallb is_digit height_digits = true ->
  let w := number width_digits in
  let hh := number height_digits in
  let d := if alpha then 4 else 3 in
  w < 2 ^ 64 -> hh < 2 ^ 64 -> w * hh < 2 ^ 64 -> d * w < 2 ^ 64 ->
  w * hh <= max_pixels -> d * w <= max_chars ->
  d * w * hh <= Z.of_nat (List.length body) ->
  exists image,
    readPam max_pixels max_chars
      (cin_of (pam_file alpha width_digits height_digits body)) = Returns image
    /\ valid image /\ getWidth image = w /\ getHeight image = hh
    /\ (forall x y, 0 <= x < w -> 0 <= y < hh ->
        getPixel image x y = Returns (channels_at body ((w * y + x) * d) d)).
Proof.
  intros max_pixels max_chars alpha wd hd body Hwne Hwd Hhne Hhd w hh d
    Hw Hh Hsz Hcount Hpixels Hchars Hlen.
  now apply readPam_netpbm.
Qed.

Lemma X23_reads_netpbm_file_witness :
  exists image,
    readPam libstdcxx_max_pixels libstdcxx_max_chars (cin_of sample_pam) = Returns image
    /\ getPixel image 1 0 = Returns (mkPixel 0 255 0 255).
Proof.
  destruct (X23_reads_netpbm_file libstdcxx_max_pixels libstdcxx_max_chars false
              (literal "2") (literal "1") [255; 0; 0; 0; 255; 0])
    as (image & Hread & _ & _ & _ & Hget);
    try discriminate; try reflexivity;
    try (unfold libstdcxx_max_pixels, libstdcxx_max_chars; simpl; lia).
  exists image. split; [exact Hread|]. apply (Hget 1 0); cbv; split; congruence.
Defined.

(** ** Comments *)

(** The fuel of the header loop does not show in its result. *)
Lemma header_loop_fuel : forall fuel fuel' h s,
  (List.length (chars s) < fuel)%nat -> (List.length (chars s) < fuel')%nat ->
  header_loop fuel h s = header_loop fuel' h s.
Proof.
  induction fuel as [|fuel IH]; intros [|fuel'] h s Hfuel Hfuel'; try lia.
  cbn [header_loop].
  destruct (get s) as [[c|] s1] eqn:Eget; [|reflexivity].
  pose proof (get_some _ _ _ Eget) as (_ & Hchars & _).
  pose proof (unget_get _ _ _ Eget) as [Hunget _].
  rewrite Hchars in Hfuel, Hfuel'. cbn [List.length] in Hfuel, Hfuel'.
  destruct (c =? 35).
  { pose proof (skip_to_eol_shorter s1) as Hsh. unfold shorter in Hsh. apply IH; lia. }
  destruct (extract_string (skip_ws (unget c s1))) as [[token s2]|] eqn:Etok;
    [|reflexivity].
  destruct (extract_string_shorter _ _ _ Etok) as [_ Hlt].
  pose proof (skip_ws_shorter (unget c s1)) as Hws. unfold shorter in Hws.
  rewrite Hunget, Hchars in Hws. cbn [List.length] in Hws.
  assert (Hnext : forall h' s3, shorter s3 s2 ->
            header_loop fuel h' s3 = header_loop fuel' h' s3).
  { intros h' s3 Hsh. unfold shorter in Hsh. apply IH; lia. }
  assert (Hnum : forall h' : Z -> Header,
            bind (assign_size_t s2) (fun x => match x with
                                              | (out, s3) => header_loop fuel (h' out) s3
                                              end)
            = bind (assign_size_t s2) (fun x => match x with
                                                | (out, s3) => header_loop fuel' (h' out) s3
                                                end)).
  { intros h'.
    destruct (assign_size_t_outcome s2) as [(out & s3 & -> & Hsh) | ->];
      cbn [bind]; [now apply Hnext | reflexivity]. }
  destruct (string_eqb token (literal "WIDTH")); [apply Hnum|].
  destruct (string_eqb token (literal "HEIGHT")); [apply Hnum|].
  destruct (string_eqb token (literal "DEPTH")); [apply Hnum|].
  destruct (string_eqb token (literal "MAXVAL")); [apply Hnum|].
  destruct (string_eqb token (literal "TUPLTYPE")).
  { destruct (assign_string_outcome s2) as [(out & s3 & -> & Hsh) | ->];
      cbn [bind]; [now apply Hnext | reflexivity]. }
  destruct (string_eqb token (literal "ENDHDR")); [reflexivity|].
  apply Hnext. apply skip_to_eol_shorter.
Qed.

Lemma skip_to_eol_from_line : forall line rest,
  ~ In 10 line -> skip_to_eol_from (line ++ 10 :: rest) = mkStream rest false false.
Proof.
  induction line as [|c line IH]; intros rest Hno; [reflexivity|].
  cbn [app skip_to_eol_from].
  replace (c =? 10) with false
    by (symmetry; apply Z.eqb_neq; intros ->; apply Hno; now left).
  apply IH. intros Hin. apply Hno. now right.
Qed.

Lemma header_loop_comment : forall fuel h comment rest,
  ~ In 10 comment ->
  header_loop (S fuel) h (mkStream (35 :: comment ++ 10 :: rest) false false)
  = header_loop fuel h (mkStream rest false false).
Proof.
  intros fuel h comment rest Hno.
  cbn [header_loop]. unfold get, good. cbn [chars eofbit failbit negb andb].
  change (35 =? 35) with true. cbn iota.
  unfold skip_to_eol, good. cbn [chars eofbit failbit negb andb].
  now rewrite skip_to_eol_from_line.
Qed.

Lemma readPam_comment : forall max_pixels max_chars comment rest,
  ~ In 10 comment ->
  readPam max_pixels max_chars (cin_of (pam_magic ++ 35 :: comment ++ 10 :: rest))
  = readPam max_pixels max_chars (cin_of (pam_magic ++ rest)).
Proof.
  intros max_pixels max_chars comment rest Hno.
  rewrite !readPam_magic. f_equal.
  unfold read_header. cbn [chars].
  change (List.length (35 :: comment ++ 10 :: rest))
    with (S (List.length (comment ++ 10 :: rest))).
  rewrite header_loop_comment by assumption.
  apply header_loop_fuel; cbn [chars]; rewrite ?length_app; cbn [List.length]; lia.
Qed.

(** X24. A comment line behind the magic number is skipped: the file with
    the line and the file without it are read alike, whatever the line
    holds. *)
Theorem X24_comment_is_skipped : forall max_pixels max_chars comment rest,
  ~ In 10 comment ->
  readPam max_pixels max_chars (cin_of (pam_magic ++ 35 :: comment ++ 10 :: rest))
  = readPam max_pixels max_chars (cin_of (pam_magic ++ rest)).
Proof.
  intros max_pixels max_chars comment rest Hno.
  now apply readPam_comment.
Qed.

Lemma X24_comment_is_skipped_witness :
  readPam libstdcxx_max_pixels libstdcxx_max_chars
    (cin_of (pam_magic ++ 35 :: literal " ENDHDR" ++ 10 :: skipn 3 sample_pam))
  = readPam libstdcxx_max_pixels libstdcxx_max_chars (cin_of (pam_magic ++ skipn 3 sample_pam)).
Proof.
  apply X24_comment_is_skipped.
  simpl. intros H. repeat (destruct H as [H|H]; [discriminate H|]). exact H.
Defined.

(** ** Variables that the header did not assign *)

Lemma readPam_unassigned : forall max_pixels max_chars rest h s,
  read_header (mkStream rest false false) = Returns (true, h, s) ->
  (~ occurs_in (literal "MAXVAL") rest ->
   readPam max_pixels max_chars (cin_of (pam_magic ++ rest)) = Undefined)
  /\ (max_value h = Some 255 -> ~ occurs_in (literal "DEPTH") rest ->
      readPam max_pixels max_chars (cin_of (pam_magic ++ rest)) = Undefined)
  /\ (max_value h = Some 255 ->
      depth h = Some 3 /\ tuple_type h = literal "RGB"
      \/ depth h = Some 4 /\ tuple_type h = literal "RGB_ALPHA" ->
      ~ occurs_in (literal "WIDTH") rest \/ ~ occurs_in (literal "HEIGHT") rest ->
      readPam max_pixels max_chars (cin_of (pam_magic ++ rest)) = Undefined).
Proof.
  intros max_pixels max_chars rest h s Hheader.
  pose proof (header_loop_from _ _ _ _ _ _ Hheader) as (Fw & Fh & Fd & Fm & _).
  cbn [chars width height depth max_value Header_initial] in *.
  assert (Hnone : forall new keyword,
            number_from None new keyword rest ->
            ~ occurs_in (literal keyword) rest -> new = None).
  { intros new keyword [Hnew | (Hocc & _)] Hno; [exact Hnew | contradiction]. }
  rewrite readPam_magic, Hheader. cbn [bind negb]. unfold read_body.
  split; [|split].
  - intros Hno. now rewrite (Hnone _ _ Fm Hno).
  - intros Hm Hno. rewrite Hm, (Hnone _ _ Fd Hno). reflexivity.
  - intros Hm Hformat Hno. rewrite Hm.
    assert (Hwh : width h = None \/ height h = None).
    { destruct Hno as [Hno|Hno]; [left | right]; eapply Hnone; eassumption. }
    destruct Hformat as [[-> ->] | [-> ->]]; cbn [Z.eqb Pos.eqb negb andb orb];
      rewrite ?string_eqb_refl; cbn [negb andb orb];
      destruct Hwh as [-> | ->]; try reflexivity; now destruct (width h).
Qed.

(** X25. Nothing checks that the header assigned its variables. Once the
    line [ENDHDR] was read, a header without [MAXVAL] is a read of a
    variable that was never assigned; so is a header without [DEPTH] when
    the maximum value is 255, and a header without [WIDTH] or without
    [HEIGHT] when depth and tuple type are supported. *)
Theorem X25_unassigned_variables : forall max_pixels max_chars rest h s,
  read_header (mkStream rest false false) = Returns (true, h, s) ->
  (~ occurs_in (literal "MAXVAL") rest ->
   readPam max_pixels max_chars (cin_of (pam_magic ++ rest)) = Undefined)
  /\ (max_value h = Some 255 -> ~ occurs_in (literal "DEPTH") rest ->
      readPam max_pixels max_chars (cin_of (pam_magic ++ rest)) = Undefined)
  /\ (max_value h = Some 255 ->
      depth h = Some 3 /\ tuple_type h = literal "RGB"
      \/ depth h = Some 4 /\ tuple_type h = literal "RGB_ALPHA" ->
      ~ occurs_in (literal "WIDTH") rest \/ ~ occurs_in (literal "HEIGHT") rest ->
      readPam max_pixels max_chars (cin_of (pam_magic ++ rest)) = Undefined).
Proof.
  intros max_pixels max_chars rest h s Hheader.
  exact (readPam_unassigned max_pixels max_chars rest h s Hheader).
Qed.

Lemma X25_unassigned_variables_witness :
  readPam libstdcxx_max_pixels libstdcxx_max_chars
    (cin_of (pam_magic ++ literal "ENDHDR"))
  = Undefined.
Proof.
  refine (proj1 (X25_unassigned_variables libstdcxx_max_pixels libstdcxx_max_chars
                   (literal "ENDHDR") Header_initial (mkStream [] true true) eq_refl) _).
  intros (before & after & H).
  destruct before as [|c before]; [simpl in H; discriminate H|].
  apply (f_equal (@List.length Z)) in H.
  rewrite !length_app in H. simpl in H. lia.
Defined.

(** ** The program on a Netpbm file *)

Lemma pam2qoi_empty :
  forall max_size max_pixels max_chars hardware_concurrency args
         (alpha : bool) width_digits height_digits body,
  width_digits <> [] -> forallb is_digit width_digits = true ->
  height_digits <> [] -> forallb is_digit height_digits = true ->
  let w := number width_digits in
  let hh := number height_digits in
  let d := if alpha then 4 else 3 in
  w < 2 ^ 64 -> hh < 2 ^ 64 -> w = 0 \/ hh = 0 ->
  d * w < 2 ^ 64 -> 0 <= max_pixels -> d * w <= max_chars ->
  pam2qoi max_size max_pixels max_chars hardware_concurrency args
    (pam_file alpha width_digits height_digits body)
  = ([], Returns 1).
Proof.
  intros max_size max_pixels max_chars hw args alpha wd hd body Hwne Hwd Hhne Hhd w hh d
    Hw Hh Hzero Hcount Hpixels Hchars.
  destruct (readPam_netpbm max_pixels max_chars alpha wd hd body Hwne Hwd Hhne Hhd)
    as (image & Hread & _ & Hwi & Hhi & _); fold w hh d; try assumption; try nia.
  fold w in Hwi. fold hh in Hhi.
  unfold pam2qoi, main.
  destruct (threads_of_outcome hw args) as [[threads ->] | [e ->]]; [|reflexivity].
  rewrite Hread.
  assert (Hempty : to_bool image = false).
  { unfold to_bool. unfold getWidth in Hwi. unfold getHeight in Hhi. rewrite Hwi, Hhi.
    destruct Hzero as [-> | ->]; cbn [Z.eqb negb andb]; [reflexivity|].
    apply andb_false_r. }
  now rewrite Hempty.
Qed.

(** X26. A Netpbm file of width 0 or of height 0 is an empty image: the
    program writes nothing and ends with exit status 1, whatever the
    arguments. *)
Theorem X26_empty_image_fails :
  forall max_size max_pixels max_chars hardware_concurrency args
         (alpha : bool) width_digits height_digits body,
  width_digits <> [] -> forallb is_digit width_digits = true ->
  height_digits <> [] -> forallb is_digit height_digits = true ->
  let w := number width_digits in
  let hh := number height_digits in
  let d := if alpha then 4 else 3 in
  w < 2 ^ 64 -> hh < 2 ^ 64 -> w = 0 \/ hh = 0 ->
  d * w < 2 ^ 64 -> 0 <= max_pixels -> d * w <= max_chars ->
  pam2qoi max_size max_pixels max_chars hardware_concurrency args
    (pam_file alpha width_digits height_digits body)
  = ([], Returns 1).
Proof.
  intros max_size max_pixels max_chars hw args alpha wd hd body Hwne Hwd Hhne Hhd w hh d
    Hw Hh Hzero Hcount Hpixels Hchars.
  now apply pam2qoi_empty.
Qed.

Lemma X26_empty_image_fails_witness :
  pam2qoi libstdcxx_max_size libstdcxx_max_pixels libstdcxx_max_chars 4 []
    (pam_file false (literal "0") (literal "7") [])
  = ([], Returns 1).
Proof.
  apply X26_empty_image_fails;
    try discriminate; try reflexivity;
    try (unfold libstdcxx_max_pixels, libstdcxx_max_chars; simpl; lia).
  now left.
Defined.

Lemma pam2qoi_serial :
  forall max_size max_pixels max_chars hardware_concurrency args threads
         (alpha : bool) width_digits height_digits body,
  threads_of hardware_concurrency args = Returns threads -> threads < 2 ->
  width_digits <> [] -> forallb is_digit width_digits = true ->
  height_digits <> [] -> forallb is_digit height_digits = true ->
  let w := number width_digits in
  let hh := number height_digits in
  let d := if alpha then 4 else 3 in
  1 <= w -> 1 <= hh -> 8 * (w * hh) < 2 ^ 64 ->
  w * hh <= max_pixels -> d * w <= max_chars -> 8 * (w * hh) / 3 <= max_size ->
  d * w * hh <= Z.of_nat (List.length body) ->
  exists image,
    readPam max_pixels max_chars
      (cin_of (pam_file alpha width_digits height_digits body)) = Returns image
    /\ pam2qoi max_size max_pixels max_chars hardware_concurrency args
         (pam_file alpha width_digits height_digits body)
       = (write_header [] image ++ ops_bytes (chunk_ops image 0 hh) ++ end_marker,
          Returns 0).
Proof.
  intros max_size max_pixels max_chars hw args threads alpha wd hd body Hthreads Hserial
    Hwne Hwd Hhne Hhd w hh d Hw Hh Hsz Hpixels Hchars Hreserve Hlen.
  assert (Hd : d = 3 \/ d = 4) by (unfold d; destruct alpha; auto).
  destruct (readPam_netpbm max_pixels max_chars alpha wd hd body Hwne Hwd Hhne Hhd)
    as (image & Hread & Hv & Hwi & Hhi & _); fold w hh d; try assumption; try nia.
  fold w in Hwi. fold hh in Hhi.
  exists image. split; [exact Hread|].
  unfold pam2qoi, main. rewrite Hthreads, Hread.
  assert (Hfull : to_bool image = true).
  { unfold to_bool. unfold getWidth in Hwi. unfold getHeight in Hhi. rewrite Hwi, Hhi.
    replace (w =? 0) with false by (symmetry; apply Z.eqb_neq; lia).
    now replace (hh =? 0) with false by (symmetry; apply Z.eqb_neq; lia). }
  rewrite Hfull. unfold encode_image.
  replace (threads <? 2) with true by (symmetry; apply Z.ltb_lt; lia).
  rewrite encodeQoi_shape; try assumption; try lia.
  - rewrite Hhi. unfold chunk_header, chunk_footer, footer_due. cbn [Z.eqb].
    rewrite Hhi.
    replace (size_t (hh + 1) >=? hh) with true; [reflexivity|].
    symmetry. apply Z.geb_le. unfold size_t. rewrite Z.mod_small; lia.
  - pose proof (reserve_request_bound image 0 (getHeight image)) as Hbound.
    rewrite Hwi, Hhi in Hbound. rewrite Hhi. specialize (Hbound ltac:(lia) ltac:(lia)
      ltac:(lia) Hsz). lia.
Qed.

(** X27. The program on a Netpbm file of at least one pixel, with fewer
    than two workers: the file is read and encoded in one chunk, the
    output is the QOI header, the opcodes of all rows and the end marker,
    and the exit status is 0. *)
Theorem X27_serial_run :
  forall max_size max_pixels max_chars hardware_concurrency args threads
         (alpha : bool) width_digits height_digits body,
  threads_of hardware_concurrency args = Returns threads -> threads < 2 ->
  width_digits <> [] -> forallb is_digit width_digits = true ->
  height_digits <> [] -> forallb is_digit height_digits = true ->
  let w := number width_digits in
  let hh := number height_digits in
  let d := if alpha then 4 else 3 in
  1 <= w -> 1 <= hh -> 8 * (w * hh) < 2 ^ 64 ->
  w * hh <= max_pixels -> d * w <= max_chars -> 8 * (w * hh) / 3 <= max_size ->
  d * w * hh <= Z.of_nat (List.length body) ->
  exists image,
    readPam max_pixels max_chars
      (cin_of (pam_file alpha width_digits height_digits body)) = Returns image
    /\ pam2qoi max_size max_pixels max_chars hardware_concurrency args
         (pam_file alpha width_digits height_digits body)
       = (write_header [] image ++ ops_bytes (chunk_ops image 0 hh) ++ end_marker,
          Returns 0).
Proof.
  intros max_size max_pixels max_chars hw args threads alpha wd hd body Hthreads Hserial
    Hwne Hwd Hhne Hhd w hh d Hw Hh Hsz Hpixels Hchars Hreserve Hlen.
  now apply (pam2qoi_serial max_size max_pixels max_chars hw args threads).
Qed.

Lemma X27_serial_run_witness :
  exists image,
    readPam libstdcxx_max_pixels libstdcxx_max_chars (cin_of sample_pam) = Returns image
    /\ pam2qoi libstdcxx_max_size libstdcxx_max_pixels libstdcxx_max_chars 4 ["1"%string]
         sample_pam
       = (write_header [] image ++ ops_bytes (chunk_ops image 0 1) ++ end_marker,
          Returns 0).
Proof.
  apply (X27_serial_run libstdcxx_max_size libstdcxx_max_pixels libstdcxx_max_chars
           4 ["1"%string] 1 false (literal "2") (literal "1") [255; 0; 0; 0; 255; 0]);
    try discriminate; try reflexivity; try lia;
    try (unfold libstdcxx_max_size, libstdcxx_max_pixels, libstdcxx_max_chars;
         vm_compute; congruence).
Defined.
